(** * GOdelivery: the in-memory To-Do CLI, Spanish and English variants

    A shallow embedding of the two [package main] programs (domain
    records, repository interfaces, in-memory repositories, use cases and
    the two utilities) and the properties of the repository contracts.

    Conventions of the embedding:
    - a Go [string] is a [string] (a sequence of 8-bit characters);
    - a Go [error] result is an [option error], [None] standing for [nil];
    - a Go [map[string]T] is a [gmap string T];
    - a method with a pointer receiver that writes to the receiver returns
      the new receiver next to its Go result; a method that only reads
      takes the receiver and returns the Go result;
    - [for ... range m] over a map visits every entry once, in an order
      Go leaves open: a loop over a map is a function of the visiting
      order, and the method is the relation over all admissible orders;
    - a run-time panic is [None] in an [option] result. *)

From Stdlib Require Import ZArith Lia Ascii.
From stdpp Require Import gmap strings list fin_maps pretty.

(** ** The parts of the Go runtime the programs use *)

(** [fmt.Errorf(msg)], the only way the programs build an error. *)
Inductive error : Type :=
| Errorf (msg : string).

(** The process identity the [os] package reports; constant during a run. *)
Record Proceso : Type := MkProceso {
  Getpid : Z;
  Getuid : Z;
  Geteuid : Z;
  Getppid : Z;
  Getegid : Z
}.

(** Go's [int] on the 64-bit targets: two's complement, wrapping [+]. *)
Definition int_min : Z := - 2 ^ 63.
Definition int_max : Z := 2 ^ 63 - 1.

Definition int_wrap (z : Z) : Z := (z + 2 ^ 63) `mod` 2 ^ 64 - 2 ^ 63.

Definition int_add (a b : Z) : Z := int_wrap (a + b).

(** [fmt.Sprintf("%d", n)]: the decimal rendering of [n]. *)
Definition Sprintf_d (n : Z) : string := pretty n.

(** [[]byte(s)] and [string(b)]. *)
Definition bytes_of (s : string) : list Ascii.ascii := String.list_ascii_of_string s.
Definition string_of (b : list Ascii.ascii) : string := String.string_of_list_ascii b.

(** [len(s)], an [int]. *)
Definition len (s : string) : Z := Z.of_nat (String.length s).

(** [b[:hi]] on a byte slice whose capacity is its length: it panics
    unless [0 <= hi <= len(b)]. *)
Definition slice_to (b : list Ascii.ascii) (hi : Z) : option (list Ascii.ascii) :=
  if decide (0 ≤ hi ≤ Z.of_nat (length b))%Z
  then Some (take (Z.to_nat hi) b)
  else None.

(** [reader.ReadString('\n')] with its error dropped, on the input still
    to be read: the bytes up to and including the first newline, or all
    that is left when the input ends first; next to it, the input left. *)
Fixpoint ReadString (entrada : string) : string * string :=
  match entrada with
  | EmptyString => (EmptyString, EmptyString)
  | String c resto =>
      if Ascii.eqb c "010"%char then (String c EmptyString, resto)
      else let '(linea, queda) := ReadString resto in (String c linea, queda)
  end.

(** The orders in which [range] may visit the entries of a map. *)
Definition recorrido {V : Type} (m : gmap string V)
    (orden : list (string * V)) : Prop :=
  orden ≡ₚ map_to_list m.

(** ** The Spanish variant *)

Module Es.

(** *** Domain layer *)

Module Usuario.
Record t : Type := Mk {
  ID : string;
  Nombre : string;
  Rol : string
}.
End Usuario.

(** [type EstadoTarea string] with its three constants. *)
Definition EstadoTarea : Type := string.

Definition Pendiente : EstadoTarea := "Pendiente".
Definition EnProgreso : EstadoTarea := "En progreso".
Definition Finalizada : EstadoTarea := "Finalizada".

Module Tarea.
Record t : Type := Mk {
  ID : string;
  UsuarioID : string;
  Titulo : string;
  Estado : EstadoTarea
}.

(** The assignment [tarea.Estado = e] on a local copy. *)
Definition con_Estado (tarea : t) (e : EstadoTarea) : t :=
  Mk (ID tarea) (UsuarioID tarea) (Titulo tarea) e.
End Tarea.

(** The zero values [Usuario{}] and [Tarea{}]. *)
Definition Usuario_cero : Usuario.t := Usuario.Mk "" "" "".
Definition Tarea_cero : Tarea.t := Tarea.Mk "" "" "" "".

(** *** Utilities *)

Definition generarID (p : Proceso) : string :=
  Sprintf_d
    (int_add (int_add (int_add (int_add (Getpid p) (Getuid p)) (Geteuid p))
                      (Getppid p)) (Getegid p)).

Definition limpiar (s : string) : option string :=
  string_of <$> slice_to (bytes_of s) (len s - 1).

(** *** Application layer: the repository interfaces *)

Module RepositorioUsuario.
Class t (R : Type) : Type := {
  Guardar : Usuario.t → R → R * option error;
  BuscarPorID : string → R → Usuario.t * option error;
  Listar : R → list Usuario.t → Prop
}.
End RepositorioUsuario.

Module RepositorioTarea.
Class t (R : Type) : Type := {
  Guardar : Tarea.t → R → R * option error;
  BuscarPorID : string → R → Tarea.t * option error;
  ListarPorUsuario : string → R → list Tarea.t → Prop;
  Actualizar : Tarea.t → R → R * option error
}.
End RepositorioTarea.

(** *** Application layer: the use cases *)

Definition CrearUsuario {R : Type} `{RepositorioUsuario.t R}
    (p : Proceso) (repo : R) (nombre rol : string)
    : R * (Usuario.t * option error) :=
  let id := generarID p in
  let usuario := Usuario.Mk id nombre rol in
  match RepositorioUsuario.Guardar usuario repo with
  | (repo', Some err) => (repo', (Usuario_cero, Some err))
  | (repo', None) => (repo', (usuario, None))
  end.

Definition CrearTarea {R : Type} `{RepositorioTarea.t R}
    (p : Proceso) (repo : R) (usuarioID titulo : string)
    : R * (Tarea.t * option error) :=
  let id := generarID p in
  let tarea := Tarea.Mk id usuarioID titulo Pendiente in
  match RepositorioTarea.Guardar tarea repo with
  | (repo', Some err) => (repo', (Tarea_cero, Some err))
  | (repo', None) => (repo', (tarea, None))
  end.

Definition FinalizarTarea {R : Type} `{RepositorioTarea.t R}
    (repo : R) (tareaID : string) : R * option error :=
  match RepositorioTarea.BuscarPorID tareaID repo with
  | (_, Some err) => (repo, Some err)
  | (tarea, None) =>
      let tarea := Tarea.con_Estado tarea Finalizada in
      RepositorioTarea.Actualizar tarea repo
  end.

Definition ListarTareas {R : Type} `{RepositorioTarea.t R}
    (repo : R) (usuarioID : string) : list Tarea.t → Prop :=
  RepositorioTarea.ListarPorUsuario usuarioID repo.

(** *** Infrastructure layer: the in-memory repositories *)

Module RepositorioUsuarioMem.
Record t : Type := Mk { usuarios : gmap string Usuario.t }.

Definition Guardar (usuario : Usuario.t) (r : t) : t * option error :=
  (Mk (<[Usuario.ID usuario := usuario]> (usuarios r)), None).

Definition BuscarPorID (id : string) (r : t) : Usuario.t * option error :=
  match usuarios r !! id with
  | None => (Usuario_cero, Some (Errorf "usuario no encontrado"))
  | Some usuario => (usuario, None)
  end.

(** The body of [Listar] for one visiting order. *)
Definition Listar_en (orden : list (string * Usuario.t)) : list Usuario.t :=
  foldl (λ usuarios '(_, u), usuarios ++ [u]) [] orden.

Definition Listar (r : t) (res : list Usuario.t) : Prop :=
  ∃ orden, recorrido (usuarios r) orden ∧ res = Listar_en orden.
End RepositorioUsuarioMem.

Definition NuevoRepositorioUsuarioMem : RepositorioUsuarioMem.t :=
  RepositorioUsuarioMem.Mk ∅.

Module RepositorioTareaMem.
Record t : Type := Mk { tareas : gmap string Tarea.t }.

Definition Guardar (tarea : Tarea.t) (r : t) : t * option error :=
  (Mk (<[Tarea.ID tarea := tarea]> (tareas r)), None).

Definition BuscarPorID (id : string) (r : t) : Tarea.t * option error :=
  match tareas r !! id with
  | None => (Tarea_cero, Some (Errorf "tarea no encontrada"))
  | Some tarea => (tarea, None)
  end.

(** The body of [ListarPorUsuario] for one visiting order. *)
Definition ListarPorUsuario_en (orden : list (string * Tarea.t))
    (usuarioID : string) : list Tarea.t :=
  foldl (λ tareas '(_, t),
           if decide (Tarea.UsuarioID t = usuarioID) then tareas ++ [t]
           else tareas) [] orden.

Definition ListarPorUsuario (usuarioID : string) (r : t)
    (res : list Tarea.t) : Prop :=
  ∃ orden, recorrido (tareas r) orden
           ∧ res = ListarPorUsuario_en orden usuarioID.

Definition Actualizar (tarea : Tarea.t) (r : t) : t * option error :=
  match tareas r !! Tarea.ID tarea with
  | None => (r, Some (Errorf "tarea no encontrada"))
  | Some _ => (Mk (<[Tarea.ID tarea := tarea]> (tareas r)), None)
  end.
End RepositorioTareaMem.

Definition NuevoRepositorioTareaMem : RepositorioTareaMem.t :=
  RepositorioTareaMem.Mk ∅.

#[global] Instance RepositorioUsuarioMem_impl
    : RepositorioUsuario.t RepositorioUsuarioMem.t := {|
  RepositorioUsuario.Guardar := RepositorioUsuarioMem.Guardar;
  RepositorioUsuario.BuscarPorID := RepositorioUsuarioMem.BuscarPorID;
  RepositorioUsuario.Listar := RepositorioUsuarioMem.Listar
|}.

#[global] Instance RepositorioTareaMem_impl
    : RepositorioTarea.t RepositorioTareaMem.t := {|
  RepositorioTarea.Guardar := RepositorioTareaMem.Guardar;
  RepositorioTarea.BuscarPorID := RepositorioTareaMem.BuscarPorID;
  RepositorioTarea.ListarPorUsuario := RepositorioTareaMem.ListarPorUsuario;
  RepositorioTarea.Actualizar := RepositorioTareaMem.Actualizar
|}.

End Es.

(** ** The English variant *)

Module En.

(** *** Domain layer *)

Module User.
Record t : Type := Mk {
  ID : string;
  Name : string;
  Rol : string
}.
End User.

(** [type TaskStatus string] with its three constants. *)
Definition TaskStatus : Type := string.

Definition TaskPending : TaskStatus := "Pendiente".
Definition TaskInProgress : TaskStatus := "En progreso".
Definition TaskCompleted : TaskStatus := "Finalizada".

Module Task.
Record t : Type := Mk {
  ID : string;
  UserID : string;
  Title : string;
  Status : TaskStatus
}.

(** The assignment [task.Status = s] on a local copy. *)
Definition with_Status (task : t) (s : TaskStatus) : t :=
  Mk (ID task) (UserID task) (Title task) s.
End Task.

(** The zero values [User{}] and [Task{}]. *)
Definition User_zero : User.t := User.Mk "" "" "".
Definition Task_zero : Task.t := Task.Mk "" "" "" "".

(** *** Utilities *)

Definition generateID (p : Proceso) : string :=
  Sprintf_d
    (int_add (int_add (int_add (int_add (Getpid p) (Getuid p)) (Geteuid p))
                      (Getppid p)) (Getegid p)).

Definition trim (s : string) : option string :=
  string_of <$> slice_to (bytes_of s) (len s - 1).

(** *** Application layer: the repository interfaces *)

Module UserRepository.
Class t (R : Type) : Type := {
  Save : User.t → R → R * option error;
  FindByID : string → R → User.t * option error;
  List : R → list User.t → Prop
}.
End UserRepository.

Module TaskRepository.
Class t (R : Type) : Type := {
  Save : Task.t → R → R * option error;
  FindByID : string → R → Task.t * option error;
  ListByUser : string → R → list Task.t → Prop;
  Update : Task.t → R → R * option error
}.
End TaskRepository.

(** *** Application layer: the use cases *)

(** [User{ID: id, Name: name}]: the field [Rol] is left at its zero value. *)
Definition CreateUser {R : Type} `{UserRepository.t R}
    (p : Proceso) (repo : R) (name : string)
    : R * (User.t * option error) :=
  let id := generateID p in
  let user := User.Mk id name "" in
  match UserRepository.Save user repo with
  | (repo', Some err) => (repo', (User_zero, Some err))
  | (repo', None) => (repo', (user, None))
  end.

Definition CreateTask {R : Type} `{TaskRepository.t R}
    (p : Proceso) (repo : R) (userID title : string)
    : R * (Task.t * option error) :=
  let id := generateID p in
  let task := Task.Mk id userID title TaskPending in
  match TaskRepository.Save task repo with
  | (repo', Some err) => (repo', (Task_zero, Some err))
  | (repo', None) => (repo', (task, None))
  end.

Definition CompleteTask {R : Type} `{TaskRepository.t R}
    (repo : R) (taskID : string) : R * option error :=
  match TaskRepository.FindByID taskID repo with
  | (_, Some err) => (repo, Some err)
  | (task, None) =>
      let task := Task.with_Status task TaskCompleted in
      TaskRepository.Update task repo
  end.

Definition ListTasks {R : Type} `{TaskRepository.t R}
    (repo : R) (userID : string) : list Task.t → Prop :=
  TaskRepository.ListByUser userID repo.

(** *** Infrastructure layer: the in-memory repositories *)

Module InMemoryUserRepo.
Record t : Type := Mk { users : gmap string User.t }.

Definition Save (user : User.t) (r : t) : t * option error :=
  (Mk (<[User.ID user := user]> (users r)), None).

Definition FindByID (id : string) (r : t) : User.t * option error :=
  match users r !! id with
  | None => (User_zero, Some (Errorf "usuario no encontrado"))
  | Some user => (user, None)
  end.

(** The body of [List] for one visiting order. *)
Definition List_in (order : list (string * User.t)) : list User.t :=
  foldl (λ users '(_, u), users ++ [u]) [] order.

Definition List (r : t) (res : list User.t) : Prop :=
  ∃ order, recorrido (users r) order ∧ res = List_in order.
End InMemoryUserRepo.

Definition NewInMemoryUserRepo : InMemoryUserRepo.t :=
  InMemoryUserRepo.Mk ∅.

Module InMemoryTaskRepo.
Record t : Type := Mk { tasks : gmap string Task.t }.

Definition Save (task : Task.t) (r : t) : t * option error :=
  (Mk (<[Task.ID task := task]> (tasks r)), None).

Definition FindByID (id : string) (r : t) : Task.t * option error :=
  match tasks r !! id with
  | None => (Task_zero, Some (Errorf "tarea no encontrada"))
  | Some task => (task, None)
  end.

(** The body of [ListByUser] for one visiting order. *)
Definition ListByUser_in (order : list (string * Task.t))
    (userID : string) : list Task.t :=
  foldl (λ tasks '(_, t),
           if decide (Task.UserID t = userID) then tasks ++ [t]
           else tasks) [] order.

Definition ListByUser (userID : string) (r : t)
    (res : list Task.t) : Prop :=
  ∃ order, recorrido (tasks r) order
           ∧ res = ListByUser_in order userID.

Definition Update (task : Task.t) (r : t) : t * option error :=
  match tasks r !! Task.ID task with
  | None => (r, Some (Errorf "tarea no encontrada"))
  | Some _ => (Mk (<[Task.ID task := task]> (tasks r)), None)
  end.
End InMemoryTaskRepo.

Definition NewInMemoryTaskRepo : InMemoryTaskRepo.t :=
  InMemoryTaskRepo.Mk ∅.

#[global] Instance InMemoryUserRepo_impl
    : UserRepository.t InMemoryUserRepo.t := {|
  UserRepository.Save := InMemoryUserRepo.Save;
  UserRepository.FindByID := InMemoryUserRepo.FindByID;
  UserRepository.List := InMemoryUserRepo.List
|}.

#[global] Instance InMemoryTaskRepo_impl
    : TaskRepository.t InMemoryTaskRepo.t := {|
  TaskRepository.Save := InMemoryTaskRepo.Save;
  TaskRepository.FindByID := InMemoryTaskRepo.FindByID;
  TaskRepository.ListByUser := InMemoryTaskRepo.ListByUser;
  TaskRepository.Update := InMemoryTaskRepo.Update
|}.

End En.

(** ** Vocabulary of the statements *)

(** The exact (unbounded) sum of the five process-identity numbers. *)
Definition suma_identidad (p : Proceso) : Z :=
  (Getpid p + Getuid p + Geteuid p + Getppid p + Getegid p)%Z.

(** Every entry of a store sits under the identifier of its entity. *)
Definition claves_por_ID {V : Type} (id_de : V → string)
    (m : gmap string V) : Prop :=
  ∀ k v, m !! k = Some v → id_de v = k.

(** The field-wise reading of a Spanish-variant owner as an English one,
    and the same reading with the role tag forgotten. *)
Definition a_User (u : Es.Usuario.t) : En.User.t :=
  En.User.Mk (Es.Usuario.ID u) (Es.Usuario.Nombre u) (Es.Usuario.Rol u).

Definition sin_rol (u : Es.Usuario.t) : En.User.t :=
  En.User.Mk (Es.Usuario.ID u) (Es.Usuario.Nombre u) "".

(** An English-variant owner with its role tag forgotten: two stores
    agree up to the role tag when [olvida_rol] on the one and [sin_rol]
    on the other give the same map. *)
Definition olvida_rol (u : En.User.t) : En.User.t :=
  En.User.Mk (En.User.ID u) (En.User.Name u) "".

(** The task stores a run can reach, one predicate per program: [main]
    starts from the empty repository and only calls the use cases on it. *)
Inductive alcanzable (p : Proceso) : Es.RepositorioTareaMem.t → Prop :=
| alcanzable_nuevo : alcanzable p Es.NuevoRepositorioTareaMem
| alcanzable_crear (r : Es.RepositorioTareaMem.t) (usuarioID titulo : string) :
    alcanzable p r → alcanzable p (Es.CrearTarea p r usuarioID titulo).1
| alcanzable_finalizar (r : Es.RepositorioTareaMem.t) (tareaID : string) :
    alcanzable p r → alcanzable p (Es.FinalizarTarea r tareaID).1.

Inductive reachable (p : Proceso) : En.InMemoryTaskRepo.t → Prop :=
| reachable_new : reachable p En.NewInMemoryTaskRepo
| reachable_create (r : En.InMemoryTaskRepo.t) (userID title : string) :
    reachable p r → reachable p (En.CreateTask p r userID title).1
| reachable_complete (r : En.InMemoryTaskRepo.t) (taskID : string) :
    reachable p r → reachable p (En.CompleteTask r taskID).1.

(** A sample process identity and the line feed. *)
Definition proceso_ejemplo : Proceso := MkProceso 4242 1000 1000 4100 1000.

Definition LF : string := String "010"%char EmptyString.

(** ** The interface layer: console programs *)

(** [main] reads standard input and writes standard output while it
    works on the two repositories.  A statement of [main] is a function
    of that state which either yields a value or panics; what has been
    printed and stored up to a panic stays in the state. *)

Module Consola.

Record Mundo (RU RT : Type) : Type := MkMundo {
  entrada : string;
  repoUsuario : RU;
  repoTarea : RT;
  salida : string
}.

Arguments MkMundo {RU RT} _ _ _ _.
Arguments entrada {RU RT} _.
Arguments repoUsuario {RU RT} _.
Arguments repoTarea {RU RT} _.
Arguments salida {RU RT} _.

Definition M (RU RT A : Type) : Type :=
  Mundo RU RT → option A * Mundo RU RT.

Definition ret {RU RT A : Type} (a : A) : M RU RT A :=
  λ m, (Some a, m).

Definition bind {RU RT A B : Type} (c : M RU RT A) (k : A → M RU RT B)
    : M RU RT B :=
  λ m, match c m with
       | (Some a, m') => k a m'
       | (None, m') => (None, m')
       end.

Definition panic {RU RT A : Type} : M RU RT A :=
  λ m, (None, m).

(** The value of an expression that may panic. *)
Definition o_panic {RU RT A : Type} (o : option A) : M RU RT A :=
  match o with
  | Some a => ret a
  | None => panic
  end.

(** [fmt.Print(s)], [fmt.Println(s)] and [fmt.Println(a, b)] on strings:
    [Println] puts a space between its operands and a newline after
    them. *)
Definition Print {RU RT : Type} (s : string) : M RU RT () :=
  λ m, (Some (),
        MkMundo (entrada m) (repoUsuario m) (repoTarea m) (salida m +:+ s)).

Definition Println {RU RT : Type} (s : string) : M RU RT () :=
  Print (s +:+ LF).

Definition Println2 {RU RT : Type} (a b : string) : M RU RT () :=
  Print (a +:+ " " +:+ b +:+ LF).

(** [lector.ReadString('\n')] with its error dropped. *)
Definition leer {RU RT : Type} : M RU RT string :=
  λ m, let '(linea, queda) := ReadString (entrada m) in
       (Some linea, MkMundo queda (repoUsuario m) (repoTarea m) (salida m)).

(** [s[0]]: it panics on the empty string. *)
Definition primer_byte (s : string) : option ascii :=
  match s with
  | EmptyString => None
  | String c _ => Some c
  end.

(** A call of a use case on one of the two repositories. *)
Definition con_repoUsuario {RU RT A : Type} (f : RU → RU * A) : M RU RT A :=
  λ m, let '(r, a) := f (repoUsuario m) in
       (Some a, MkMundo (entrada m) r (repoTarea m) (salida m)).

Definition con_repoTarea {RU RT A : Type} (f : RT → RT * A) : M RU RT A :=
  λ m, let '(r, a) := f (repoTarea m) in
       (Some a, MkMundo (entrada m) (repoUsuario m) r (salida m)).

Definition ver_repoTarea {RU RT : Type} : M RU RT RT :=
  λ m, (Some (repoTarea m), m).

(** [err.Error()]. *)
Definition Error (e : error) : string :=
  match e with
  | Errorf msg => msg
  end.

(** How a run of [for { ... }] ends: by the [return] of [main] or by a
    panic. *)
Inductive Fin : Type :=
| Retorna
| Panico.

(** [for { cuerpo }], where the body yields [false] on [return]; the
    n-th round runs [cuerpo n].  [None]: more rounds than [rondas]. *)
Fixpoint bucle {RU RT : Type} (rondas : nat) (cuerpo : nat → M RU RT bool)
    (m : Mundo RU RT) : option (Fin * Mundo RU RT) :=
  match rondas with
  | O => None
  | S rondas' =>
      match cuerpo O m with
      | (None, m') => Some (Panico, m')
      | (Some false, m') => Some (Retorna, m')
      | (Some true, m') => bucle rondas' (λ n, cuerpo (S n)) m'
      end
  end.

End Consola.

Notation "'let*' x ':=' c 'in' k" := (Consola.bind c (λ x, k))
  (at level 10, x name, c at level 100, k at level 200, only parsing).

Notation "c '>>' k" := (Consola.bind c (λ _, k))
  (at level 100, k at level 200, right associativity, only parsing).

(** *** The menu loop of the Spanish variant *)

Module EsInterfaz.

Import Es Consola.

Definition CLI (A : Type) : Type :=
  M RepositorioUsuarioMem.t RepositorioTareaMem.t A.

Definition menu : CLI () :=
  Println (LF +:+ "--- To-Do CLI ---") >>
  Println "1. Crear usuario" >>
  Println "2. Crear tarea" >>
  Println "3. Finalizar tarea" >>
  Println "4. Listar tareas por usuario" >>
  Println "5. Salir" >>
  Print "Seleccione una opción: ".

(** [fmt.Printf("- [%s] %s (ID: %s)\n", t.Estado, t.Titulo, t.ID)] for
    each task of the list, in its order. *)
Definition linea_tarea (t : Tarea.t) : string :=
  "- [" +:+ Tarea.Estado t +:+ "] " +:+ Tarea.Titulo t
  +:+ " (ID: " +:+ Tarea.ID t +:+ ")" +:+ LF.

Fixpoint imprimir_tareas (tareas : list Tarea.t) : CLI () :=
  match tareas with
  | [] => ret ()
  | t :: resto => Print (linea_tarea t) >> imprimir_tareas resto
  end.

Definition caso_1 (p : Proceso) : CLI bool :=
  Print "Nombre de usuario: " >>
  let* nombre := leer in
  Print "Rol de usuario: " >>
  let* rol := leer in
  let* nombre' := o_panic (limpiar nombre) in
  let* rol' := o_panic (limpiar rol) in
  let* res := con_repoUsuario (λ repo, CrearUsuario p repo nombre' rol') in
  match res with
  | (_, Some err) => Println2 "Error:" (Error err)
  | (usuario, None) => Println2 "Usuario creado con ID:" (Usuario.ID usuario)
  end >>
  ret true.

Definition caso_2 (p : Proceso) : CLI bool :=
  Print "ID de usuario: " >>
  let* usuarioID := leer in
  Print "Título de la tarea: " >>
  let* titulo := leer in
  let* usuarioID' := o_panic (limpiar usuarioID) in
  let* titulo' := o_panic (limpiar titulo) in
  let* res := con_repoTarea (λ repo, CrearTarea p repo usuarioID' titulo') in
  match res with
  | (_, Some err) => Println2 "Error:" (Error err)
  | (tarea, None) => Println2 "Tarea creada con ID:" (Tarea.ID tarea)
  end >>
  ret true.

Definition caso_3 : CLI bool :=
  Print "ID de tarea: " >>
  let* tareaID := leer in
  let* tareaID' := o_panic (limpiar tareaID) in
  let* err := con_repoTarea (λ repo, FinalizarTarea repo tareaID') in
  match err with
  | Some err => Println2 "Error:" (Error err)
  | None => Println "Tarea finalizada."
  end >>
  ret true.

(** [ListarTareas] is run with the order [elige] gives for the map of
    the task repository. *)
Definition caso_4
    (elige : gmap string Tarea.t → list (string * Tarea.t)) : CLI bool :=
  Print "ID de usuario: " >>
  let* usuarioID := leer in
  let* usuarioID' := o_panic (limpiar usuarioID) in
  let* repo := ver_repoTarea in
  let tareas :=
    RepositorioTareaMem.ListarPorUsuario_en
      (elige (RepositorioTareaMem.tareas repo)) usuarioID' in
  (if decide (length tareas = 0%nat)
   then Println "No hay tareas para este usuario."
   else Println "Tareas:" >> imprimir_tareas tareas) >>
  ret true.

(** [switch c { case '1': ... default: ... }]: [true] to go round the
    loop again, [false] on [return]. *)
Definition segun_opcion (p : Proceso)
    (elige : gmap string Tarea.t → list (string * Tarea.t))
    (c : ascii) : CLI bool :=
  if Ascii.eqb c "1" then caso_1 p
  else if Ascii.eqb c "2" then caso_2 p
  else if Ascii.eqb c "3" then caso_3
  else if Ascii.eqb c "4" then caso_4 elige
  else if Ascii.eqb c "5" then Println "Saliendo..." >> ret false
  else Println "Opción inválida." >> ret true.

(** One round of the loop of [main]. *)
Definition ronda (p : Proceso)
    (elige : gmap string Tarea.t → list (string * Tarea.t)) : CLI bool :=
  menu >>
  let* opcion := leer in
  let* c := o_panic (primer_byte opcion) in
  segun_opcion p elige c.

(** [main] on the process identity [p] and the standard input [stdin],
    the n-th round visiting the task map in the order [eleccion n]. *)
Definition main (rondas : nat) (p : Proceso)
    (eleccion : nat → gmap string Tarea.t → list (string * Tarea.t))
    (stdin : string)
    : option (Fin * Mundo RepositorioUsuarioMem.t RepositorioTareaMem.t) :=
  bucle rondas (λ n, ronda p (eleccion n))
    (MkMundo stdin NuevoRepositorioUsuarioMem NuevoRepositorioTareaMem "").

End EsInterfaz.

(** *** The menu loop of the English variant *)

Module EnInterface.

Import En Consola.

Definition CLI (A : Type) : Type :=
  M InMemoryUserRepo.t InMemoryTaskRepo.t A.

Definition menu : CLI () :=
  Println (LF +:+ "--- To-Do CLI ---") >>
  Println "1. Crear usuario" >>
  Println "2. Crear tarea" >>
  Println "3. Completar tarea" >>
  Println "4. Listar tareas por usuario" >>
  Println "5. Salir" >>
  Print "Seleccione una opción: ".

(** [fmt.Printf("- [%s] %s (ID: %s)\n", t.Status, t.Title, t.ID)] for
    each task of the list, in its order. *)
Definition task_line (t : Task.t) : string :=
  "- [" +:+ Task.Status t +:+ "] " +:+ Task.Title t
  +:+ " (ID: " +:+ Task.ID t +:+ ")" +:+ LF.

Fixpoint print_tasks (tasks : list Task.t) : CLI () :=
  match tasks with
  | [] => ret ()
  | t :: rest => Print (task_line t) >> print_tasks rest
  end.

Definition case_1 (p : Proceso) : CLI bool :=
  Print "Nombre de usuario: " >>
  let* name := leer in
  let* name' := o_panic (trim name) in
  let* res := con_repoUsuario (λ repo, CreateUser p repo name') in
  match res with
  | (_, Some err) => Println2 "Error:" (Error err)
  | (user, None) => Println2 "Usuario creado con ID:" (User.ID user)
  end >>
  ret true.

Definition case_2 (p : Proceso) : CLI bool :=
  Print "ID de usuario: " >>
  let* userID := leer in
  Print "Título de la tarea: " >>
  let* title := leer in
  let* userID' := o_panic (trim userID) in
  let* title' := o_panic (trim title) in
  let* res := con_repoTarea (λ repo, CreateTask p repo userID' title') in
  match res with
  | (_, Some err) => Println2 "Error:" (Error err)
  | (task, None) => Println2 "Tarea creada con ID:" (Task.ID task)
  end >>
  ret true.

Definition case_3 : CLI bool :=
  Print "ID de tarea: " >>
  let* taskID := leer in
  let* taskID' := o_panic (trim taskID) in
  let* err := con_repoTarea (λ repo, CompleteTask repo taskID') in
  match err with
  | Some err => Println2 "Error:" (Error err)
  | None => Println "Tarea completada."
  end >>
  ret true.

(** [ListTasks] is run with the order [choose] gives for the map of the
    task repository. *)
Definition case_4
    (choose : gmap string Task.t → list (string * Task.t)) : CLI bool :=
  Print "ID de usuario: " >>
  let* userID := leer in
  let* userID' := o_panic (trim userID) in
  let* repo := ver_repoTarea in
  let tasks :=
    InMemoryTaskRepo.ListByUser_in
      (choose (InMemoryTaskRepo.tasks repo)) userID' in
  (if decide (length tasks = 0%nat)
   then Println "No hay tareas para este usuario."
   else Println "Tareas:" >> print_tasks tasks) >>
  ret true.

(** [switch c { case '1': ... default: ... }]: [true] to go round the
    loop again, [false] on [return]. *)
Definition on_option (p : Proceso)
    (choose : gmap string Task.t → list (string * Task.t))
    (c : ascii) : CLI bool :=
  if Ascii.eqb c "1" then case_1 p
  else if Ascii.eqb c "2" then case_2 p
  else if Ascii.eqb c "3" then case_3
  else if Ascii.eqb c "4" then case_4 choose
  else if Ascii.eqb c "5" then Println "Saliendo..." >> ret false
  else Println "Opción inválida." >> ret true.

(** One round of the loop of [main]. *)
Definition round (p : Proceso)
    (choose : gmap string Task.t → list (string * Task.t)) : CLI bool :=
  menu >>
  let* opt := leer in
  let* c := o_panic (primer_byte opt) in
  on_option p choose c.

(** [main] on the process identity [p] and the standard input [stdin],
    the n-th round visiting the task map in the order [choice n]. *)
Definition main (rounds : nat) (p : Proceso)
    (choice : nat → gmap string Task.t → list (string * Task.t))
    (stdin : string)
    : option (Fin * Mundo InMemoryUserRepo.t InMemoryTaskRepo.t) :=
  bucle rounds (λ n, round p (choice n))
    (MkMundo stdin NewInMemoryUserRepo NewInMemoryTaskRepo "").

End EnInterface.

(** The owner stores a run can reach, one predicate per program. *)
Inductive alcanzable_usuarios (p : Proceso)
    : Es.RepositorioUsuarioMem.t → Prop :=
| alcanzable_usuarios_nuevo :
    alcanzable_usuarios p Es.NuevoRepositorioUsuarioMem
| alcanzable_usuarios_crear (r : Es.RepositorioUsuarioMem.t)
    (nombre rol : string) :
    alcanzable_usuarios p r →
    alcanzable_usuarios p (Es.CrearUsuario p r nombre rol).1.

Inductive reachable_users (p : Proceso) : En.InMemoryUserRepo.t → Prop :=
| reachable_users_new : reachable_users p En.NewInMemoryUserRepo
| reachable_users_create (r : En.InMemoryUserRepo.t) (name : string) :
    reachable_users p r →
    reachable_users p (En.CreateUser p r name).1.

(** An order of visit for every map: what a round of [main] is given. *)
Definition admisible {V : Type}
    (elige : gmap string V → list (string * V)) : Prop :=
  ∀ m, recorrido m (elige m).

(** A statement keeps a property of the state, panic or not. *)
Definition preserva {RU RT A : Type} (P : Consola.Mundo RU RT → Prop)
    (c : Consola.M RU RT A) : Prop :=
  ∀ m, P m → P (c m).2.


(** Two states that differ in the owner repository at most, and the
    statements whose value and whose effect on everything but the owner
    repository do not depend on the owner repository. *)
Definition salvo_usuarios {RU RT : Type} (m1 m2 : Consola.Mundo RU RT)
    : Prop :=
  Consola.entrada m1 = Consola.entrada m2
  ∧ Consola.repoTarea m1 = Consola.repoTarea m2
  ∧ Consola.salida m1 = Consola.salida m2.

Definition ciego_a_usuarios {RU RT A : Type} (c : Consola.M RU RT A)
    : Prop :=
  ∀ m1 m2, salvo_usuarios m1 m2 →
           (c m1).1 = (c m2).1 ∧ salvo_usuarios (c m1).2 (c m2).2.

(** What the two menus print at the head of every round. *)
Definition texto_menu_es : string :=
  (LF +:+ "--- To-Do CLI ---" +:+ LF)
  +:+ ("1. Crear usuario" +:+ LF)
  +:+ ("2. Crear tarea" +:+ LF)
  +:+ ("3. Finalizar tarea" +:+ LF)
  +:+ ("4. Listar tareas por usuario" +:+ LF)
  +:+ ("5. Salir" +:+ LF)
  +:+ "Seleccione una opción: ".

Definition texto_menu_en : string :=
  (LF +:+ "--- To-Do CLI ---" +:+ LF)
  +:+ ("1. Crear usuario" +:+ LF)
  +:+ ("2. Crear tarea" +:+ LF)
  +:+ ("3. Completar tarea" +:+ LF)
  +:+ ("4. Listar tareas por usuario" +:+ LF)
  +:+ ("5. Salir" +:+ LF)
  +:+ "Seleccione una opción: ".


(** ** The language demonstration ([hello.go]) *)

Module Hello.

(** [contador()] returns a closure over a fresh variable [c := 0]; the
    state of the closure is the value of [c].  A call of the closure
    does [c++] and returns [c]. *)
Definition contador : Z := 0%Z.

Definition cont (c : Z) : Z * Z :=
  let c' := int_add c 1 in (c', c').

(** The value the [n]-th further call of the closure returns, from the
    state [c]; [None] for [n = 0]. *)
Fixpoint llamadas (n : nat) (c : Z) : option Z * Z :=
  match n with
  | O => (None, c)
  | S n' => let '(v, c') := cont c in
            match n' with
            | O => (Some v, c')
            | S _ => llamadas n' c'
            end
  end.

(** [for nombres := range nombres { fmt.Println(nombres) }]: a [range]
    with one variable binds the index of each element, and it is that
    [int] which is printed. *)
Definition imprimirNombres (nombres : list string) : string :=
  foldl (λ out '(i, _), out +:+ Sprintf_d (Z.of_nat i) +:+ LF) ""
        (zip (seq 0 (length nombres)) nombres).

End Hello.

(** * Properties *)

(** ** The runtime model *)

Section Runtime.

Local Open Scope Z_scope.

Lemma int_wrap_id (z : Z) : int_min ≤ z ≤ int_max → int_wrap z = z.
Proof.
  unfold int_min, int_max, int_wrap. intros Hz.
  rewrite Z.mod_small; lia.
Qed.

Lemma int_wrap_add_l (a b : Z) : int_wrap (int_wrap a + b) = int_wrap (a + b).
Proof.
  unfold int_wrap. f_equal.
  replace (((a + 2 ^ 63) `mod` 2 ^ 64 - 2 ^ 63) + b + 2 ^ 63)
    with ((a + 2 ^ 63) `mod` 2 ^ 64 + b) by ring.
  rewrite Z.add_mod_idemp_l by lia. f_equal. ring.
Qed.

(** Five wrapping additions wrap the exact sum once. *)
Lemma int_add_5 (a b c d e : Z) :
  int_add (int_add (int_add (int_add a b) c) d) e
  = int_wrap (a + b + c + d + e).
Proof.
  unfold int_add.
  by rewrite (int_wrap_add_l (a + b) c), (int_wrap_add_l (a + b + c) d),
    (int_wrap_add_l (a + b + c + d) e).
Qed.

Lemma int_wrap_range (z : Z) : int_min ≤ int_wrap z ≤ int_max.
Proof.
  unfold int_min, int_max, int_wrap.
  pose proof (Z.mod_pos_bound (z + 2 ^ 63) (2 ^ 64)). lia.
Qed.

Lemma Sprintf_d_inj (m n : Z) : Sprintf_d m = Sprintf_d n → m = n.
Proof. unfold Sprintf_d. apply pretty_Z_inj. Qed.

Lemma len_bytes_of (s : string) : Z.of_nat (length (bytes_of s)) = len s.
Proof.
  unfold len, bytes_of. f_equal.
  induction s as [|c s IH]; simpl; [done | by rewrite IH].
Qed.

Lemma bytes_of_app (s1 s2 : string) :
  bytes_of (s1 +:+ s2) = bytes_of s1 ++ bytes_of s2.
Proof.
  unfold bytes_of. induction s1 as [|c s1 IH]; simpl; [done | by rewrite IH].
Qed.

Lemma len_app (s1 s2 : string) : len (s1 +:+ s2) = len s1 + len s2.
Proof.
  rewrite <- !len_bytes_of, bytes_of_app, length_app. lia.
Qed.

(** Dropping the last byte: what [b[:len(b)-1]] yields on a non-empty [b]. *)
Lemma slice_to_snoc (b : list Ascii.ascii) (c : Ascii.ascii) :
  slice_to (b ++ [c]) (Z.of_nat (length (b ++ [c])) - 1) = Some b.
Proof.
  unfold slice_to. rewrite length_app. simpl.
  case_decide as Hd; [|lia]. f_equal.
  replace (Z.to_nat (Z.of_nat (length b + 1) - 1)) with (length b) by lia.
  apply take_app_length.
Qed.

Lemma slice_to_nil_neg : slice_to [] (0 - 1) = None.
Proof. reflexivity. Qed.

End Runtime.

(** ** Loops over a map *)

Section Bucles.

Context {V : Type} (P : V → Prop) `{!∀ x, Decision (P x)}.

(** The guarded-append loop collects, in visiting order, the values that
    pass the guard. *)
Lemma foldl_guarded_append (orden : list (string * V)) (acc : list V) :
  foldl (λ acc '(_, t), if decide (P t) then acc ++ [t] else acc) acc orden
  = acc ++ filter P orden.*2.
Proof.
  revert acc. induction orden as [|[k t] orden IH]; intros acc; simpl.
  - by rewrite app_nil_r.
  - rewrite IH, filter_cons. simpl.
    destruct (decide (P t)); [by rewrite <- app_assoc | done].
Qed.

Lemma foldl_append (orden : list (string * V)) (acc : list V) :
  foldl (λ acc '(_, t), acc ++ [t]) acc orden = acc ++ orden.*2.
Proof.
  revert acc. induction orden as [|[k t] orden IH]; intros acc; simpl.
  - by rewrite app_nil_r.
  - by rewrite IH, <- app_assoc.
Qed.

(** Whatever the visiting order, the values met are those of the map. *)
Lemma recorrido_elem_of (m : gmap string V) (orden : list (string * V)) (t : V) :
  recorrido m orden → (t ∈ orden.*2 ↔ ∃ k, m !! k = Some t).
Proof.
  unfold recorrido. intros Hp. rewrite Hp, list_elem_of_fmap. split.
  - intros [[k t'] [-> Hin]]. exists k. by apply elem_of_map_to_list.
  - intros [k Hk]. exists (k, t). split; [done | by apply elem_of_map_to_list].
Qed.

Lemma recorrido_exists (m : gmap string V) : recorrido m (map_to_list m).
Proof. by unfold recorrido. Qed.

End Bucles.

(** ** The Spanish variant: repositories and use cases *)

Section EsRepositorios.

Import Es.

#[local] Ltac por_casos :=
  match goal with
  | |- context [?m !! ?k] => destruct (m !! k) eqn:?
  end; simpl; split; intros; simplify_eq; done.

Lemma generarID_suma (p : Proceso) :
  generarID p = Sprintf_d (int_wrap (suma_identidad p)).
Proof. unfold generarID, suma_identidad. by rewrite int_add_5. Qed.

Lemma limpiar_snoc (s : string) (c : ascii) :
  limpiar (s +:+ String c EmptyString) = Some s.
Proof.
  unfold limpiar. rewrite <- len_bytes_of, bytes_of_app. simpl.
  rewrite slice_to_snoc. simpl. unfold string_of, bytes_of.
  by rewrite String.string_of_list_ascii_of_string.
Qed.

(** *** Owner repository *)

Lemma Guardar_usuario_ok (u : Usuario.t) (r : RepositorioUsuarioMem.t) :
  (RepositorioUsuarioMem.Guardar u r).2 = None
  ∧ RepositorioUsuarioMem.usuarios (RepositorioUsuarioMem.Guardar u r).1
    = <[Usuario.ID u := u]> (RepositorioUsuarioMem.usuarios r).
Proof. done. Qed.

Lemma BuscarPorID_usuario_Some (id : string) (r : RepositorioUsuarioMem.t)
    (u : Usuario.t) :
  RepositorioUsuarioMem.usuarios r !! id = Some u →
  RepositorioUsuarioMem.BuscarPorID id r = (u, None).
Proof. intros H. unfold RepositorioUsuarioMem.BuscarPorID. by rewrite H. Qed.

Lemma BuscarPorID_usuario_None (id : string) (r : RepositorioUsuarioMem.t) :
  RepositorioUsuarioMem.usuarios r !! id = None →
  RepositorioUsuarioMem.BuscarPorID id r
  = (Usuario_cero, Some (Errorf "usuario no encontrado")).
Proof. intros H. unfold RepositorioUsuarioMem.BuscarPorID. by rewrite H. Qed.

Lemma BuscarPorID_usuario_error (id : string) (r : RepositorioUsuarioMem.t) :
  (RepositorioUsuarioMem.BuscarPorID id r).2
    = Some (Errorf "usuario no encontrado")
  ↔ RepositorioUsuarioMem.usuarios r !! id = None.
Proof. unfold RepositorioUsuarioMem.BuscarPorID. por_casos. Qed.

Lemma Guardar_usuario_BuscarPorID (o : Usuario.t) (r : RepositorioUsuarioMem.t) :
  RepositorioUsuarioMem.BuscarPorID (Usuario.ID o)
    (RepositorioUsuarioMem.Guardar o r).1 = (o, None).
Proof. apply BuscarPorID_usuario_Some. simpl. apply lookup_insert_eq. Qed.

Lemma Guardar_usuario_marco (e : Usuario.t) (k : string)
    (r : RepositorioUsuarioMem.t) :
  k ≠ Usuario.ID e →
  RepositorioUsuarioMem.BuscarPorID k (RepositorioUsuarioMem.Guardar e r).1
  = RepositorioUsuarioMem.BuscarPorID k r.
Proof.
  intros Hk. unfold RepositorioUsuarioMem.BuscarPorID. simpl.
  by rewrite lookup_insert_ne.
Qed.

Lemma Guardar_usuario_claves (u : Usuario.t) (r : RepositorioUsuarioMem.t) :
  claves_por_ID Usuario.ID (RepositorioUsuarioMem.usuarios r) →
  claves_por_ID Usuario.ID
    (RepositorioUsuarioMem.usuarios (RepositorioUsuarioMem.Guardar u r).1).
Proof.
  intros Hr k v. simpl. rewrite lookup_insert. case_decide; [|by auto].
  by intros [= <-].
Qed.

(** *** Task repository *)

Lemma Guardar_tarea_ok (t : Tarea.t) (r : RepositorioTareaMem.t) :
  (RepositorioTareaMem.Guardar t r).2 = None
  ∧ RepositorioTareaMem.tareas (RepositorioTareaMem.Guardar t r).1
    = <[Tarea.ID t := t]> (RepositorioTareaMem.tareas r).
Proof. done. Qed.

Lemma BuscarPorID_tarea_Some (id : string) (r : RepositorioTareaMem.t)
    (t : Tarea.t) :
  RepositorioTareaMem.tareas r !! id = Some t →
  RepositorioTareaMem.BuscarPorID id r = (t, None).
Proof. intros H. unfold RepositorioTareaMem.BuscarPorID. by rewrite H. Qed.

Lemma BuscarPorID_tarea_None (id : string) (r : RepositorioTareaMem.t) :
  RepositorioTareaMem.tareas r !! id = None →
  RepositorioTareaMem.BuscarPorID id r
  = (Tarea_cero, Some (Errorf "tarea no encontrada")).
Proof. intros H. unfold RepositorioTareaMem.BuscarPorID. by rewrite H. Qed.

Lemma BuscarPorID_tarea_error (id : string) (r : RepositorioTareaMem.t) :
  (RepositorioTareaMem.BuscarPorID id r).2
    = Some (Errorf "tarea no encontrada")
  ↔ RepositorioTareaMem.tareas r !! id = None.
Proof. unfold RepositorioTareaMem.BuscarPorID. por_casos. Qed.

Lemma Guardar_tarea_marco (e : Tarea.t) (k : string)
    (r : RepositorioTareaMem.t) :
  k ≠ Tarea.ID e →
  RepositorioTareaMem.BuscarPorID k (RepositorioTareaMem.Guardar e r).1
  = RepositorioTareaMem.BuscarPorID k r.
Proof.
  intros Hk. unfold RepositorioTareaMem.BuscarPorID. simpl.
  by rewrite lookup_insert_ne.
Qed.

Lemma Actualizar_None (t : Tarea.t) (r : RepositorioTareaMem.t) :
  RepositorioTareaMem.tareas r !! Tarea.ID t = None →
  RepositorioTareaMem.Actualizar t r
  = (r, Some (Errorf "tarea no encontrada")).
Proof. intros H. unfold RepositorioTareaMem.Actualizar. by rewrite H. Qed.

Lemma Actualizar_Some (t t0 : Tarea.t) (r : RepositorioTareaMem.t) :
  RepositorioTareaMem.tareas r !! Tarea.ID t = Some t0 →
  RepositorioTareaMem.Actualizar t r
  = (RepositorioTareaMem.Mk
       (<[Tarea.ID t := t]> (RepositorioTareaMem.tareas r)), None).
Proof. intros H. unfold RepositorioTareaMem.Actualizar. by rewrite H. Qed.

Lemma Actualizar_error (t : Tarea.t) (r : RepositorioTareaMem.t) :
  (RepositorioTareaMem.Actualizar t r).2 = Some (Errorf "tarea no encontrada")
  ↔ RepositorioTareaMem.tareas r !! Tarea.ID t = None.
Proof. unfold RepositorioTareaMem.Actualizar. por_casos. Qed.

Lemma Actualizar_marco (e : Tarea.t) (k : string)
    (r : RepositorioTareaMem.t) :
  k ≠ Tarea.ID e →
  RepositorioTareaMem.BuscarPorID k (RepositorioTareaMem.Actualizar e r).1
  = RepositorioTareaMem.BuscarPorID k r.
Proof.
  intros Hk.
  unfold RepositorioTareaMem.BuscarPorID, RepositorioTareaMem.Actualizar.
  destruct (RepositorioTareaMem.tareas r !! Tarea.ID e); simpl; [|done].
  by rewrite lookup_insert_ne.
Qed.

Lemma Guardar_tarea_claves (t : Tarea.t) (r : RepositorioTareaMem.t) :
  claves_por_ID Tarea.ID (RepositorioTareaMem.tareas r) →
  claves_por_ID Tarea.ID
    (RepositorioTareaMem.tareas (RepositorioTareaMem.Guardar t r).1).
Proof.
  intros Hr k v. simpl. rewrite lookup_insert. case_decide; [|by auto].
  by intros [= <-].
Qed.

Lemma Actualizar_claves (t : Tarea.t) (r : RepositorioTareaMem.t) :
  claves_por_ID Tarea.ID (RepositorioTareaMem.tareas r) →
  claves_por_ID Tarea.ID
    (RepositorioTareaMem.tareas (RepositorioTareaMem.Actualizar t r).1).
Proof.
  intros Hr. unfold RepositorioTareaMem.Actualizar.
  destruct (RepositorioTareaMem.tareas r !! Tarea.ID t); [|done].
  by apply (Guardar_tarea_claves t r).
Qed.

(** Under [claves_por_ID] an absent key is an absent identifier. *)
Lemma tarea_ausente (id : string) (r : RepositorioTareaMem.t) :
  claves_por_ID Tarea.ID (RepositorioTareaMem.tareas r) →
  (RepositorioTareaMem.tareas r !! id = None
   ↔ ∀ k t, RepositorioTareaMem.tareas r !! k = Some t → Tarea.ID t ≠ id).
Proof.
  intros Hr. split.
  - intros Hid k t Hk Heq. pose proof (Hr _ _ Hk) as Hkt. congruence.
  - intros Hno. destruct (RepositorioTareaMem.tareas r !! id) as [t|] eqn:E;
      [|done].
    by destruct (Hno _ _ E (Hr _ _ E)).
Qed.

Lemma ListarPorUsuario_en_filter (orden : list (string * Tarea.t))
    (usuarioID : string) :
  RepositorioTareaMem.ListarPorUsuario_en orden usuarioID
  = filter (λ t, Tarea.UsuarioID t = usuarioID) orden.*2.
Proof.
  unfold RepositorioTareaMem.ListarPorUsuario_en.
  by rewrite (foldl_guarded_append (λ t, Tarea.UsuarioID t = usuarioID)).
Qed.

Lemma ListarPorUsuario_total (usuarioID : string) (r : RepositorioTareaMem.t) :
  ∃ res, RepositorioTareaMem.ListarPorUsuario usuarioID r res.
Proof. eexists; eexists; split; [apply recorrido_exists | done]. Qed.

Lemma ListarPorUsuario_elem_of (usuarioID : string)
    (r : RepositorioTareaMem.t) (res : list Tarea.t) (t : Tarea.t) :
  RepositorioTareaMem.ListarPorUsuario usuarioID r res →
  t ∈ res ↔ (∃ k, RepositorioTareaMem.tareas r !! k = Some t)
            ∧ Tarea.UsuarioID t = usuarioID.
Proof.
  intros (orden & Hrec & ->).
  rewrite ListarPorUsuario_en_filter, list_elem_of_filter.
  rewrite (recorrido_elem_of _ _ _ Hrec). tauto.
Qed.

Lemma ListarPorUsuario_perm (usuarioID : string)
    (r : RepositorioTareaMem.t) (res : list Tarea.t) :
  RepositorioTareaMem.ListarPorUsuario usuarioID r res →
  res ≡ₚ filter (λ t, Tarea.UsuarioID t = usuarioID)
           (map_to_list (RepositorioTareaMem.tareas r)).*2.
Proof.
  intros (orden & Hrec & ->). rewrite ListarPorUsuario_en_filter.
  unfold recorrido in Hrec. by rewrite Hrec.
Qed.

(** *** Use cases *)

Lemma CrearUsuario_mem (p : Proceso) (r : RepositorioUsuarioMem.t)
    (nombre rol : string) :
  CrearUsuario p r nombre rol
  = (RepositorioUsuarioMem.Mk
       (<[generarID p := Usuario.Mk (generarID p) nombre rol]>
          (RepositorioUsuarioMem.usuarios r)),
     (Usuario.Mk (generarID p) nombre rol, None)).
Proof. done. Qed.

Lemma CrearTarea_mem (p : Proceso) (r : RepositorioTareaMem.t)
    (usuarioID titulo : string) :
  CrearTarea p r usuarioID titulo
  = (RepositorioTareaMem.Mk
       (<[generarID p := Tarea.Mk (generarID p) usuarioID titulo Pendiente]>
          (RepositorioTareaMem.tareas r)),
     (Tarea.Mk (generarID p) usuarioID titulo Pendiente, None)).
Proof. done. Qed.

Lemma FinalizarTarea_None (r : RepositorioTareaMem.t) (tareaID : string) :
  RepositorioTareaMem.tareas r !! tareaID = None →
  FinalizarTarea r tareaID = (r, Some (Errorf "tarea no encontrada")).
Proof.
  intros H. unfold FinalizarTarea. simpl.
  by rewrite (BuscarPorID_tarea_None _ _ H).
Qed.

Lemma FinalizarTarea_Some (r : RepositorioTareaMem.t) (tarea : Tarea.t) :
  RepositorioTareaMem.tareas r !! Tarea.ID tarea = Some tarea →
  FinalizarTarea r (Tarea.ID tarea)
  = (RepositorioTareaMem.Mk
       (<[Tarea.ID tarea := Tarea.con_Estado tarea Finalizada]>
          (RepositorioTareaMem.tareas r)), None).
Proof.
  intros H. unfold FinalizarTarea. simpl.
  rewrite (BuscarPorID_tarea_Some _ _ _ H).
  by rewrite (Actualizar_Some (Tarea.con_Estado tarea Finalizada) tarea r).
Qed.

(** *** Reachable task stores *)

Lemma FinalizarTarea_claves (r : RepositorioTareaMem.t) (tareaID : string) :
  claves_por_ID Tarea.ID (RepositorioTareaMem.tareas r) →
  claves_por_ID Tarea.ID (RepositorioTareaMem.tareas (FinalizarTarea r tareaID).1).
Proof.
  intros Hr. unfold FinalizarTarea. simpl.
  unfold RepositorioTareaMem.BuscarPorID.
  destruct (RepositorioTareaMem.tareas r !! tareaID); [|done].
  by apply Actualizar_claves.
Qed.

Lemma alcanzable_claves (p : Proceso) (r : RepositorioTareaMem.t) :
  alcanzable p r → claves_por_ID Tarea.ID (RepositorioTareaMem.tareas r).
Proof.
  induction 1 as [|r u t _ IH|r id _ IH].
  - intros k v. unfold NuevoRepositorioTareaMem. cbn [RepositorioTareaMem.tareas].
    by rewrite lookup_empty.
  - rewrite CrearTarea_mem. generalize (generarID p). intros g.
    intros k v. cbn [fst RepositorioTareaMem.tareas]. rewrite lookup_insert.
    case_decide; [|by apply IH]. intros [= <-]. by subst k.
  - by apply FinalizarTarea_claves.
Qed.

(** In a reachable store, a task found under a key is stored under its
    own identifier. *)
Lemma alcanzable_contiene (p : Proceso) (r : RepositorioTareaMem.t)
    (k : string) (tarea : Tarea.t) :
  alcanzable p r →
  RepositorioTareaMem.tareas r !! k = Some tarea →
  RepositorioTareaMem.tareas r !! Tarea.ID tarea = Some tarea.
Proof.
  intros Hr Hk. by rewrite (alcanzable_claves p r Hr k tarea Hk).
Qed.

(** With the constant identifier, a reachable store never holds an entry
    under any other key: it has at most one entry. *)
Lemma alcanzable_una_clave (p : Proceso) (r : RepositorioTareaMem.t) :
  alcanzable p r →
  ∀ k t, RepositorioTareaMem.tareas r !! k = Some t → k = generarID p.
Proof.
  intros Hr. remember (generarID p) as g eqn:Hg.
  induction Hr as [|r u t _ IH|r id Hr IH]; intros k v.
  - unfold NuevoRepositorioTareaMem. cbn [RepositorioTareaMem.tareas].
    by rewrite lookup_empty.
  - rewrite CrearTarea_mem, <- Hg. cbn [fst RepositorioTareaMem.tareas].
    rewrite lookup_insert.
    case_decide; [intros _; congruence | apply IH].
  - unfold FinalizarTarea.
    cbn [RepositorioTarea.BuscarPorID RepositorioTarea.Actualizar
         RepositorioTareaMem_impl].
    unfold RepositorioTareaMem.BuscarPorID.
    destruct (RepositorioTareaMem.tareas r !! id) as [t0|] eqn:E; [|apply IH].
    unfold RepositorioTareaMem.Actualizar, Tarea.con_Estado. cbn [Tarea.ID].
    pose proof (alcanzable_claves p r Hr _ _ E) as Hid. rewrite Hid, E.
    cbn [fst RepositorioTareaMem.tareas].
    rewrite lookup_insert. case_decide; [|apply IH].
    intros _. subst k. by apply (IH _ _ E).
Qed.

End EsRepositorios.

(** ** The English variant: repositories and use cases *)

Section EnRepositories.

Import En.

#[local] Ltac by_cases :=
  match goal with
  | |- context [?m !! ?k] => destruct (m !! k) eqn:?
  end; simpl; split; intros; simplify_eq; done.

Lemma generateID_suma (p : Proceso) :
  generateID p = Sprintf_d (int_wrap (suma_identidad p)).
Proof. unfold generateID, suma_identidad. by rewrite int_add_5. Qed.

Lemma trim_snoc (s : string) (c : ascii) :
  trim (s +:+ String c EmptyString) = Some s.
Proof.
  unfold trim. rewrite <- len_bytes_of, bytes_of_app. simpl.
  rewrite slice_to_snoc. simpl. unfold string_of, bytes_of.
  by rewrite String.string_of_list_ascii_of_string.
Qed.

(** *** Owner repository *)

Lemma Save_user_ok (u : User.t) (r : InMemoryUserRepo.t) :
  (InMemoryUserRepo.Save u r).2 = None
  ∧ InMemoryUserRepo.users (InMemoryUserRepo.Save u r).1
    = <[User.ID u := u]> (InMemoryUserRepo.users r).
Proof. done. Qed.

Lemma FindByID_user_Some (id : string) (r : InMemoryUserRepo.t)
    (u : User.t) :
  InMemoryUserRepo.users r !! id = Some u →
  InMemoryUserRepo.FindByID id r = (u, None).
Proof. intros H. unfold InMemoryUserRepo.FindByID. by rewrite H. Qed.

Lemma FindByID_user_None (id : string) (r : InMemoryUserRepo.t) :
  InMemoryUserRepo.users r !! id = None →
  InMemoryUserRepo.FindByID id r
  = (User_zero, Some (Errorf "usuario no encontrado")).
Proof. intros H. unfold InMemoryUserRepo.FindByID. by rewrite H. Qed.

Lemma FindByID_user_error (id : string) (r : InMemoryUserRepo.t) :
  (InMemoryUserRepo.FindByID id r).2
    = Some (Errorf "usuario no encontrado")
  ↔ InMemoryUserRepo.users r !! id = None.
Proof. unfold InMemoryUserRepo.FindByID. by_cases. Qed.

Lemma Save_user_FindByID (o : User.t) (r : InMemoryUserRepo.t) :
  InMemoryUserRepo.FindByID (User.ID o)
    (InMemoryUserRepo.Save o r).1 = (o, None).
Proof. apply FindByID_user_Some. simpl. apply lookup_insert_eq. Qed.

Lemma Save_user_frame (e : User.t) (k : string)
    (r : InMemoryUserRepo.t) :
  k ≠ User.ID e →
  InMemoryUserRepo.FindByID k (InMemoryUserRepo.Save e r).1
  = InMemoryUserRepo.FindByID k r.
Proof.
  intros Hk. unfold InMemoryUserRepo.FindByID. simpl.
  by rewrite lookup_insert_ne.
Qed.

Lemma Save_user_keys (u : User.t) (r : InMemoryUserRepo.t) :
  claves_por_ID User.ID (InMemoryUserRepo.users r) →
  claves_por_ID User.ID
    (InMemoryUserRepo.users (InMemoryUserRepo.Save u r).1).
Proof.
  intros Hr k v. simpl. rewrite lookup_insert. case_decide; [|by auto].
  by intros [= <-].
Qed.

(** *** Task repository *)

Lemma Save_task_ok (t : Task.t) (r : InMemoryTaskRepo.t) :
  (InMemoryTaskRepo.Save t r).2 = None
  ∧ InMemoryTaskRepo.tasks (InMemoryTaskRepo.Save t r).1
    = <[Task.ID t := t]> (InMemoryTaskRepo.tasks r).
Proof. done. Qed.

Lemma FindByID_task_Some (id : string) (r : InMemoryTaskRepo.t)
    (t : Task.t) :
  InMemoryTaskRepo.tasks r !! id = Some t →
  InMemoryTaskRepo.FindByID id r = (t, None).
Proof. intros H. unfold InMemoryTaskRepo.FindByID. by rewrite H. Qed.

Lemma FindByID_task_None (id : string) (r : InMemoryTaskRepo.t) :
  InMemoryTaskRepo.tasks r !! id = None →
  InMemoryTaskRepo.FindByID id r
  = (Task_zero, Some (Errorf "tarea no encontrada")).
Proof. intros H. unfold InMemoryTaskRepo.FindByID. by rewrite H. Qed.

Lemma FindByID_task_error (id : string) (r : InMemoryTaskRepo.t) :
  (InMemoryTaskRepo.FindByID id r).2
    = Some (Errorf "tarea no encontrada")
  ↔ InMemoryTaskRepo.tasks r !! id = None.
Proof. unfold InMemoryTaskRepo.FindByID. by_cases. Qed.

Lemma Save_task_frame (e : Task.t) (k : string)
    (r : InMemoryTaskRepo.t) :
  k ≠ Task.ID e →
  InMemoryTaskRepo.FindByID k (InMemoryTaskRepo.Save e r).1
  = InMemoryTaskRepo.FindByID k r.
Proof.
  intros Hk. unfold InMemoryTaskRepo.FindByID. simpl.
  by rewrite lookup_insert_ne.
Qed.

Lemma Update_None (t : Task.t) (r : InMemoryTaskRepo.t) :
  InMemoryTaskRepo.tasks r !! Task.ID t = None →
  InMemoryTaskRepo.Update t r
  = (r, Some (Errorf "tarea no encontrada")).
Proof. intros H. unfold InMemoryTaskRepo.Update. by rewrite H. Qed.

Lemma Update_Some (t t0 : Task.t) (r : InMemoryTaskRepo.t) :
  InMemoryTaskRepo.tasks r !! Task.ID t = Some t0 →
  InMemoryTaskRepo.Update t r
  = (InMemoryTaskRepo.Mk
       (<[Task.ID t := t]> (InMemoryTaskRepo.tasks r)), None).
Proof. intros H. unfold InMemoryTaskRepo.Update. by rewrite H. Qed.

Lemma Update_error (t : Task.t) (r : InMemoryTaskRepo.t) :
  (InMemoryTaskRepo.Update t r).2 = Some (Errorf "tarea no encontrada")
  ↔ InMemoryTaskRepo.tasks r !! Task.ID t = None.
Proof. unfold InMemoryTaskRepo.Update. by_cases. Qed.

Lemma Update_frame (e : Task.t) (k : string)
    (r : InMemoryTaskRepo.t) :
  k ≠ Task.ID e →
  InMemoryTaskRepo.FindByID k (InMemoryTaskRepo.Update e r).1
  = InMemoryTaskRepo.FindByID k r.
Proof.
  intros Hk.
  unfold InMemoryTaskRepo.FindByID, InMemoryTaskRepo.Update.
  destruct (InMemoryTaskRepo.tasks r !! Task.ID e); simpl; [|done].
  by rewrite lookup_insert_ne.
Qed.

Lemma Save_task_keys (t : Task.t) (r : InMemoryTaskRepo.t) :
  claves_por_ID Task.ID (InMemoryTaskRepo.tasks r) →
  claves_por_ID Task.ID
    (InMemoryTaskRepo.tasks (InMemoryTaskRepo.Save t r).1).
Proof.
  intros Hr k v. simpl. rewrite lookup_insert. case_decide; [|by auto].
  by intros [= <-].
Qed.

Lemma Update_keys (t : Task.t) (r : InMemoryTaskRepo.t) :
  claves_por_ID Task.ID (InMemoryTaskRepo.tasks r) →
  claves_por_ID Task.ID
    (InMemoryTaskRepo.tasks (InMemoryTaskRepo.Update t r).1).
Proof.
  intros Hr. unfold InMemoryTaskRepo.Update.
  destruct (InMemoryTaskRepo.tasks r !! Task.ID t); [|done].
  by apply (Save_task_keys t r).
Qed.

(** Under [claves_por_ID] an absent key is an absent identifier. *)
Lemma task_absent (id : string) (r : InMemoryTaskRepo.t) :
  claves_por_ID Task.ID (InMemoryTaskRepo.tasks r) →
  (InMemoryTaskRepo.tasks r !! id = None
   ↔ ∀ k t, InMemoryTaskRepo.tasks r !! k = Some t → Task.ID t ≠ id).
Proof.
  intros Hr. split.
  - intros Hid k t Hk Heq. pose proof (Hr _ _ Hk) as Hkt. congruence.
  - intros Hno. destruct (InMemoryTaskRepo.tasks r !! id) as [t|] eqn:E;
      [|done].
    by destruct (Hno _ _ E (Hr _ _ E)).
Qed.

Lemma ListByUser_in_filter (order : list (string * Task.t))
    (userID : string) :
  InMemoryTaskRepo.ListByUser_in order userID
  = filter (λ t, Task.UserID t = userID) order.*2.
Proof.
  unfold InMemoryTaskRepo.ListByUser_in.
  by rewrite (foldl_guarded_append (λ t, Task.UserID t = userID)).
Qed.

Lemma ListByUser_total (userID : string) (r : InMemoryTaskRepo.t) :
  ∃ res, InMemoryTaskRepo.ListByUser userID r res.
Proof. eexists; eexists; split; [apply recorrido_exists | done]. Qed.

Lemma ListByUser_elem_of (userID : string)
    (r : InMemoryTaskRepo.t) (res : list Task.t) (t : Task.t) :
  InMemoryTaskRepo.ListByUser userID r res →
  t ∈ res ↔ (∃ k, InMemoryTaskRepo.tasks r !! k = Some t)
            ∧ Task.UserID t = userID.
Proof.
  intros (order & Hrec & ->).
  rewrite ListByUser_in_filter, list_elem_of_filter.
  rewrite (recorrido_elem_of _ _ _ Hrec). tauto.
Qed.

Lemma ListByUser_perm (userID : string)
    (r : InMemoryTaskRepo.t) (res : list Task.t) :
  InMemoryTaskRepo.ListByUser userID r res →
  res ≡ₚ filter (λ t, Task.UserID t = userID)
           (map_to_list (InMemoryTaskRepo.tasks r)).*2.
Proof.
  intros (order & Hrec & ->). rewrite ListByUser_in_filter.
  unfold recorrido in Hrec. by rewrite Hrec.
Qed.

(** *** Use cases *)

Lemma CreateUser_mem (p : Proceso) (r : InMemoryUserRepo.t)
    (name : string) :
  CreateUser p r name
  = (InMemoryUserRepo.Mk
       (<[generateID p := User.Mk (generateID p) name ""]>
          (InMemoryUserRepo.users r)),
     (User.Mk (generateID p) name "", None)).
Proof. done. Qed.

Lemma CreateTask_mem (p : Proceso) (r : InMemoryTaskRepo.t)
    (userID title : string) :
  CreateTask p r userID title
  = (InMemoryTaskRepo.Mk
       (<[generateID p := Task.Mk (generateID p) userID title TaskPending]>
          (InMemoryTaskRepo.tasks r)),
     (Task.Mk (generateID p) userID title TaskPending, None)).
Proof. done. Qed.

Lemma CompleteTask_None (r : InMemoryTaskRepo.t) (taskID : string) :
  InMemoryTaskRepo.tasks r !! taskID = None →
  CompleteTask r taskID = (r, Some (Errorf "tarea no encontrada")).
Proof.
  intros H. unfold CompleteTask. simpl.
  by rewrite (FindByID_task_None _ _ H).
Qed.

Lemma CompleteTask_Some (r : InMemoryTaskRepo.t) (task : Task.t) :
  InMemoryTaskRepo.tasks r !! Task.ID task = Some task →
  CompleteTask r (Task.ID task)
  = (InMemoryTaskRepo.Mk
       (<[Task.ID task := Task.with_Status task TaskCompleted]>
          (InMemoryTaskRepo.tasks r)), None).
Proof.
  intros H. unfold CompleteTask. simpl.
  rewrite (FindByID_task_Some _ _ _ H).
  by rewrite (Update_Some (Task.with_Status task TaskCompleted) task r).
Qed.

(** *** Reachable task stores *)

Lemma CompleteTask_keys (r : InMemoryTaskRepo.t) (taskID : string) :
  claves_por_ID Task.ID (InMemoryTaskRepo.tasks r) →
  claves_por_ID Task.ID (InMemoryTaskRepo.tasks (CompleteTask r taskID).1).
Proof.
  intros Hr. unfold CompleteTask. simpl.
  unfold InMemoryTaskRepo.FindByID.
  destruct (InMemoryTaskRepo.tasks r !! taskID); [|done].
  by apply Update_keys.
Qed.

Lemma reachable_keys (p : Proceso) (r : InMemoryTaskRepo.t) :
  reachable p r → claves_por_ID Task.ID (InMemoryTaskRepo.tasks r).
Proof.
  induction 1 as [|r u t _ IH|r id _ IH].
  - intros k v. unfold NewInMemoryTaskRepo. cbn [InMemoryTaskRepo.tasks].
    by rewrite lookup_empty.
  - rewrite CreateTask_mem. generalize (generateID p). intros g.
    intros k v. cbn [fst InMemoryTaskRepo.tasks]. rewrite lookup_insert.
    case_decide; [|by apply IH]. intros [= <-]. by subst k.
  - by apply CompleteTask_keys.
Qed.

(** In a reachable store, a task found under a key is stored under its
    own identifier. *)
Lemma reachable_contains (p : Proceso) (r : InMemoryTaskRepo.t)
    (k : string) (task : Task.t) :
  reachable p r →
  InMemoryTaskRepo.tasks r !! k = Some task →
  InMemoryTaskRepo.tasks r !! Task.ID task = Some task.
Proof.
  intros Hr Hk. by rewrite (reachable_keys p r Hr k task Hk).
Qed.

(** With the constant identifier, a reachable store never holds an entry
    under any other key: it has at most one entry. *)
Lemma reachable_one_key (p : Proceso) (r : InMemoryTaskRepo.t) :
  reachable p r →
  ∀ k t, InMemoryTaskRepo.tasks r !! k = Some t → k = generateID p.
Proof.
  intros Hr. remember (generateID p) as g eqn:Hg.
  induction Hr as [|r u t _ IH|r id Hr IH]; intros k v.
  - unfold NewInMemoryTaskRepo. cbn [InMemoryTaskRepo.tasks].
    by rewrite lookup_empty.
  - rewrite CreateTask_mem, <- Hg. cbn [fst InMemoryTaskRepo.tasks].
    rewrite lookup_insert.
    case_decide; [intros _; congruence | apply IH].
  - unfold CompleteTask.
    cbn [TaskRepository.FindByID TaskRepository.Update InMemoryTaskRepo_impl].
    unfold InMemoryTaskRepo.FindByID.
    destruct (InMemoryTaskRepo.tasks r !! id) as [t0|] eqn:E; [|apply IH].
    unfold InMemoryTaskRepo.Update, Task.with_Status. cbn [Task.ID].
    pose proof (reachable_keys p r Hr _ _ E) as Hid. rewrite Hid, E.
    cbn [fst InMemoryTaskRepo.tasks].
    rewrite lookup_insert. case_decide; [|apply IH].
    intros _. subst k. by apply (IH _ _ E).
Qed.

End EnRepositories.

(** ** The contracts of the two programs *)

Section Contratos.

Import Es En.

(** The two generators are the same function of the process identity. *)
Lemma generateID_generarID (p : Proceso) : generateID p = generarID p.
Proof. unfold generateID, generarID. reflexivity. Qed.

(** C1. During one run, that is for one process identity [p], the
    identifier generator of either program returns one and the same
    string: the decimal rendering of the sum of the pid, uid, euid, ppid
    and egid (the sum being an [int]).  So two entities created in a run
    carry equal identifiers, whatever the stores hold when they are
    created, and the later creation, without any error, replaces the entry
    the earlier one left: the store ends as if only the later one had
    been created, and holds no more entries than after the first. *)
Theorem generarID_constante (p : Proceso)
    (rt rt2 : RepositorioTareaMem.t) (ru ru2 : RepositorioUsuarioMem.t)
    (tr tr2 : InMemoryTaskRepo.t) (ur ur2 : InMemoryUserRepo.t)
    (a1 b1 a2 b2 : string) :
  (int_min ≤ suma_identidad p ≤ int_max)%Z →
  generarID p = Sprintf_d (suma_identidad p)
  ∧ generateID p = Sprintf_d (suma_identidad p)
  ∧ (Tarea.ID (CrearTarea p rt a1 b1).2.1 = generarID p
     ∧ Tarea.ID (CrearTarea p rt2 a2 b2).2.1 = generarID p
     ∧ Usuario.ID (CrearUsuario p ru a1 b1).2.1 = generarID p
     ∧ Usuario.ID (CrearUsuario p ru2 a2 b2).2.1 = generarID p
     ∧ Task.ID (CreateTask p tr a1 b1).2.1 = generateID p
     ∧ Task.ID (CreateTask p tr2 a2 b2).2.1 = generateID p
     ∧ User.ID (CreateUser p ur a1).2.1 = generateID p
     ∧ User.ID (CreateUser p ur2 a2).2.1 = generateID p)
  ∧ (let c1 := CrearTarea p rt a1 b1 in
     let c2 := CrearTarea p c1.1 a2 b2 in
     c1.2.2 = None ∧ c2.2.2 = None
     ∧ c2.1 = (CrearTarea p rt a2 b2).1
     ∧ RepositorioTareaMem.BuscarPorID (Tarea.ID c1.2.1) c2.1 = (c2.2.1, None)
     ∧ dom (RepositorioTareaMem.tareas c2.1)
       = dom (RepositorioTareaMem.tareas c1.1))
  ∧ (let c1 := CrearUsuario p ru a1 b1 in
     let c2 := CrearUsuario p c1.1 a2 b2 in
     c1.2.2 = None ∧ c2.2.2 = None
     ∧ c2.1 = (CrearUsuario p ru a2 b2).1
     ∧ RepositorioUsuarioMem.BuscarPorID (Usuario.ID c1.2.1) c2.1
       = (c2.2.1, None)
     ∧ dom (RepositorioUsuarioMem.usuarios c2.1)
       = dom (RepositorioUsuarioMem.usuarios c1.1))
  ∧ (let c1 := CreateTask p tr a1 b1 in
     let c2 := CreateTask p c1.1 a2 b2 in
     c1.2.2 = None ∧ c2.2.2 = None
     ∧ c2.1 = (CreateTask p tr a2 b2).1
     ∧ InMemoryTaskRepo.FindByID (Task.ID c1.2.1) c2.1 = (c2.2.1, None)
     ∧ dom (InMemoryTaskRepo.tasks c2.1) = dom (InMemoryTaskRepo.tasks c1.1))
  ∧ (let c1 := CreateUser p ur a1 in
     let c2 := CreateUser p c1.1 a2 in
     c1.2.2 = None ∧ c2.2.2 = None
     ∧ c2.1 = (CreateUser p ur a2).1
     ∧ InMemoryUserRepo.FindByID (User.ID c1.2.1) c2.1 = (c2.2.1, None)
     ∧ dom (InMemoryUserRepo.users c2.1) = dom (InMemoryUserRepo.users c1.1)).
Proof.
  intros Hint.
  split; [by rewrite generarID_suma, int_wrap_id|].
  split; [by rewrite generateID_suma, int_wrap_id|].
  split; [done|].
  cbv zeta.
  repeat progress
    (rewrite ?CrearTarea_mem, ?CrearUsuario_mem, ?CreateTask_mem,
       ?CreateUser_mem;
     cbn [fst snd Tarea.ID Usuario.ID Task.ID User.ID
          RepositorioTareaMem.tareas RepositorioUsuarioMem.usuarios
          InMemoryTaskRepo.tasks InMemoryUserRepo.users]).
  rewrite !insert_insert_eq.
  unfold RepositorioTareaMem.BuscarPorID, RepositorioUsuarioMem.BuscarPorID,
    InMemoryTaskRepo.FindByID, InMemoryUserRepo.FindByID.
  cbn [RepositorioTareaMem.tareas RepositorioUsuarioMem.usuarios
       InMemoryTaskRepo.tasks InMemoryUserRepo.users].
  rewrite !lookup_insert_eq, !dom_insert_L.
  done.
Qed.

Lemma generarID_constante_witness :
  (int_min ≤ suma_identidad proceso_ejemplo ≤ int_max)%Z
  ∧ generarID proceso_ejemplo = "11342"
  ∧ generateID proceso_ejemplo = "11342".
Proof.
  assert (int_min ≤ suma_identidad proceso_ejemplo ≤ int_max)%Z as H
    by (vm_compute; split; discriminate).
  split; [exact H|].
  pose proof (generarID_constante proceso_ejemplo
    NuevoRepositorioTareaMem NuevoRepositorioTareaMem
    NuevoRepositorioUsuarioMem NuevoRepositorioUsuarioMem
    NewInMemoryTaskRepo NewInMemoryTaskRepo
    NewInMemoryUserRepo NewInMemoryUserRepo
    "u1" "leche" "u2" "pan" H) as (Hes & Hen & _).
  split; [exact Hes | exact Hen].
Defined.

(** C2. On a store that holds a task under its identifier, completing that
    task succeeds and a lookup of the identifier then returns the same
    task with status completed ([Finalizada]); completing it once more
    succeeds again and returns the very same store.  That second run is
    no shortcut: on every implementation of the task repository, and
    whatever the status of the task found, a completion whose lookup
    succeeds is the call of the update with the task found set to
    completed, so it has whatever effect and result that call has (an
    implementation that records its update calls records one per
    completion). *)
Theorem FinalizarTarea_idempotente
    (r : RepositorioTareaMem.t) (tarea : Tarea.t)
    (r' : InMemoryTaskRepo.t) (task : Task.t) :
  RepositorioTareaMem.tareas r !! Tarea.ID tarea = Some tarea →
  InMemoryTaskRepo.tasks r' !! Task.ID task = Some task →
  (let f1 := FinalizarTarea r (Tarea.ID tarea) in
   let f2 := FinalizarTarea f1.1 (Tarea.ID tarea) in
   let hecha :=
     Tarea.Mk (Tarea.ID tarea) (Tarea.UsuarioID tarea) (Tarea.Titulo tarea)
       Finalizada in
   f1.2 = None
   ∧ RepositorioTareaMem.BuscarPorID (Tarea.ID tarea) f1.1 = (hecha, None)
   ∧ f2.2 = None
   ∧ f2.1 = f1.1
   ∧ RepositorioTareaMem.BuscarPorID (Tarea.ID tarea) f2.1 = (hecha, None)
   ∧ f2 = RepositorioTareaMem.Actualizar hecha f1.1)
  ∧ (let f1 := CompleteTask r' (Task.ID task) in
     let f2 := CompleteTask f1.1 (Task.ID task) in
     let done_ :=
       Task.Mk (Task.ID task) (Task.UserID task) (Task.Title task)
         TaskCompleted in
     f1.2 = None
     ∧ InMemoryTaskRepo.FindByID (Task.ID task) f1.1 = (done_, None)
     ∧ f2.2 = None
     ∧ f2.1 = f1.1
     ∧ InMemoryTaskRepo.FindByID (Task.ID task) f2.1 = (done_, None)
     ∧ f2 = InMemoryTaskRepo.Update done_ f1.1)
  ∧ (∀ (R : Type) (impl : RepositorioTarea.t R) (repo : R)
       (tareaID : string) (hallada : Tarea.t),
       RepositorioTarea.BuscarPorID tareaID repo = (hallada, None) →
       FinalizarTarea repo tareaID
       = RepositorioTarea.Actualizar
           (Tarea.Mk (Tarea.ID hallada) (Tarea.UsuarioID hallada)
              (Tarea.Titulo hallada) Finalizada) repo)
  ∧ (∀ (R : Type) (impl : TaskRepository.t R) (repo : R)
       (taskID : string) (found : Task.t),
       TaskRepository.FindByID taskID repo = (found, None) →
       CompleteTask repo taskID
       = TaskRepository.Update
           (Task.Mk (Task.ID found) (Task.UserID found) (Task.Title found)
              TaskCompleted) repo).
Proof.
  intros Hr Hr'. cbv zeta. split; [|split; [|split]].
  - rewrite (FinalizarTarea_Some r tarea Hr). cbn [fst snd].
    unfold FinalizarTarea, Tarea.con_Estado.
    cbn [RepositorioTarea.BuscarPorID RepositorioTarea.Actualizar
         RepositorioTareaMem_impl].
    unfold RepositorioTareaMem.BuscarPorID, RepositorioTareaMem.Actualizar.
    cbn [RepositorioTareaMem.tareas].
    rewrite lookup_insert_eq.
    cbn [Tarea.ID Tarea.UsuarioID Tarea.Titulo Tarea.Estado fst snd
         RepositorioTareaMem.tareas].
    rewrite lookup_insert_eq, insert_insert_eq.
    cbn [fst snd RepositorioTareaMem.tareas].
    by rewrite lookup_insert_eq.
  - rewrite (CompleteTask_Some r' task Hr'). cbn [fst snd].
    unfold CompleteTask, Task.with_Status.
    cbn [TaskRepository.FindByID TaskRepository.Update InMemoryTaskRepo_impl].
    unfold InMemoryTaskRepo.FindByID, InMemoryTaskRepo.Update.
    cbn [InMemoryTaskRepo.tasks].
    rewrite lookup_insert_eq.
    cbn [Task.ID Task.UserID Task.Title Task.Status fst snd
         InMemoryTaskRepo.tasks].
    rewrite lookup_insert_eq, insert_insert_eq.
    cbn [fst snd InMemoryTaskRepo.tasks].
    by rewrite lookup_insert_eq.
  - intros R impl repo tareaID hallada Hb. unfold FinalizarTarea.
    by rewrite Hb.
  - intros R impl repo taskID found Hb. unfold CompleteTask.
    by rewrite Hb.
Qed.

Lemma FinalizarTarea_idempotente_witness :
  let tarea := Tarea.Mk "11342" "u1" "Buy milk" Pendiente in
  let r := (RepositorioTareaMem.Guardar tarea NuevoRepositorioTareaMem).1 in
  let task := Task.Mk "11342" "u1" "Buy milk" TaskPending in
  let r' := (InMemoryTaskRepo.Save task NewInMemoryTaskRepo).1 in
  RepositorioTareaMem.tareas r !! Tarea.ID tarea = Some tarea
  ∧ InMemoryTaskRepo.tasks r' !! Task.ID task = Some task
  ∧ (FinalizarTarea r "11342").2 = None
  ∧ (FinalizarTarea (FinalizarTarea r "11342").1 "11342").2 = None
  ∧ (CompleteTask r' "11342").2 = None
  ∧ (CompleteTask (CompleteTask r' "11342").1 "11342").2 = None.
Proof.
  intros tarea r task r'.
  assert (RepositorioTareaMem.tareas r !! Tarea.ID tarea = Some tarea) as H
    by (vm_compute; reflexivity).
  assert (InMemoryTaskRepo.tasks r' !! Task.ID task = Some task) as H'
    by (vm_compute; reflexivity).
  pose proof (FinalizarTarea_idempotente r tarea r' task H H')
    as [(Hes & _ & Hes2 & _) [(Hen & _ & Hen2 & _) _]].
  split; [exact H|]. split; [exact H'|].
  split; [exact Hes|]. split; [exact Hes2|].
  split; [exact Hen | exact Hen2].
Defined.

(** C3. The update of the task repository fails, with the error "tarea
    no encontrada", exactly when the store has no entry under the
    identifier of the task passed, and then returns the store as it was;
    when there is such an entry, it succeeds and the store is the old one
    with the whole task passed put under that identifier, so that this
    entry is exactly that task. *)
Theorem Actualizar_contrato (t : Tarea.t) (r : RepositorioTareaMem.t)
    (t' : Task.t) (r' : InMemoryTaskRepo.t) :
  (((RepositorioTareaMem.Actualizar t r).2
      = Some (Errorf "tarea no encontrada")
    ↔ RepositorioTareaMem.tareas r !! Tarea.ID t = None)
   ∧ (RepositorioTareaMem.tareas r !! Tarea.ID t = None →
      RepositorioTareaMem.Actualizar t r
      = (r, Some (Errorf "tarea no encontrada")))
   ∧ (is_Some (RepositorioTareaMem.tareas r !! Tarea.ID t) →
      (RepositorioTareaMem.Actualizar t r).2 = None
      ∧ RepositorioTareaMem.tareas (RepositorioTareaMem.Actualizar t r).1
          !! Tarea.ID t = Some t
      ∧ RepositorioTareaMem.tareas (RepositorioTareaMem.Actualizar t r).1
        = <[Tarea.ID t := t]> (RepositorioTareaMem.tareas r)))
  ∧ (((InMemoryTaskRepo.Update t' r').2
        = Some (Errorf "tarea no encontrada")
      ↔ InMemoryTaskRepo.tasks r' !! Task.ID t' = None)
     ∧ (InMemoryTaskRepo.tasks r' !! Task.ID t' = None →
        InMemoryTaskRepo.Update t' r'
        = (r', Some (Errorf "tarea no encontrada")))
     ∧ (is_Some (InMemoryTaskRepo.tasks r' !! Task.ID t') →
        (InMemoryTaskRepo.Update t' r').2 = None
        ∧ InMemoryTaskRepo.tasks (InMemoryTaskRepo.Update t' r').1
            !! Task.ID t' = Some t'
        ∧ InMemoryTaskRepo.tasks (InMemoryTaskRepo.Update t' r').1
          = <[Task.ID t' := t']> (InMemoryTaskRepo.tasks r'))).
Proof.
  split.
  - split; [apply Actualizar_error|].
    split; [apply Actualizar_None|].
    intros [t0 H0]. rewrite (Actualizar_Some t t0 r H0). cbn [fst snd].
    cbn [RepositorioTareaMem.tareas]. by rewrite lookup_insert_eq.
  - split; [apply Update_error|].
    split; [apply Update_None|].
    intros [t0 H0]. rewrite (Update_Some t' t0 r' H0). cbn [fst snd].
    cbn [InMemoryTaskRepo.tasks]. by rewrite lookup_insert_eq.
Qed.

(** C4. Listing by owner always returns: every order in which the loop
    may visit the map gives a result, and there is such an order for
    every store.  Whatever the order, the members of the result are
    exactly the stored tasks whose owner identifier is the one asked
    for: a task is in the result if and only if it is stored and has
    that owner identifier; each such entry is listed once, the result
    being a rearrangement of the stored tasks filtered by owner. *)
Theorem ListarPorUsuario_exacto
    (usuarioID : string) (r : RepositorioTareaMem.t)
    (r' : InMemoryTaskRepo.t) :
  ((∃ res, RepositorioTareaMem.ListarPorUsuario usuarioID r res)
   ∧ (∃ res, ListarTareas r usuarioID res)
   ∧ (∀ orden, recorrido (RepositorioTareaMem.tareas r) orden →
        RepositorioTareaMem.ListarPorUsuario usuarioID r
          (RepositorioTareaMem.ListarPorUsuario_en orden usuarioID))
   ∧ (∀ res, RepositorioTareaMem.ListarPorUsuario usuarioID r res →
        (∀ t, t ∈ res ↔ (∃ k, RepositorioTareaMem.tareas r !! k = Some t)
                         ∧ Tarea.UsuarioID t = usuarioID)
        ∧ res ≡ₚ filter (λ t, Tarea.UsuarioID t = usuarioID)
                   (map_to_list (RepositorioTareaMem.tareas r)).*2
        ∧ ListarTareas r usuarioID res))
  ∧ ((∃ res, InMemoryTaskRepo.ListByUser usuarioID r' res)
     ∧ (∃ res, ListTasks r' usuarioID res)
     ∧ (∀ order, recorrido (InMemoryTaskRepo.tasks r') order →
          InMemoryTaskRepo.ListByUser usuarioID r'
            (InMemoryTaskRepo.ListByUser_in order usuarioID))
     ∧ (∀ res, InMemoryTaskRepo.ListByUser usuarioID r' res →
          (∀ t, t ∈ res ↔ (∃ k, InMemoryTaskRepo.tasks r' !! k = Some t)
                           ∧ Task.UserID t = usuarioID)
          ∧ res ≡ₚ filter (λ t, Task.UserID t = usuarioID)
                     (map_to_list (InMemoryTaskRepo.tasks r')).*2
          ∧ ListTasks r' usuarioID res)).
Proof.
  split.
  - split; [apply ListarPorUsuario_total|].
    split; [apply ListarPorUsuario_total|].
    split; [intros orden Ho; by exists orden|].
    intros res H.
    split; [intros t; by apply ListarPorUsuario_elem_of|].
    split; [by apply ListarPorUsuario_perm | exact H].
  - split; [apply ListByUser_total|].
    split; [apply ListByUser_total|].
    split; [intros order Ho; by exists order|].
    intros res H.
    split; [intros t; by apply ListByUser_elem_of|].
    split; [by apply ListByUser_perm | exact H].
Qed.

Lemma ListarPorUsuario_exacto_witness :
  let t1 := Tarea.Mk "1" "ana" "Buy milk" Pendiente in
  let t2 := Tarea.Mk "2" "luis" "Pan" Pendiente in
  let r := (RepositorioTareaMem.Guardar t2
              (RepositorioTareaMem.Guardar t1 NuevoRepositorioTareaMem).1).1 in
  let k1 := Task.Mk "1" "ana" "Buy milk" TaskPending in
  let k2 := Task.Mk "2" "luis" "Pan" TaskPending in
  let r' := (InMemoryTaskRepo.Save k2
               (InMemoryTaskRepo.Save k1 NewInMemoryTaskRepo).1).1 in
  recorrido (RepositorioTareaMem.tareas r) [("2", t2); ("1", t1)]
  ∧ recorrido (InMemoryTaskRepo.tasks r') [("1", k1); ("2", k2)]
  ∧ RepositorioTareaMem.ListarPorUsuario "ana" r [t1]
  ∧ InMemoryTaskRepo.ListByUser "ana" r' [k1]
  ∧ (t1 ∈ [t1] ↔ (∃ k, RepositorioTareaMem.tareas r !! k = Some t1)
                  ∧ Tarea.UsuarioID t1 = "ana")
  ∧ (k1 ∈ [k1] ↔ (∃ k, InMemoryTaskRepo.tasks r' !! k = Some k1)
                  ∧ Task.UserID k1 = "ana").
Proof.
  intros t1 t2 r k1 k2 r'.
  assert (recorrido (RepositorioTareaMem.tareas r) [("2", t2); ("1", t1)])
    as Ho by (unfold recorrido; vm_compute; apply perm_swap).
  assert (recorrido (InMemoryTaskRepo.tasks r') [("1", k1); ("2", k2)])
    as Ho' by (unfold recorrido; vm_compute; reflexivity).
  destruct (ListarPorUsuario_exacto "ana" r r')
    as [(_ & _ & Hret & Hex) (_ & _ & Hret' & Hex')].
  pose proof (Hret _ Ho) as H. pose proof (Hret' _ Ho') as H'.
  change (RepositorioTareaMem.ListarPorUsuario_en
            [("2", t2); ("1", t1)] "ana") with [t1] in H.
  change (InMemoryTaskRepo.ListByUser_in
            [("1", k1); ("2", k2)] "ana") with [k1] in H'.
  split; [exact Ho|]. split; [exact Ho'|].
  split; [exact H|]. split; [exact H'|].
  split; [exact (proj1 (Hex _ H) t1) | exact (proj1 (Hex' _ H') k1)].
Defined.

(** C5. In any state of the owner repository, saving an owner never
    fails, and looking up the identifier of that owner right after
    succeeds and returns an owner equal to the one saved. *)
Theorem Guardar_luego_BuscarPorID
    (o : Usuario.t) (r : RepositorioUsuarioMem.t)
    (o' : User.t) (r' : InMemoryUserRepo.t) :
  ((RepositorioUsuarioMem.Guardar o r).2 = None
   ∧ RepositorioUsuarioMem.BuscarPorID (Usuario.ID o)
       (RepositorioUsuarioMem.Guardar o r).1 = (o, None))
  ∧ ((InMemoryUserRepo.Save o' r').2 = None
     ∧ InMemoryUserRepo.FindByID (User.ID o')
         (InMemoryUserRepo.Save o' r').1 = (o', None)).
Proof.
  split; (split; [done|]).
  - apply Guardar_usuario_BuscarPorID.
  - apply Save_user_FindByID.
Qed.

(** C6. A lookup by identifier, in the owner repository as in the task
    repository, fails with the not-found error of its repository
    ("usuario no encontrado", "tarea no encontrada") exactly when the
    store has no entry under that identifier; when it has one the lookup
    succeeds and returns it; on the empty store every lookup fails with
    that error. *)
Theorem BuscarPorID_contrato (id : string)
    (ru : RepositorioUsuarioMem.t) (rt : RepositorioTareaMem.t)
    (ur : InMemoryUserRepo.t) (tr : InMemoryTaskRepo.t) :
  (((RepositorioUsuarioMem.BuscarPorID id ru).2
      = Some (Errorf "usuario no encontrado")
    ↔ RepositorioUsuarioMem.usuarios ru !! id = None)
   ∧ ((RepositorioUsuarioMem.BuscarPorID id ru).2 = None
      ↔ is_Some (RepositorioUsuarioMem.usuarios ru !! id))
   ∧ (∀ u, RepositorioUsuarioMem.usuarios ru !! id = Some u →
           RepositorioUsuarioMem.BuscarPorID id ru = (u, None))
   ∧ (RepositorioUsuarioMem.BuscarPorID id NuevoRepositorioUsuarioMem).2
     = Some (Errorf "usuario no encontrado"))
  ∧ (((RepositorioTareaMem.BuscarPorID id rt).2
        = Some (Errorf "tarea no encontrada")
      ↔ RepositorioTareaMem.tareas rt !! id = None)
     ∧ ((RepositorioTareaMem.BuscarPorID id rt).2 = None
        ↔ is_Some (RepositorioTareaMem.tareas rt !! id))
     ∧ (∀ t, RepositorioTareaMem.tareas rt !! id = Some t →
             RepositorioTareaMem.BuscarPorID id rt = (t, None))
     ∧ (RepositorioTareaMem.BuscarPorID id NuevoRepositorioTareaMem).2
       = Some (Errorf "tarea no encontrada"))
  ∧ (((InMemoryUserRepo.FindByID id ur).2
        = Some (Errorf "usuario no encontrado")
      ↔ InMemoryUserRepo.users ur !! id = None)
     ∧ ((InMemoryUserRepo.FindByID id ur).2 = None
        ↔ is_Some (InMemoryUserRepo.users ur !! id))
     ∧ (∀ u, InMemoryUserRepo.users ur !! id = Some u →
             InMemoryUserRepo.FindByID id ur = (u, None))
     ∧ (InMemoryUserRepo.FindByID id NewInMemoryUserRepo).2
       = Some (Errorf "usuario no encontrado"))
  ∧ (((InMemoryTaskRepo.FindByID id tr).2
        = Some (Errorf "tarea no encontrada")
      ↔ InMemoryTaskRepo.tasks tr !! id = None)
     ∧ ((InMemoryTaskRepo.FindByID id tr).2 = None
        ↔ is_Some (InMemoryTaskRepo.tasks tr !! id))
     ∧ (∀ t, InMemoryTaskRepo.tasks tr !! id = Some t →
             InMemoryTaskRepo.FindByID id tr = (t, None))
     ∧ (InMemoryTaskRepo.FindByID id NewInMemoryTaskRepo).2
       = Some (Errorf "tarea no encontrada")).
Proof.
  repeat apply conj;
    try apply BuscarPorID_usuario_error; try apply BuscarPorID_tarea_error;
    try apply FindByID_user_error; try apply FindByID_task_error;
    try (intros ?; apply BuscarPorID_usuario_Some);
    try (intros ?; apply BuscarPorID_tarea_Some);
    try (intros ?; apply FindByID_user_Some);
    try (intros ?; apply FindByID_task_Some);
    try reflexivity;
    unfold RepositorioUsuarioMem.BuscarPorID, RepositorioTareaMem.BuscarPorID,
      InMemoryUserRepo.FindByID, InMemoryTaskRepo.FindByID;
    match goal with
    | |- context [?m !! ?k] => destruct (m !! k) eqn:?
    end; cbn [snd]; intros; try done; by (eauto || destruct select (is_Some _)).
Qed.


(** C7. For every owner identifier and title, creating a task succeeds;
    the use case is handed the task repository only and consults no owner
    store, so this holds also when the owner store has no such owner
    (the empty owner store has none).  The task returned has the given
    owner identifier, the given title and status pending ([Pendiente]),
    and the task store holds it under its identifier afterwards. *)
Theorem CrearTarea_sin_validar (p : Proceso)
    (usuarioID titulo : string)
    (r : RepositorioTareaMem.t) (r' : InMemoryTaskRepo.t) :
  (let c := CrearTarea p r usuarioID titulo in
   c.2.2 = None
   ∧ Tarea.UsuarioID c.2.1 = usuarioID
   ∧ Tarea.Titulo c.2.1 = titulo
   ∧ Tarea.Estado c.2.1 = Pendiente
   ∧ RepositorioTareaMem.tareas c.1 !! Tarea.ID c.2.1 = Some c.2.1
   ∧ RepositorioTareaMem.BuscarPorID (Tarea.ID c.2.1) c.1 = (c.2.1, None)
   ∧ (RepositorioUsuarioMem.BuscarPorID usuarioID
        NuevoRepositorioUsuarioMem).2
     = Some (Errorf "usuario no encontrado"))
  ∧ (let c := CreateTask p r' usuarioID titulo in
     c.2.2 = None
     ∧ Task.UserID c.2.1 = usuarioID
     ∧ Task.Title c.2.1 = titulo
     ∧ Task.Status c.2.1 = TaskPending
     ∧ InMemoryTaskRepo.tasks c.1 !! Task.ID c.2.1 = Some c.2.1
     ∧ InMemoryTaskRepo.FindByID (Task.ID c.2.1) c.1 = (c.2.1, None)
     ∧ (InMemoryUserRepo.FindByID usuarioID NewInMemoryUserRepo).2
       = Some (Errorf "usuario no encontrado")).
Proof.
  cbv zeta. rewrite CrearTarea_mem, CreateTask_mem.
  cbn [fst snd Tarea.ID Tarea.UsuarioID Tarea.Titulo Tarea.Estado
       Task.ID Task.UserID Task.Title Task.Status
       RepositorioTareaMem.tareas InMemoryTaskRepo.tasks].
  unfold RepositorioTareaMem.BuscarPorID, InMemoryTaskRepo.FindByID.
  cbn [RepositorioTareaMem.tareas InMemoryTaskRepo.tasks].
  rewrite !lookup_insert_eq. done.
Qed.

(** C8, as claimed, fails: for the name "Alice" and the role "admin" the
    owner made by [CrearUsuario] has role tag "admin", while [CreateUser],
    which takes a name only, makes an owner with the empty role tag; the
    two owners and the two stores differ in that tag. *)
Lemma CrearUsuario_CreateUser_difieren :
  let cs := CrearUsuario proceso_ejemplo NuevoRepositorioUsuarioMem
              "Alice" "admin" in
  let ce := CreateUser proceso_ejemplo NewInMemoryUserRepo "Alice" in
  ¬ (User.ID ce.2.1 = Usuario.ID cs.2.1
     ∧ User.Name ce.2.1 = Usuario.Nombre cs.2.1
     ∧ User.Rol ce.2.1 = Usuario.Rol cs.2.1
     ∧ InMemoryUserRepo.users ce.1
       = a_User <$> RepositorioUsuarioMem.usuarios cs.1).
Proof. cbv zeta. intros (_ & _ & H & _). vm_compute in H. discriminate H. Qed.

(** C8, amended. [CrearUsuario] takes a name and a role, [CreateUser] a
    name only.  For the same name under the same process identity, and
    whatever the two stores hold, both succeed and make owners with
    equal identifier and equal display name; the role tag of the
    Spanish-variant owner is the role given and that of the
    English-variant owner is empty.  Stores that agree up to the role
    tag before the two calls (the same identifiers stored, with equal
    identifier and display name under each) agree up to the role tag
    after them; and when the role given is empty, stores that agree
    field by field before the calls agree field by field after them,
    and so do the two owners. *)
Theorem CrearUsuario_CreateUser_sin_rol (p : Proceso)
    (rs : RepositorioUsuarioMem.t) (re : InMemoryUserRepo.t)
    (nombre rol : string) :
  let cs := CrearUsuario p rs nombre rol in
  let ce := CreateUser p re nombre in
  (cs.2.2 = None ∧ ce.2.2 = None
   ∧ User.ID ce.2.1 = Usuario.ID cs.2.1
   ∧ User.Name ce.2.1 = Usuario.Nombre cs.2.1
   ∧ Usuario.Nombre cs.2.1 = nombre
   ∧ Usuario.Rol cs.2.1 = rol
   ∧ User.Rol ce.2.1 = ""
   ∧ ce.2.1 = sin_rol cs.2.1)
  ∧ (olvida_rol <$> InMemoryUserRepo.users re
       = sin_rol <$> RepositorioUsuarioMem.usuarios rs →
     olvida_rol <$> InMemoryUserRepo.users ce.1
       = sin_rol <$> RepositorioUsuarioMem.usuarios cs.1)
  ∧ (InMemoryUserRepo.users re
       = sin_rol <$> RepositorioUsuarioMem.usuarios rs →
     InMemoryUserRepo.users ce.1
       = sin_rol <$> RepositorioUsuarioMem.usuarios cs.1)
  ∧ (rol = "" → ce.2.1 = a_User cs.2.1)
  ∧ (rol = "" →
     InMemoryUserRepo.users re = a_User <$> RepositorioUsuarioMem.usuarios rs →
     InMemoryUserRepo.users ce.1
       = a_User <$> RepositorioUsuarioMem.usuarios cs.1).
Proof.
  cbv zeta. rewrite CrearUsuario_mem, CreateUser_mem.
  cbn [fst snd User.ID User.Name User.Rol Usuario.ID Usuario.Nombre
       Usuario.Rol RepositorioUsuarioMem.usuarios InMemoryUserRepo.users].
  rewrite generateID_generarID.
  generalize (generarID p) as id. intros id.
  rewrite !fmap_insert. unfold sin_rol at 1 2 4, a_User at 1 2, olvida_rol at 2.
  cbn [Usuario.ID Usuario.Nombre Usuario.Rol User.ID User.Name User.Rol].
  split; [by repeat split|].
  split; [by intros ->|]. split; [by intros ->|].
  split; [by intros ->|]. by intros -> ->.
Qed.

Lemma CrearUsuario_CreateUser_sin_rol_witness :
  let rs := (RepositorioUsuarioMem.Guardar (Usuario.Mk "1" "Ana" "admin")
               NuevoRepositorioUsuarioMem).1 in
  let re := (InMemoryUserRepo.Save (User.Mk "1" "Ana" "admin")
               NewInMemoryUserRepo).1 in
  InMemoryUserRepo.users re = a_User <$> RepositorioUsuarioMem.usuarios rs
  ∧ olvida_rol <$> InMemoryUserRepo.users re
    = sin_rol <$> RepositorioUsuarioMem.usuarios rs
  ∧ olvida_rol <$> InMemoryUserRepo.users
                     (CreateUser proceso_ejemplo re "Alice").1
    = sin_rol <$> RepositorioUsuarioMem.usuarios
                    (CrearUsuario proceso_ejemplo rs "Alice" "admin").1
  ∧ InMemoryUserRepo.users (CreateUser proceso_ejemplo re "Alice").1
    = a_User <$> RepositorioUsuarioMem.usuarios
                   (CrearUsuario proceso_ejemplo rs "Alice" "").1.
Proof.
  intros rs re.
  assert (InMemoryUserRepo.users re
          = a_User <$> RepositorioUsuarioMem.usuarios rs) as Ha
    by (vm_compute; reflexivity).
  assert (olvida_rol <$> InMemoryUserRepo.users re
          = sin_rol <$> RepositorioUsuarioMem.usuarios rs) as Hs
    by (vm_compute; reflexivity).
  pose proof (CrearUsuario_CreateUser_sin_rol proceso_ejemplo
    rs re "Alice" "admin") as (_ & Hsin & _).
  pose proof (CrearUsuario_CreateUser_sin_rol proceso_ejemplo
    rs re "Alice" "") as (_ & _ & _ & _ & Hcampo).
  split; [exact Ha|]. split; [exact Hs|].
  split; [exact (Hsin Hs) | exact (Hcampo eq_refl Ha)].
Defined.

(** C9 at its failing inputs.  The helper cuts the last byte off whatever
    it is given, without looking at it, and requires one to be there: on
    the empty string, which is what a read at the end of the input
    yields, it panics; on a last line that lacks its newline it drops
    the last character of the value; only a line that ends in a newline
    comes back with exactly that newline removed. *)
Theorem limpiar_sin_guardas :
  limpiar "" = None ∧ trim "" = None
  ∧ limpiar "abc" = Some "ab" ∧ trim "abc" = Some "ab"
  ∧ (ReadString "").1 = ""
  ∧ (ReadString "abc").1 = "abc"
  ∧ (ReadString ("abc" +:+ LF +:+ "de")).1 = "abc" +:+ LF
  ∧ limpiar ("abc" +:+ LF) = Some "abc" ∧ trim ("abc" +:+ LF) = Some "abc".
Proof. vm_compute. repeat split. Qed.

(** C10. Saving or updating an entity leaves every other identifier as it
    was: for an identifier [k] other than the entity's, a lookup of [k]
    returns the same result, entity or error, after the call as before
    it.  This holds for the save of either repository and for the update
    of the task repository, whether the update succeeds or fails. *)
Theorem Guardar_Actualizar_marco (k : string)
    (u : Usuario.t) (ru : RepositorioUsuarioMem.t)
    (t : Tarea.t) (rt : RepositorioTareaMem.t)
    (u' : User.t) (ur : InMemoryUserRepo.t)
    (t' : Task.t) (tr : InMemoryTaskRepo.t) :
  k ≠ Usuario.ID u → k ≠ Tarea.ID t → k ≠ User.ID u' → k ≠ Task.ID t' →
  RepositorioUsuarioMem.BuscarPorID k (RepositorioUsuarioMem.Guardar u ru).1
    = RepositorioUsuarioMem.BuscarPorID k ru
  ∧ RepositorioTareaMem.BuscarPorID k (RepositorioTareaMem.Guardar t rt).1
    = RepositorioTareaMem.BuscarPorID k rt
  ∧ RepositorioTareaMem.BuscarPorID k (RepositorioTareaMem.Actualizar t rt).1
    = RepositorioTareaMem.BuscarPorID k rt
  ∧ InMemoryUserRepo.FindByID k (InMemoryUserRepo.Save u' ur).1
    = InMemoryUserRepo.FindByID k ur
  ∧ InMemoryTaskRepo.FindByID k (InMemoryTaskRepo.Save t' tr).1
    = InMemoryTaskRepo.FindByID k tr
  ∧ InMemoryTaskRepo.FindByID k (InMemoryTaskRepo.Update t' tr).1
    = InMemoryTaskRepo.FindByID k tr.
Proof.
  intros Hu Ht Hu' Ht'.
  split; [by apply Guardar_usuario_marco|].
  split; [by apply Guardar_tarea_marco|].
  split; [by apply Actualizar_marco|].
  split; [by apply Save_user_frame|].
  split; [by apply Save_task_frame | by apply Update_frame].
Qed.

Lemma Guardar_Actualizar_marco_witness :
  let t0 := Tarea.Mk "7" "ana" "Pan" Pendiente in
  let t := Tarea.Mk "8" "ana" "Buy milk" Finalizada in
  let rt := (RepositorioTareaMem.Guardar t0 NuevoRepositorioTareaMem).1 in
  "7" ≠ Tarea.ID t
  ∧ RepositorioTareaMem.BuscarPorID "7" (RepositorioTareaMem.Guardar t rt).1
    = RepositorioTareaMem.BuscarPorID "7" rt.
Proof.
  intros t0 t rt.
  assert ("7" ≠ "8") as H by (intros E; discriminate E).
  split; [exact H|].
  exact (proj1 (proj2 (Guardar_Actualizar_marco "7"
    (Usuario.Mk "8" "Ana" "admin") NuevoRepositorioUsuarioMem t rt
    (User.Mk "8" "Ana" "") NewInMemoryUserRepo
    (Task.Mk "8" "ana" "Buy milk" TaskCompleted) NewInMemoryTaskRepo
    H H H H))).
Defined.

End Contratos.

(** * Further properties *)

(** ** Maps with a single key, strings and lines *)

Section UnaClave.

Context {V : Type}.

(** A map all of whose keys are [g] lists as nothing or as one entry. *)
Lemma una_clave_lista (m : gmap string V) (g : string) :
  (∀ k v, m !! k = Some v → k = g) →
  map_to_list m = [] ∨ ∃ v, map_to_list m = [(g, v)].
Proof.
  intros Hg.
  pose proof (NoDup_fst_map_to_list m) as Hnd.
  assert (∀ kv, kv ∈ map_to_list m → kv.1 = g) as Hall.
  { intros [k v] Hin. apply elem_of_map_to_list in Hin. by apply (Hg k v). }
  destruct (map_to_list m) as [|[k1 v1] [|[k2 v2] l]]; [by left| |].
  - right. exists v1. f_equal. f_equal.
    apply (Hall (k1, v1)). apply list_elem_of_here.
  - exfalso.
    pose proof (Hall (k1, v1) (list_elem_of_here _ _)) as H1.
    pose proof (Hall (k2, v2)
      (list_elem_of_further _ _ _ (list_elem_of_here _ _))) as H2.
    cbn in Hnd, H1, H2. subst k1 k2.
    apply NoDup_cons in Hnd as [Hnotin _]. apply Hnotin.
    apply list_elem_of_here.
Qed.

Lemma una_clave_size (m : gmap string V) (g : string) :
  (∀ k v, m !! k = Some v → k = g) → size m ≤ 1.
Proof.
  intros Hg. rewrite <- length_map_to_list.
  destruct (una_clave_lista m g Hg) as [-> | [v ->]]; simpl; lia.
Qed.

(** With a single key there is one order of visit only. *)
Lemma una_clave_recorrido (m : gmap string V) (g : string)
    (orden : list (string * V)) :
  (∀ k v, m !! k = Some v → k = g) →
  recorrido m orden → orden = map_to_list m.
Proof.
  unfold recorrido. intros Hg Hp.
  destruct (una_clave_lista m g Hg) as [E | [v E]]; rewrite E in Hp |- *.
  - by apply Permutation_nil_r.
  - by apply Permutation_singleton_r.
Qed.

Lemma una_clave_insert (m : gmap string V) (g : string) (x : V) :
  (∀ k v, m !! k = Some v → k = g) → <[g := x]> m = {[g := x]}.
Proof.
  intros Hg. apply map_eq. intros k.
  destruct (decide (k = g)) as [->|Hne].
  - by rewrite lookup_insert_eq, lookup_singleton_eq.
  - rewrite lookup_insert_ne, lookup_singleton_ne by done.
    destruct (m !! k) as [v|] eqn:E; [|done].
    by destruct (Hne (Hg _ _ E)).
Qed.

End UnaClave.

Section Lineas.

Lemma string_app_cons (x : ascii) (a b : string) :
  String x a +:+ b = String x (a +:+ b).
Proof. reflexivity. Qed.

Lemma string_app_assoc (a b c : string) : (a +:+ b) +:+ c = a +:+ b +:+ c.
Proof.
  induction a as [|x a IH]; [done|]. by rewrite !string_app_cons, IH.
Qed.

Lemma string_app_nil_r (a : string) : a +:+ "" = a.
Proof. induction a as [|x a IH]; [done|]. by rewrite string_app_cons, IH. Qed.

Lemma string_length_app (a b : string) :
  String.length (a +:+ b) = String.length a + String.length b.
Proof.
  induction a as [|x a IH]; [done|]. rewrite string_app_cons. simpl.
  by rewrite IH.
Qed.

(** Nothing is lost by [ReadString]: the line and what is left make up
    the input. *)
Lemma ReadString_app (e : string) :
  e = (ReadString e).1 +:+ (ReadString e).2.
Proof.
  induction e as [|c e IH]; simpl; [done|].
  destruct (Ascii.eqb c "010"); simpl; [done|].
  destruct (ReadString e) as [l q]. simpl in *.
  by rewrite string_app_cons, <- IH.
Qed.

Lemma ReadString_length (e : string) :
  String.length e
  = String.length (ReadString e).1 + String.length (ReadString e).2.
Proof. by rewrite (ReadString_app e) at 1; rewrite string_length_app. Qed.

Lemma ReadString_queda_le (e : string) :
  String.length (ReadString e).2 ≤ String.length e.
Proof. rewrite (ReadString_length e). lia. Qed.

Lemma ReadString_primer_byte (e : string) (c : ascii) :
  Consola.primer_byte (ReadString e).1 = Some c →
  Consola.primer_byte e = Some c
  ∧ String.length (ReadString e).2 < String.length e.
Proof.
  intros Hc. split.
  - destruct e as [|x e]; simpl in *; [done|].
    destruct (Ascii.eqb x "010"); simpl in *; [done|].
    by destruct (ReadString e).
  - rewrite (ReadString_length e).
    destruct (ReadString e).1; simpl in *; [done | lia].
Qed.


Lemma ReadString_primer_byte_inv (e : string) (c : ascii) :
  Consola.primer_byte e = Some c →
  Consola.primer_byte (ReadString e).1 = Some c.
Proof.
  destruct e as [|x e]; simpl; [done|]. intros [= ->].
  destruct (Ascii.eqb c "010"); [done|]. by destruct (ReadString e).
Qed.


(** A complete line: the text up to the first newline, newline included. *)
Lemma ReadString_linea (texto resto : string) :
  "010"%char ∉ bytes_of texto →
  ReadString (texto +:+ LF +:+ resto) = (texto +:+ LF, resto).
Proof.
  induction texto as [|c texto IH]; intros Hno; [done|].
  rewrite !string_app_cons. cbn [ReadString].
  destruct (Ascii.eqb_spec c "010") as [->|_].
  - exfalso. apply Hno. apply list_elem_of_here.
  - rewrite IH; [done|]. intros Hin. apply Hno.
    by apply list_elem_of_further.
Qed.


End Lineas.

(** ** The Spanish variant: listing, completing, composing, reaching *)

Section EsMas.

Import Es.

Lemma Listar_en_valores (orden : list (string * Usuario.t)) :
  RepositorioUsuarioMem.Listar_en orden = orden.*2.
Proof. unfold RepositorioUsuarioMem.Listar_en. by rewrite foldl_append. Qed.

Lemma Listar_total (r : RepositorioUsuarioMem.t) :
  ∃ res, RepositorioUsuarioMem.Listar r res.
Proof. eexists; eexists; split; [apply recorrido_exists | done]. Qed.

Lemma Listar_perm (r : RepositorioUsuarioMem.t) (res : list Usuario.t) :
  RepositorioUsuarioMem.Listar r res →
  res ≡ₚ (map_to_list (RepositorioUsuarioMem.usuarios r)).*2.
Proof.
  intros (orden & Hrec & ->). rewrite Listar_en_valores.
  unfold recorrido in Hrec. by rewrite Hrec.
Qed.

Lemma Listar_length (r : RepositorioUsuarioMem.t) (res : list Usuario.t) :
  RepositorioUsuarioMem.Listar r res →
  length res = size (RepositorioUsuarioMem.usuarios r).
Proof.
  intros H. rewrite (Listar_perm r res H), length_fmap.
  apply length_map_to_list.
Qed.

Lemma Listar_elem_of (r : RepositorioUsuarioMem.t) (res : list Usuario.t)
    (u : Usuario.t) :
  RepositorioUsuarioMem.Listar r res →
  u ∈ res ↔ ∃ k, RepositorioUsuarioMem.usuarios r !! k = Some u.
Proof.
  intros (orden & Hrec & ->). rewrite Listar_en_valores.
  by apply recorrido_elem_of.
Qed.

(** *** Completing a task *)

Lemma FinalizarTarea_casos (r : RepositorioTareaMem.t) (tareaID : string) :
  claves_por_ID Tarea.ID (RepositorioTareaMem.tareas r) →
  match RepositorioTareaMem.tareas r !! tareaID with
  | None => FinalizarTarea r tareaID = (r, Some (Errorf "tarea no encontrada"))
  | Some t =>
      Tarea.ID t = tareaID
      ∧ FinalizarTarea r tareaID
        = (RepositorioTareaMem.Mk
             (<[tareaID := Tarea.con_Estado t Finalizada]>
                (RepositorioTareaMem.tareas r)), None)
  end.
Proof.
  intros Hr.
  destruct (RepositorioTareaMem.tareas r !! tareaID) as [t|] eqn:E.
  - pose proof (Hr _ _ E) as Hid. split; [done|]. subst tareaID.
    by apply FinalizarTarea_Some.
  - by apply FinalizarTarea_None.
Qed.

Lemma FinalizarTarea_error_iff (r : RepositorioTareaMem.t) (tareaID : string) :
  claves_por_ID Tarea.ID (RepositorioTareaMem.tareas r) →
  (FinalizarTarea r tareaID).2 = Some (Errorf "tarea no encontrada")
  ↔ RepositorioTareaMem.tareas r !! tareaID = None.
Proof.
  intros Hr. pose proof (FinalizarTarea_casos r tareaID Hr) as Hc.
  destruct (RepositorioTareaMem.tareas r !! tareaID) as [t|].
  - destruct Hc as [_ ->]. by split.
  - rewrite Hc. by split.
Qed.

(** A failed completion, whatever the store, fails with the not-found
    error and leaves the store as it was. *)
Lemma FinalizarTarea_falla (r : RepositorioTareaMem.t) (tareaID : string)
    (e : error) :
  (FinalizarTarea r tareaID).2 = Some e →
  e = Errorf "tarea no encontrada" ∧ (FinalizarTarea r tareaID).1 = r.
Proof.
  unfold FinalizarTarea.
  cbn [RepositorioTarea.BuscarPorID RepositorioTarea.Actualizar
       RepositorioTareaMem_impl].
  unfold RepositorioTareaMem.BuscarPorID, RepositorioTareaMem.Actualizar.
  destruct (RepositorioTareaMem.tareas r !! tareaID) as [t|]; cbn [fst snd].
  - destruct (RepositorioTareaMem.tareas r
                !! Tarea.ID (Tarea.con_Estado t Finalizada));
      cbn [fst snd]; [done|]. by intros [= <-].
  - by intros [= <-].
Qed.

Lemma FinalizarTarea_conserva (r : RepositorioTareaMem.t) (tareaID : string)
    (k : string) (t : Tarea.t) :
  claves_por_ID Tarea.ID (RepositorioTareaMem.tareas r) →
  RepositorioTareaMem.tareas r !! k = Some t →
  ∃ t', RepositorioTareaMem.tareas (FinalizarTarea r tareaID).1 !! k = Some t'
        ∧ Tarea.ID t' = Tarea.ID t
        ∧ Tarea.UsuarioID t' = Tarea.UsuarioID t
        ∧ Tarea.Titulo t' = Tarea.Titulo t
        ∧ (k ≠ tareaID → t' = t)
        ∧ (k = tareaID → Tarea.Estado t' = Finalizada)
        ∧ (Tarea.Estado t = Finalizada → t' = t).
Proof.
  intros Hr Hk. pose proof (FinalizarTarea_casos r tareaID Hr) as Hc.
  destruct (RepositorioTareaMem.tareas r !! tareaID) as [t0|] eqn:E.
  - destruct Hc as [Hid ->]. cbn [fst RepositorioTareaMem.tareas].
    destruct (decide (k = tareaID)) as [->|Hne].
    + rewrite lookup_insert_eq. assert (t0 = t) as -> by congruence.
      exists (Tarea.con_Estado t Finalizada).
      repeat split; try done.
      intros Hfin. destruct t as [i u ti e]. cbn in Hfin. by subst e.
    + rewrite lookup_insert_ne by done. exists t. by repeat split.
  - rewrite Hc. cbn [fst]. exists t. repeat split; try done.
    intros ->. congruence.
Qed.

Lemma FinalizarTarea_dom (r : RepositorioTareaMem.t) (tareaID : string) :
  dom (RepositorioTareaMem.tareas (FinalizarTarea r tareaID).1)
  = dom (RepositorioTareaMem.tareas r).
Proof.
  unfold FinalizarTarea.
  cbn [RepositorioTarea.BuscarPorID RepositorioTarea.Actualizar
       RepositorioTareaMem_impl].
  unfold RepositorioTareaMem.BuscarPorID, RepositorioTareaMem.Actualizar.
  destruct (RepositorioTareaMem.tareas r !! tareaID) as [t|]; [|done].
  destruct (RepositorioTareaMem.tareas r
              !! Tarea.ID (Tarea.con_Estado t Finalizada)) eqn:E; [|done].
  cbn [fst RepositorioTareaMem.tareas]. by apply dom_insert_lookup_L.
Qed.

(** *** Key sets and sizes *)

Lemma Guardar_tarea_dom (t : Tarea.t) (r : RepositorioTareaMem.t) :
  dom (RepositorioTareaMem.tareas (RepositorioTareaMem.Guardar t r).1)
  = {[Tarea.ID t]} ∪ dom (RepositorioTareaMem.tareas r).
Proof. apply dom_insert_L. Qed.

Lemma Guardar_usuario_dom (u : Usuario.t) (r : RepositorioUsuarioMem.t) :
  dom (RepositorioUsuarioMem.usuarios (RepositorioUsuarioMem.Guardar u r).1)
  = {[Usuario.ID u]} ∪ dom (RepositorioUsuarioMem.usuarios r).
Proof. apply dom_insert_L. Qed.

Lemma Actualizar_dom (t : Tarea.t) (r : RepositorioTareaMem.t) :
  dom (RepositorioTareaMem.tareas (RepositorioTareaMem.Actualizar t r).1)
  = dom (RepositorioTareaMem.tareas r).
Proof.
  unfold RepositorioTareaMem.Actualizar.
  destruct (RepositorioTareaMem.tareas r !! Tarea.ID t) eqn:E; [|done].
  cbn [fst RepositorioTareaMem.tareas]. by apply dom_insert_lookup_L.
Qed.

Lemma Guardar_tarea_size (t : Tarea.t) (r : RepositorioTareaMem.t) :
  size (RepositorioTareaMem.tareas (RepositorioTareaMem.Guardar t r).1)
  = match RepositorioTareaMem.tareas r !! Tarea.ID t with
    | Some _ => size (RepositorioTareaMem.tareas r)
    | None => S (size (RepositorioTareaMem.tareas r))
    end.
Proof.
  cbn [fst RepositorioTareaMem.Guardar RepositorioTareaMem.tareas].
  rewrite map_size_insert.
  by destruct (RepositorioTareaMem.tareas r !! Tarea.ID t).
Qed.

Lemma Guardar_usuario_size (u : Usuario.t) (r : RepositorioUsuarioMem.t) :
  size (RepositorioUsuarioMem.usuarios (RepositorioUsuarioMem.Guardar u r).1)
  = match RepositorioUsuarioMem.usuarios r !! Usuario.ID u with
    | Some _ => size (RepositorioUsuarioMem.usuarios r)
    | None => S (size (RepositorioUsuarioMem.usuarios r))
    end.
Proof.
  cbn [fst RepositorioUsuarioMem.Guardar RepositorioUsuarioMem.usuarios].
  rewrite map_size_insert.
  by destruct (RepositorioUsuarioMem.usuarios r !! Usuario.ID u).
Qed.

Lemma Actualizar_size (t : Tarea.t) (r : RepositorioTareaMem.t) :
  size (RepositorioTareaMem.tareas (RepositorioTareaMem.Actualizar t r).1)
  = size (RepositorioTareaMem.tareas r).
Proof.
  unfold RepositorioTareaMem.Actualizar.
  destruct (RepositorioTareaMem.tareas r !! Tarea.ID t) eqn:E; [|done].
  cbn [fst RepositorioTareaMem.tareas]. by rewrite map_size_insert, E.
Qed.

(** *** Composition *)

Lemma Guardar_Guardar (t t' : Tarea.t) (r : RepositorioTareaMem.t) :
  Tarea.ID t' = Tarea.ID t →
  RepositorioTareaMem.Guardar t' (RepositorioTareaMem.Guardar t r).1
  = RepositorioTareaMem.Guardar t' r.
Proof.
  intros Hid. unfold RepositorioTareaMem.Guardar.
  cbn [fst RepositorioTareaMem.tareas]. by rewrite Hid, insert_insert_eq.
Qed.

Lemma Guardar_luego_Actualizar (t t' : Tarea.t) (r : RepositorioTareaMem.t) :
  Tarea.ID t' = Tarea.ID t →
  RepositorioTareaMem.Actualizar t' (RepositorioTareaMem.Guardar t r).1
  = RepositorioTareaMem.Guardar t' r.
Proof.
  intros Hid.
  unfold RepositorioTareaMem.Actualizar, RepositorioTareaMem.Guardar.
  cbn [fst RepositorioTareaMem.tareas].
  by rewrite Hid, lookup_insert_eq, insert_insert_eq.
Qed.

Lemma Actualizar_es_Guardar (t : Tarea.t) (r : RepositorioTareaMem.t) :
  is_Some (RepositorioTareaMem.tareas r !! Tarea.ID t) →
  RepositorioTareaMem.Actualizar t r = RepositorioTareaMem.Guardar t r.
Proof.
  intros [t0 E]. unfold RepositorioTareaMem.Actualizar. by rewrite E.
Qed.

Lemma Guardar_conmuta (t1 t2 : Tarea.t) (r : RepositorioTareaMem.t) :
  Tarea.ID t1 ≠ Tarea.ID t2 →
  (RepositorioTareaMem.Guardar t1 (RepositorioTareaMem.Guardar t2 r).1).1
  = (RepositorioTareaMem.Guardar t2 (RepositorioTareaMem.Guardar t1 r).1).1.
Proof.
  intros Hne. unfold RepositorioTareaMem.Guardar.
  cbn [fst RepositorioTareaMem.tareas]. by rewrite insert_insert_ne.
Qed.

(** *** Reachable stores *)

Lemma alcanzable_usuarios_una_clave (p : Proceso)
    (r : RepositorioUsuarioMem.t) :
  alcanzable_usuarios p r →
  ∀ k u, RepositorioUsuarioMem.usuarios r !! k = Some u →
         k = generarID p ∧ Usuario.ID u = k.
Proof.
  intros Hr. remember (generarID p) as g eqn:Hg.
  induction Hr as [|r n ro _ IH]; intros k v.
  - unfold NuevoRepositorioUsuarioMem.
    cbn [RepositorioUsuarioMem.usuarios]. by rewrite lookup_empty.
  - rewrite CrearUsuario_mem, <- Hg.
    cbn [fst RepositorioUsuarioMem.usuarios]. rewrite lookup_insert.
    case_decide; [|apply IH]. intros [= <-]. by subst k.
Qed.

Lemma alcanzable_size (p : Proceso) (r : RepositorioTareaMem.t) :
  alcanzable p r → size (RepositorioTareaMem.tareas r) ≤ 1.
Proof.
  intros Hr. apply (una_clave_size _ (generarID p)).
  by apply alcanzable_una_clave.
Qed.

Lemma alcanzable_usuarios_size (p : Proceso) (r : RepositorioUsuarioMem.t) :
  alcanzable_usuarios p r → size (RepositorioUsuarioMem.usuarios r) ≤ 1.
Proof.
  intros Hr. apply (una_clave_size _ (generarID p)).
  intros k u Hk. by apply (alcanzable_usuarios_una_clave p r Hr k u).
Qed.

Lemma alcanzable_recorrido (p : Proceso) (r : RepositorioTareaMem.t)
    (orden : list (string * Tarea.t)) :
  alcanzable p r →
  recorrido (RepositorioTareaMem.tareas r) orden →
  orden = map_to_list (RepositorioTareaMem.tareas r).
Proof.
  intros Hr. apply (una_clave_recorrido _ (generarID p)).
  by apply alcanzable_una_clave.
Qed.

Lemma alcanzable_lista_corta (p : Proceso) (r : RepositorioTareaMem.t)
    (usuarioID : string) (res : list Tarea.t) :
  alcanzable p r →
  RepositorioTareaMem.ListarPorUsuario usuarioID r res →
  length res ≤ 1.
Proof.
  intros Hr H. rewrite (ListarPorUsuario_perm _ _ _ H).
  etrans; [apply length_filter|]. rewrite length_fmap, length_map_to_list.
  by apply (alcanzable_size p).
Qed.

(** After a creation the reachable store is the created task alone. *)
Lemma alcanzable_CrearTarea (p : Proceso) (r : RepositorioTareaMem.t)
    (usuarioID titulo : string) :
  alcanzable p r →
  RepositorioTareaMem.tareas (CrearTarea p r usuarioID titulo).1
  = {[generarID p := Tarea.Mk (generarID p) usuarioID titulo Pendiente]}.
Proof.
  intros Hr. rewrite CrearTarea_mem. cbn [fst RepositorioTareaMem.tareas].
  apply una_clave_insert. by apply alcanzable_una_clave.
Qed.

Lemma ListarPorUsuario_singleton (g usuarioID : string) (t : Tarea.t)
    (r : RepositorioTareaMem.t) (res : list Tarea.t) :
  RepositorioTareaMem.tareas r = {[g := t]} →
  RepositorioTareaMem.ListarPorUsuario usuarioID r res →
  res = if decide (Tarea.UsuarioID t = usuarioID) then [t] else [].
Proof.
  intros Hm H. pose proof (ListarPorUsuario_perm _ _ _ H) as Hp.
  rewrite Hm, map_to_list_singleton in Hp.
  change ([(g, t)].*2) with [t] in Hp.
  rewrite filter_cons, filter_nil in Hp.
  destruct (decide (Tarea.UsuarioID t = usuarioID)).
  - by apply Permutation_singleton_r.
  - by apply Permutation_nil_r.
Qed.

Lemma ListarPorUsuario_singleton_resultado (g usuarioID : string)
    (t : Tarea.t) (r : RepositorioTareaMem.t) :
  RepositorioTareaMem.tareas r = {[g := t]} →
  RepositorioTareaMem.ListarPorUsuario usuarioID r
    (if decide (Tarea.UsuarioID t = usuarioID) then [t] else []).
Proof.
  intros Hm. exists (map_to_list (RepositorioTareaMem.tareas r)).
  split; [apply recorrido_exists|].
  rewrite ListarPorUsuario_en_filter, Hm, map_to_list_singleton.
  change ([(g, t)].*2) with [t]. rewrite filter_cons, filter_nil.
  by destruct (decide (Tarea.UsuarioID t = usuarioID)).
Qed.

End EsMas.

(** ** The English variant: listing, completing, composing, reaching *)

Section EnMore.

Import En.

Lemma List_in_values (orden : list (string * User.t)) :
  InMemoryUserRepo.List_in orden = orden.*2.
Proof. unfold InMemoryUserRepo.List_in. by rewrite foldl_append. Qed.

Lemma List_total (r : InMemoryUserRepo.t) :
  ∃ res, InMemoryUserRepo.List r res.
Proof. eexists; eexists; split; [apply recorrido_exists | done]. Qed.

Lemma List_perm (r : InMemoryUserRepo.t) (res : list User.t) :
  InMemoryUserRepo.List r res →
  res ≡ₚ (map_to_list (InMemoryUserRepo.users r)).*2.
Proof.
  intros (orden & Hrec & ->). rewrite List_in_values.
  unfold recorrido in Hrec. by rewrite Hrec.
Qed.

Lemma List_length (r : InMemoryUserRepo.t) (res : list User.t) :
  InMemoryUserRepo.List r res →
  length res = size (InMemoryUserRepo.users r).
Proof.
  intros H. rewrite (List_perm r res H), length_fmap.
  apply length_map_to_list.
Qed.

Lemma List_elem_of (r : InMemoryUserRepo.t) (res : list User.t)
    (u : User.t) :
  InMemoryUserRepo.List r res →
  u ∈ res ↔ ∃ k, InMemoryUserRepo.users r !! k = Some u.
Proof.
  intros (orden & Hrec & ->). rewrite List_in_values.
  by apply recorrido_elem_of.
Qed.

(** *** Completing a task *)

Lemma CompleteTask_cases (r : InMemoryTaskRepo.t) (taskID : string) :
  claves_por_ID Task.ID (InMemoryTaskRepo.tasks r) →
  match InMemoryTaskRepo.tasks r !! taskID with
  | None => CompleteTask r taskID = (r, Some (Errorf "tarea no encontrada"))
  | Some t =>
      Task.ID t = taskID
      ∧ CompleteTask r taskID
        = (InMemoryTaskRepo.Mk
             (<[taskID := Task.with_Status t TaskCompleted]>
                (InMemoryTaskRepo.tasks r)), None)
  end.
Proof.
  intros Hr.
  destruct (InMemoryTaskRepo.tasks r !! taskID) as [t|] eqn:E.
  - pose proof (Hr _ _ E) as Hid. split; [done|]. subst taskID.
    by apply CompleteTask_Some.
  - by apply CompleteTask_None.
Qed.

Lemma CompleteTask_error_iff (r : InMemoryTaskRepo.t) (taskID : string) :
  claves_por_ID Task.ID (InMemoryTaskRepo.tasks r) →
  (CompleteTask r taskID).2 = Some (Errorf "tarea no encontrada")
  ↔ InMemoryTaskRepo.tasks r !! taskID = None.
Proof.
  intros Hr. pose proof (CompleteTask_cases r taskID Hr) as Hc.
  destruct (InMemoryTaskRepo.tasks r !! taskID) as [t|].
  - destruct Hc as [_ ->]. by split.
  - rewrite Hc. by split.
Qed.

(** A failed completion, whatever the store, fails with the not-found
    error and leaves the store as it was. *)
Lemma CompleteTask_fails (r : InMemoryTaskRepo.t) (taskID : string)
    (e : error) :
  (CompleteTask r taskID).2 = Some e →
  e = Errorf "tarea no encontrada" ∧ (CompleteTask r taskID).1 = r.
Proof.
  unfold CompleteTask.
  cbn [TaskRepository.FindByID TaskRepository.Update
       InMemoryTaskRepo_impl].
  unfold InMemoryTaskRepo.FindByID, InMemoryTaskRepo.Update.
  destruct (InMemoryTaskRepo.tasks r !! taskID) as [t|]; cbn [fst snd].
  - destruct (InMemoryTaskRepo.tasks r
                !! Task.ID (Task.with_Status t TaskCompleted));
      cbn [fst snd]; [done|]. by intros [= <-].
  - by intros [= <-].
Qed.

Lemma CompleteTask_keeps (r : InMemoryTaskRepo.t) (taskID : string)
    (k : string) (t : Task.t) :
  claves_por_ID Task.ID (InMemoryTaskRepo.tasks r) →
  InMemoryTaskRepo.tasks r !! k = Some t →
  ∃ t', InMemoryTaskRepo.tasks (CompleteTask r taskID).1 !! k = Some t'
        ∧ Task.ID t' = Task.ID t
        ∧ Task.UserID t' = Task.UserID t
        ∧ Task.Title t' = Task.Title t
        ∧ (k ≠ taskID → t' = t)
        ∧ (k = taskID → Task.Status t' = TaskCompleted)
        ∧ (Task.Status t = TaskCompleted → t' = t).
Proof.
  intros Hr Hk. pose proof (CompleteTask_cases r taskID Hr) as Hc.
  destruct (InMemoryTaskRepo.tasks r !! taskID) as [t0|] eqn:E.
  - destruct Hc as [Hid ->]. cbn [fst InMemoryTaskRepo.tasks].
    destruct (decide (k = taskID)) as [->|Hne].
    + rewrite lookup_insert_eq. assert (t0 = t) as -> by congruence.
      exists (Task.with_Status t TaskCompleted).
      repeat split; try done.
      intros Hfin. destruct t as [i u ti e]. cbn in Hfin. by subst e.
    + rewrite lookup_insert_ne by done. exists t. by repeat split.
  - rewrite Hc. cbn [fst]. exists t. repeat split; try done.
    intros ->. congruence.
Qed.

Lemma CompleteTask_dom (r : InMemoryTaskRepo.t) (taskID : string) :
  dom (InMemoryTaskRepo.tasks (CompleteTask r taskID).1)
  = dom (InMemoryTaskRepo.tasks r).
Proof.
  unfold CompleteTask.
  cbn [TaskRepository.FindByID TaskRepository.Update
       InMemoryTaskRepo_impl].
  unfold InMemoryTaskRepo.FindByID, InMemoryTaskRepo.Update.
  destruct (InMemoryTaskRepo.tasks r !! taskID) as [t|]; [|done].
  destruct (InMemoryTaskRepo.tasks r
              !! Task.ID (Task.with_Status t TaskCompleted)) eqn:E; [|done].
  cbn [fst InMemoryTaskRepo.tasks]. by apply dom_insert_lookup_L.
Qed.

(** *** Key sets and sizes *)

Lemma Save_task_dom (t : Task.t) (r : InMemoryTaskRepo.t) :
  dom (InMemoryTaskRepo.tasks (InMemoryTaskRepo.Save t r).1)
  = {[Task.ID t]} ∪ dom (InMemoryTaskRepo.tasks r).
Proof. apply dom_insert_L. Qed.

Lemma Save_user_dom (u : User.t) (r : InMemoryUserRepo.t) :
  dom (InMemoryUserRepo.users (InMemoryUserRepo.Save u r).1)
  = {[User.ID u]} ∪ dom (InMemoryUserRepo.users r).
Proof. apply dom_insert_L. Qed.

Lemma Update_dom (t : Task.t) (r : InMemoryTaskRepo.t) :
  dom (InMemoryTaskRepo.tasks (InMemoryTaskRepo.Update t r).1)
  = dom (InMemoryTaskRepo.tasks r).
Proof.
  unfold InMemoryTaskRepo.Update.
  destruct (InMemoryTaskRepo.tasks r !! Task.ID t) eqn:E; [|done].
  cbn [fst InMemoryTaskRepo.tasks]. by apply dom_insert_lookup_L.
Qed.

Lemma Save_task_size (t : Task.t) (r : InMemoryTaskRepo.t) :
  size (InMemoryTaskRepo.tasks (InMemoryTaskRepo.Save t r).1)
  = match InMemoryTaskRepo.tasks r !! Task.ID t with
    | Some _ => size (InMemoryTaskRepo.tasks r)
    | None => S (size (InMemoryTaskRepo.tasks r))
    end.
Proof.
  cbn [fst InMemoryTaskRepo.Save InMemoryTaskRepo.tasks].
  rewrite map_size_insert.
  by destruct (InMemoryTaskRepo.tasks r !! Task.ID t).
Qed.

Lemma Save_user_size (u : User.t) (r : InMemoryUserRepo.t) :
  size (InMemoryUserRepo.users (InMemoryUserRepo.Save u r).1)
  = match InMemoryUserRepo.users r !! User.ID u with
    | Some _ => size (InMemoryUserRepo.users r)
    | None => S (size (InMemoryUserRepo.users r))
    end.
Proof.
  cbn [fst InMemoryUserRepo.Save InMemoryUserRepo.users].
  rewrite map_size_insert.
  by destruct (InMemoryUserRepo.users r !! User.ID u).
Qed.

Lemma Update_size (t : Task.t) (r : InMemoryTaskRepo.t) :
  size (InMemoryTaskRepo.tasks (InMemoryTaskRepo.Update t r).1)
  = size (InMemoryTaskRepo.tasks r).
Proof.
  unfold InMemoryTaskRepo.Update.
  destruct (InMemoryTaskRepo.tasks r !! Task.ID t) eqn:E; [|done].
  cbn [fst InMemoryTaskRepo.tasks]. by rewrite map_size_insert, E.
Qed.

(** *** Composition *)

Lemma Save_Save (t t' : Task.t) (r : InMemoryTaskRepo.t) :
  Task.ID t' = Task.ID t →
  InMemoryTaskRepo.Save t' (InMemoryTaskRepo.Save t r).1
  = InMemoryTaskRepo.Save t' r.
Proof.
  intros Hid. unfold InMemoryTaskRepo.Save.
  cbn [fst InMemoryTaskRepo.tasks]. by rewrite Hid, insert_insert_eq.
Qed.

Lemma Save_then_Update (t t' : Task.t) (r : InMemoryTaskRepo.t) :
  Task.ID t' = Task.ID t →
  InMemoryTaskRepo.Update t' (InMemoryTaskRepo.Save t r).1
  = InMemoryTaskRepo.Save t' r.
Proof.
  intros Hid.
  unfold InMemoryTaskRepo.Update, InMemoryTaskRepo.Save.
  cbn [fst InMemoryTaskRepo.tasks].
  by rewrite Hid, lookup_insert_eq, insert_insert_eq.
Qed.

Lemma Update_is_Save (t : Task.t) (r : InMemoryTaskRepo.t) :
  is_Some (InMemoryTaskRepo.tasks r !! Task.ID t) →
  InMemoryTaskRepo.Update t r = InMemoryTaskRepo.Save t r.
Proof.
  intros [t0 E]. unfold InMemoryTaskRepo.Update. by rewrite E.
Qed.

Lemma Save_commute (t1 t2 : Task.t) (r : InMemoryTaskRepo.t) :
  Task.ID t1 ≠ Task.ID t2 →
  (InMemoryTaskRepo.Save t1 (InMemoryTaskRepo.Save t2 r).1).1
  = (InMemoryTaskRepo.Save t2 (InMemoryTaskRepo.Save t1 r).1).1.
Proof.
  intros Hne. unfold InMemoryTaskRepo.Save.
  cbn [fst InMemoryTaskRepo.tasks]. by rewrite insert_insert_ne.
Qed.

(** *** Reachable stores *)

Lemma reachable_users_one_key (p : Proceso)
    (r : InMemoryUserRepo.t) :
  reachable_users p r →
  ∀ k u, InMemoryUserRepo.users r !! k = Some u →
         k = generateID p ∧ User.ID u = k.
Proof.
  intros Hr. remember (generateID p) as g eqn:Hg.
  induction Hr as [|r n _ IH]; intros k v.
  - unfold NewInMemoryUserRepo.
    cbn [InMemoryUserRepo.users]. by rewrite lookup_empty.
  - rewrite CreateUser_mem, <- Hg.
    cbn [fst InMemoryUserRepo.users]. rewrite lookup_insert.
    case_decide; [|apply IH]. intros [= <-]. by subst k.
Qed.

Lemma reachable_size (p : Proceso) (r : InMemoryTaskRepo.t) :
  reachable p r → size (InMemoryTaskRepo.tasks r) ≤ 1.
Proof.
  intros Hr. apply (una_clave_size _ (generateID p)).
  by apply reachable_one_key.
Qed.

Lemma reachable_users_size (p : Proceso) (r : InMemoryUserRepo.t) :
  reachable_users p r → size (InMemoryUserRepo.users r) ≤ 1.
Proof.
  intros Hr. apply (una_clave_size _ (generateID p)).
  intros k u Hk. by apply (reachable_users_one_key p r Hr k u).
Qed.

Lemma reachable_order (p : Proceso) (r : InMemoryTaskRepo.t)
    (orden : list (string * Task.t)) :
  reachable p r →
  recorrido (InMemoryTaskRepo.tasks r) orden →
  orden = map_to_list (InMemoryTaskRepo.tasks r).
Proof.
  intros Hr. apply (una_clave_recorrido _ (generateID p)).
  by apply reachable_one_key.
Qed.

Lemma reachable_short_list (p : Proceso) (r : InMemoryTaskRepo.t)
    (userID : string) (res : list Task.t) :
  reachable p r →
  InMemoryTaskRepo.ListByUser userID r res →
  length res ≤ 1.
Proof.
  intros Hr H. rewrite (ListByUser_perm _ _ _ H).
  etrans; [apply length_filter|]. rewrite length_fmap, length_map_to_list.
  by apply (reachable_size p).
Qed.

(** After a creation the reachable store is the created task alone. *)
Lemma reachable_CreateTask (p : Proceso) (r : InMemoryTaskRepo.t)
    (userID title : string) :
  reachable p r →
  InMemoryTaskRepo.tasks (CreateTask p r userID title).1
  = {[generateID p := Task.Mk (generateID p) userID title TaskPending]}.
Proof.
  intros Hr. rewrite CreateTask_mem. cbn [fst InMemoryTaskRepo.tasks].
  apply una_clave_insert. by apply reachable_one_key.
Qed.

Lemma ListByUser_singleton (g userID : string) (t : Task.t)
    (r : InMemoryTaskRepo.t) (res : list Task.t) :
  InMemoryTaskRepo.tasks r = {[g := t]} →
  InMemoryTaskRepo.ListByUser userID r res →
  res = if decide (Task.UserID t = userID) then [t] else [].
Proof.
  intros Hm H. pose proof (ListByUser_perm _ _ _ H) as Hp.
  rewrite Hm, map_to_list_singleton in Hp.
  change ([(g, t)].*2) with [t] in Hp.
  rewrite filter_cons, filter_nil in Hp.
  destruct (decide (Task.UserID t = userID)).
  - by apply Permutation_singleton_r.
  - by apply Permutation_nil_r.
Qed.

Lemma ListByUser_singleton_result (g userID : string)
    (t : Task.t) (r : InMemoryTaskRepo.t) :
  InMemoryTaskRepo.tasks r = {[g := t]} →
  InMemoryTaskRepo.ListByUser userID r
    (if decide (Task.UserID t = userID) then [t] else []).
Proof.
  intros Hm. exists (map_to_list (InMemoryTaskRepo.tasks r)).
  split; [apply recorrido_exists|].
  rewrite ListByUser_in_filter, Hm, map_to_list_singleton.
  change ([(g, t)].*2) with [t]. rewrite filter_cons, filter_nil.
  by destruct (decide (Task.UserID t = userID)).
Qed.

End EnMore.

(** ** Statements of a console program *)

Section ConsolaProps.

Import Consola.

Context {RU RT : Type}.

Implicit Types (m : Mundo RU RT) (P : Mundo RU RT → Prop).

Lemma preserva_ret {A : Type} P (a : A) : preserva P (ret a).
Proof. by intros m Hm. Qed.

Lemma preserva_panic {A : Type} P : preserva P (panic (A := A)).
Proof. by intros m Hm. Qed.

Lemma preserva_o_panic {A : Type} P (o : option A) : preserva P (o_panic o).
Proof. destruct o; [apply preserva_ret | apply preserva_panic]. Qed.

Lemma preserva_bind {A B : Type} P (c : M RU RT A) (k : A → M RU RT B) :
  preserva P c → (∀ a, preserva P (k a)) → preserva P (bind c k).
Proof.
  intros Hc Hk m Hm. unfold bind. specialize (Hc m Hm).
  destruct (c m) as [[a|] m']; cbn [snd] in *; [by apply Hk | done].
Qed.

Lemma preserva_Println P (s : string) :
  (∀ s', preserva P (Print s')) → preserva P (Println s).
Proof. intros H. apply H. Qed.

Lemma preserva_Println2 P (a b : string) :
  (∀ s', preserva P (Print s')) → preserva P (Println2 a b).
Proof. intros H. apply H. Qed.

Lemma preserva_ver_repoTarea P : preserva P ver_repoTarea.
Proof. by intros m Hm. Qed.

Lemma leer_mundo m :
  leer m = (Some (ReadString (entrada m)).1,
            MkMundo (ReadString (entrada m)).2 (repoUsuario m) (repoTarea m)
              (salida m)).
Proof. unfold leer. by destruct (ReadString (entrada m)). Qed.

Lemma con_repoUsuario_mundo {A : Type} (f : RU → RU * A) m :
  con_repoUsuario f m
  = (Some (f (repoUsuario m)).2,
     MkMundo (entrada m) (f (repoUsuario m)).1 (repoTarea m) (salida m)).
Proof. unfold con_repoUsuario. by destruct (f (repoUsuario m)). Qed.

Lemma con_repoTarea_mundo {A : Type} (f : RT → RT * A) m :
  con_repoTarea (RU := RU) f m
  = (Some (f (repoTarea m)).2,
     MkMundo (entrada m) (repoUsuario m) (f (repoTarea m)).1 (salida m)).
Proof. unfold con_repoTarea. by destruct (f (repoTarea m)). Qed.

(** Properties of the input left alone. *)
Lemma entrada_Print (Q : string → Prop) (s : string) :
  preserva (λ m, Q (entrada m)) (Print s).
Proof. by intros m Hm. Qed.

Lemma entrada_leer (Q : string → Prop) :
  (∀ e, Q e → Q (ReadString e).2) → preserva (λ m, Q (entrada m)) leer.
Proof. intros HQ m Hm. rewrite leer_mundo. by apply HQ. Qed.

Lemma entrada_con_repoUsuario {A : Type} (Q : string → Prop)
    (f : RU → RU * A) :
  preserva (λ m, Q (entrada m)) (con_repoUsuario f).
Proof. intros m Hm. by rewrite con_repoUsuario_mundo. Qed.

Lemma entrada_con_repoTarea {A : Type} (Q : string → Prop)
    (f : RT → RT * A) :
  preserva (λ m, Q (entrada m)) (con_repoTarea f).
Proof. intros m Hm. by rewrite con_repoTarea_mundo. Qed.

(** Properties of the two repositories alone. *)
Lemma repos_Print (R : RU → RT → Prop) (s : string) :
  preserva (λ m, R (repoUsuario m) (repoTarea m)) (Print s).
Proof. by intros m Hm. Qed.

Lemma repos_leer (R : RU → RT → Prop) :
  preserva (λ m, R (repoUsuario m) (repoTarea m)) leer.
Proof. intros m Hm. by rewrite leer_mundo. Qed.

Lemma repos_con_repoUsuario {A : Type} (R : RU → RT → Prop)
    (f : RU → RU * A) :
  (∀ ru rt, R ru rt → R (f ru).1 rt) →
  preserva (λ m, R (repoUsuario m) (repoTarea m)) (con_repoUsuario f).
Proof. intros HR m Hm. rewrite con_repoUsuario_mundo. by apply HR. Qed.

Lemma repos_con_repoTarea {A : Type} (R : RU → RT → Prop)
    (f : RT → RT * A) :
  (∀ ru rt, R ru rt → R ru (f rt).1) →
  preserva (λ m, R (repoUsuario m) (repoTarea m)) (con_repoTarea f).
Proof. intros HR m Hm. rewrite con_repoTarea_mundo. by apply HR. Qed.



(** Statements that agree wherever an invariant holds may replace one
    another after a statement that keeps the invariant. *)
Lemma bind_ext {A B : Type} P (c : M RU RT A) (k k' : A → M RU RT B) m :
  preserva P c → (∀ a m', P m' → k a m' = k' a m') → P m →
  bind c k m = bind c k' m.
Proof.
  intros Hc Hk Hm. unfold bind. specialize (Hc m Hm).
  destruct (c m) as [[a|] m']; cbn [snd] in *; [by apply Hk | done].
Qed.

(** *** Statements that do not look at the owner repository *)

Lemma ciego_ret {A : Type} (a : A) : ciego_a_usuarios (ret (RU := RU) (RT := RT) a).
Proof. by intros m1 m2 H. Qed.

Lemma ciego_o_panic {A : Type} (o : option A) :
  ciego_a_usuarios (o_panic (RU := RU) (RT := RT) o).
Proof. destruct o; by intros m1 m2 H. Qed.

Lemma ciego_bind {A B : Type} (c : M RU RT A) (k : A → M RU RT B) :
  ciego_a_usuarios c → (∀ a, ciego_a_usuarios (k a)) →
  ciego_a_usuarios (bind c k).
Proof.
  intros Hc Hk m1 m2 H. unfold bind. destruct (Hc m1 m2 H) as [Hv Hm].
  destruct (c m1) as [[a1|] m1'], (c m2) as [[a2|] m2'];
    cbn [fst snd] in *; simplify_eq; [by apply Hk | done].
Qed.

Lemma ciego_Print (s : string) : ciego_a_usuarios (Print (RU := RU) (RT := RT) s).
Proof.
  intros m1 m2 (He & Ht & Hs). split; [done|].
  unfold Print, salvo_usuarios. cbn. by rewrite He, Ht, Hs.
Qed.

Lemma ciego_leer : ciego_a_usuarios (leer (RU := RU) (RT := RT)).
Proof.
  intros m1 m2 (He & Ht & Hs). rewrite !leer_mundo.
  unfold salvo_usuarios. cbn. by rewrite He, Ht, Hs.
Qed.

Lemma ciego_ver_repoTarea : ciego_a_usuarios (ver_repoTarea (RU := RU) (RT := RT)).
Proof.
  intros m1 m2 (He & Ht & Hs). unfold ver_repoTarea. cbn.
  by rewrite Ht.
Qed.

Lemma ciego_con_repoTarea {A : Type} (f : RT → RT * A) :
  ciego_a_usuarios (con_repoTarea (RU := RU) f).
Proof.
  intros m1 m2 (He & Ht & Hs). rewrite !con_repoTarea_mundo.
  unfold salvo_usuarios. cbn. by rewrite He, Ht, Hs.
Qed.

Lemma ciego_con_repoUsuario {A : Type} (f : RU → RU * A) :
  (∀ ru ru', (f ru).2 = (f ru').2) →
  ciego_a_usuarios (con_repoUsuario (RT := RT) f).
Proof.
  intros Hf m1 m2 (He & Ht & Hs). rewrite !con_repoUsuario_mundo.
  unfold salvo_usuarios. cbn.
  by rewrite He, Ht, Hs, (Hf (repoUsuario m1) (repoUsuario m2)).
Qed.

(** *** The loop *)

(** A loop whose body uses up input whenever it goes round again ends
    within as many rounds as the input has bytes, plus one; more rounds
    allowed change nothing. *)
Lemma bucle_estable (cuerpo : nat → M RU RT bool) (n1 n2 : nat) m :
  (∀ n m m', cuerpo n m = (Some true, m') →
             String.length (entrada m') < String.length (entrada m)) →
  String.length (entrada m) < n1 → String.length (entrada m) < n2 →
  is_Some (bucle n1 cuerpo m) ∧ bucle n1 cuerpo m = bucle n2 cuerpo m.
Proof.
  intros Hav. revert cuerpo Hav n2 m.
  induction n1 as [|n1 IH]; intros cuerpo Hav n2 m H1 H2; [lia|].
  destruct n2 as [|n2]; [lia|]. cbn [bucle].
  destruct (cuerpo 0%nat m) as [[[|]|] m'] eqn:E; [|by eauto..].
  apply Hav in E.
  apply (IH (λ n, cuerpo (S n))); [|lia..].
  intros n. apply Hav.
Qed.

Lemma bucle_preserva P (cuerpo : nat → M RU RT bool) (n : nat) m
    (r : Fin * Mundo RU RT) :
  (∀ n, preserva P (cuerpo n)) → P m → bucle n cuerpo m = Some r → P r.2.
Proof.
  intros Hc. revert cuerpo Hc m.
  induction n as [|n IH]; intros cuerpo Hc m Hm; [done|]. cbn [bucle].
  pose proof (Hc 0%nat m Hm) as H0.
  destruct (cuerpo 0%nat m) as [[[|]|] m']; cbn [snd] in H0.
  - apply (IH (λ n, cuerpo (S n))); [|done]. intros k. apply Hc.
  - by intros [= <-].
  - by intros [= <-].
Qed.


Lemma bucle_ciego (cuerpo : nat → M RU RT bool) (n : nat) m1 m2 :
  (∀ k, ciego_a_usuarios (cuerpo k)) → salvo_usuarios m1 m2 →
  match bucle n cuerpo m1, bucle n cuerpo m2 with
  | Some r1, Some r2 => r1.1 = r2.1 ∧ salvo_usuarios r1.2 r2.2
  | None, None => True
  | _, _ => False
  end.
Proof.
  intros Hc. revert cuerpo Hc m1 m2.
  induction n as [|n IH]; intros cuerpo Hc m1 m2 H; [done|]. cbn [bucle].
  destruct (Hc 0%nat m1 m2 H) as [Hv Hm].
  destruct (cuerpo 0%nat m1) as [[[|]|] m1'],
           (cuerpo 0%nat m2) as [[[|]|] m2'];
    cbn [fst snd] in *; simplify_eq; try done.
  apply (IH (λ k, cuerpo (S k))); [|done]. intros k. apply Hc.
Qed.

Lemma bucle_ext P (cuerpo cuerpo' : nat → M RU RT bool) (n : nat) m :
  (∀ n, preserva P (cuerpo n)) →
  (∀ n m, P m → cuerpo n m = cuerpo' n m) →
  P m → bucle n cuerpo m = bucle n cuerpo' m.
Proof.
  intros Hc He. revert cuerpo cuerpo' Hc He m.
  induction n as [|n IH]; intros cuerpo cuerpo' Hc He m Hm; [done|].
  cbn [bucle]. rewrite <- (He 0%nat m Hm).
  pose proof (Hc 0%nat m Hm) as H0.
  destruct (cuerpo 0%nat m) as [[[|]|] m']; cbn [snd] in H0; [|done..].
  apply (IH (λ n, cuerpo (S n))); [intros k; apply Hc | | done].
  intros k. apply He.
Qed.

End ConsolaProps.

(** ** The menu loop of the Spanish variant *)

Section EsRonda.

Import Es Consola EsInterfaz.

Implicit Types (m : Mundo RepositorioUsuarioMem.t RepositorioTareaMem.t).

(** A property of the state that printing, reading and the calls of the
    use cases keep is kept by a whole round. *)
Section Preserva.

Variable p : Proceso.
Variable P : Mundo RepositorioUsuarioMem.t RepositorioTareaMem.t → Prop.

Hypothesis P_Print : ∀ s, preserva P (Print s).
Hypothesis P_leer : preserva P leer.
Hypothesis P_CrearUsuario : ∀ nombre rol,
  preserva P (con_repoUsuario (λ repo, CrearUsuario p repo nombre rol)).
Hypothesis P_CrearTarea : ∀ usuarioID titulo,
  preserva P (con_repoTarea (λ repo, CrearTarea p repo usuarioID titulo)).
Hypothesis P_FinalizarTarea : ∀ tareaID,
  preserva P (con_repoTarea (λ repo, FinalizarTarea repo tareaID)).

#[local] Ltac paso :=
  first
    [ apply preserva_bind; [|intros ?]
    | apply preserva_ret
    | apply preserva_o_panic
    | apply preserva_ver_repoTarea
    | apply preserva_Println; exact P_Print
    | apply preserva_Println2; exact P_Print
    | apply P_Print | apply P_leer | apply P_CrearUsuario
    | apply P_CrearTarea | apply P_FinalizarTarea
    | match goal with
      | |- preserva _ (match ?x with _ => _ end) => destruct x
      | |- preserva _ (if ?b then _ else _) => destruct b
      end ].

Lemma imprimir_tareas_preserva (tareas : list Tarea.t) :
  preserva P (imprimir_tareas tareas).
Proof.
  induction tareas as [|t l IH]; cbn [imprimir_tareas];
    [apply preserva_ret|].
  apply preserva_bind; [apply P_Print | intros _; exact IH].
Qed.

Lemma segun_opcion_preserva
    (elige : gmap string Tarea.t → list (string * Tarea.t)) (c : ascii) :
  preserva P (segun_opcion p elige c).
Proof.
  unfold segun_opcion, caso_1, caso_2, caso_3, caso_4.
  repeat first [apply imprimir_tareas_preserva | paso].
Qed.

Lemma ronda_preserva
    (elige : gmap string Tarea.t → list (string * Tarea.t)) :
  preserva P (ronda p elige).
Proof.
  unfold ronda, menu.
  repeat first [apply segun_opcion_preserva | paso].
Qed.

End Preserva.


Lemma segun_opcion_entrada (p : Proceso)
    (elige : gmap string Tarea.t → list (string * Tarea.t)) (c : ascii)
    (Q : string → Prop) :
  (∀ e, Q e → Q (ReadString e).2) →
  preserva (λ m, Q (entrada m)) (segun_opcion p elige c).
Proof.
  intros HQ. apply segun_opcion_preserva; intros.
  - apply entrada_Print.
  - by apply entrada_leer.
  - apply entrada_con_repoUsuario.
  - apply entrada_con_repoTarea.
  - apply entrada_con_repoTarea.
Qed.

(** The repositories of a round stay reachable. *)
Lemma ronda_alcanzable (p : Proceso)
    (elige : gmap string Tarea.t → list (string * Tarea.t)) :
  preserva (λ m, alcanzable_usuarios p (repoUsuario m)
                 ∧ alcanzable p (repoTarea m)) (ronda p elige).
Proof.
  apply ronda_preserva; intros.
  - apply (repos_Print (λ ru rt, alcanzable_usuarios p ru ∧ alcanzable p rt)).
  - apply (repos_leer (λ ru rt, alcanzable_usuarios p ru ∧ alcanzable p rt)).
  - apply (repos_con_repoUsuario
             (λ ru rt, alcanzable_usuarios p ru ∧ alcanzable p rt)).
    intros ru rt [Hu Ht]. split; [by constructor | done].
  - apply (repos_con_repoTarea
             (λ ru rt, alcanzable_usuarios p ru ∧ alcanzable p rt)).
    intros ru rt [Hu Ht]. split; [done | by constructor].
  - apply (repos_con_repoTarea
             (λ ru rt, alcanzable_usuarios p ru ∧ alcanzable p rt)).
    intros ru rt [Hu Ht]. split; [done | by constructor].
Qed.

(** A round, taken apart: the menu is printed, the option line is read,
    and its first byte selects the case. *)
Lemma ronda_desc (p : Proceso)
    (elige : gmap string Tarea.t → list (string * Tarea.t)) m :
  ronda p elige m
  = let m1 := MkMundo (ReadString (entrada m)).2 (repoUsuario m)
                (repoTarea m) (salida m +:+ texto_menu_es) in
    match primer_byte (ReadString (entrada m)).1 with
    | None => (None, m1)
    | Some c => segun_opcion p elige c m1
    end.
Proof.
  unfold ronda, menu, bind, Println, Print, leer. cbn [entrada repoUsuario
    repoTarea salida]. destruct (ReadString (entrada m)) as [linea queda].
  cbn [fst snd]. rewrite !string_app_assoc.
  by destruct (primer_byte linea).
Qed.



(** A round that goes round again has used up input. *)
Lemma ronda_avanza (p : Proceso)
    (elige : gmap string Tarea.t → list (string * Tarea.t)) m m' :
  ronda p elige m = (Some true, m') →
  String.length (entrada m') < String.length (entrada m).
Proof.
  rewrite ronda_desc. cbv zeta.
  destruct (primer_byte (ReadString (entrada m)).1) as [c|] eqn:E; [|done].
  apply ReadString_primer_byte in E as [_ E]. intros Hs.
  set (n := String.length (ReadString (entrada m)).2) in *.
  assert (preserva (λ m, String.length (entrada m) ≤ n)
            (segun_opcion p elige c)) as Hp.
  { apply (segun_opcion_entrada p elige c (λ e, String.length e ≤ n)).
    intros e He. pose proof (ReadString_queda_le e). lia. }
  match type of Hs with ?f ?m1 = _ => specialize (Hp m1) end.
  rewrite Hs in Hp. cbn in Hp. specialize (Hp (le_n _)). lia.
Qed.

(** An option byte outside ['1'..'5']: the round prints the menu and the
    complaint, reads the option line and touches nothing else. *)
Lemma ronda_invalida (p : Proceso)
    (elige : gmap string Tarea.t → list (string * Tarea.t)) m (c : ascii) :
  primer_byte (entrada m) = Some c →
  c ≠ "1"%char → c ≠ "2"%char → c ≠ "3"%char → c ≠ "4"%char →
  c ≠ "5"%char →
  ronda p elige m
  = (Some true,
     MkMundo (ReadString (entrada m)).2 (repoUsuario m) (repoTarea m)
       (salida m +:+ texto_menu_es +:+ "Opción inválida." +:+ LF)).
Proof.
  intros Hc H1 H2 H3 H4 H5. rewrite ronda_desc. cbv zeta.
  rewrite (ReadString_primer_byte_inv _ _ Hc). unfold segun_opcion.
  apply Ascii.eqb_neq in H1, H2, H3, H4, H5. rewrite H1, H2, H3, H4, H5.
  unfold bind, Println, Print, ret. cbn [entrada repoUsuario repoTarea salida].
  by rewrite string_app_assoc.
Qed.

(** With a reachable task store the order of visit does not matter. *)
Lemma caso_4_ext (p : Proceso)
    (elige elige' : gmap string Tarea.t → list (string * Tarea.t)) m :
  alcanzable p (repoTarea m) → admisible elige → admisible elige' →
  caso_4 elige m = caso_4 elige' m.
Proof.
  intros Hm Hel Hel'. unfold caso_4.
  apply (bind_ext (λ m, alcanzable p (repoTarea m)));
    [apply (repos_Print (λ _ rt, alcanzable p rt)) | | done].
  intros _ m1 H1.
  apply (bind_ext (λ m, alcanzable p (repoTarea m)));
    [apply (repos_leer (λ _ rt, alcanzable p rt)) | | done].
  intros u m2 H2.
  apply (bind_ext (λ m, alcanzable p (repoTarea m)));
    [apply preserva_o_panic | | done].
  intros u' m3 H3.
  cbv [bind ver_repoTarea].
  by rewrite (alcanzable_recorrido p _ _ H3 (Hel _)),
    (alcanzable_recorrido p _ _ H3 (Hel' _)).
Qed.

Lemma ronda_ext (p : Proceso)
    (elige elige' : gmap string Tarea.t → list (string * Tarea.t)) m :
  alcanzable p (repoTarea m) → admisible elige → admisible elige' →
  ronda p elige m = ronda p elige' m.
Proof.
  intros Hm Hel Hel'. rewrite !ronda_desc. cbv zeta.
  destruct (primer_byte (ReadString (entrada m)).1) as [c|]; [|done].
  unfold segun_opcion.
  repeat match goal with
  | |- (if ?b then _ else _) _ = _ => destruct b; [done|]
  | |- (if ?b then _ else _) _ = _ => destruct b; [|done]
  | |- (if ?b then _ else _) _ = _ => destruct b
  end; try done.
  by apply (caso_4_ext p).
Qed.

(** No statement of a round looks at the owner repository. *)
Lemma imprimir_tareas_ciego (tareas : list Tarea.t) :
  ciego_a_usuarios (imprimir_tareas tareas).
Proof.
  induction tareas as [|t l IH]; cbn [imprimir_tareas]; [apply ciego_ret|].
  apply ciego_bind; [apply ciego_Print | intros _; exact IH].
Qed.

Lemma ronda_ciega (p : Proceso)
    (elige : gmap string Tarea.t → list (string * Tarea.t)) :
  ciego_a_usuarios (ronda p elige).
Proof.
  unfold ronda, menu, segun_opcion, caso_1, caso_2, caso_3, caso_4,
    Println, Println2.
  repeat first
    [ apply ciego_bind; [|intros ?]
    | apply ciego_ret | apply ciego_o_panic | apply ciego_Print
    | apply ciego_leer | apply ciego_ver_repoTarea
    | apply ciego_con_repoTarea
    | apply ciego_con_repoUsuario; intros ru ru'; by rewrite !CrearUsuario_mem
    | apply imprimir_tareas_ciego
    | match goal with
      | |- ciego_a_usuarios (match ?x with _ => _ end) => destruct x
      | |- ciego_a_usuarios (if ?b then _ else _) => destruct b
      end ].
Qed.

Lemma main_ciego (p : Proceso)
    (eleccion : nat → gmap string Tarea.t → list (string * Tarea.t))
    (n : nat) m1 m2 :
  salvo_usuarios m1 m2 →
  match bucle n (λ k, ronda p (eleccion k)) m1,
        bucle n (λ k, ronda p (eleccion k)) m2 with
  | Some r1, Some r2 => r1.1 = r2.1 ∧ salvo_usuarios r1.2 r2.2
  | None, None => True
  | _, _ => False
  end.
Proof. apply bucle_ciego. intros k. apply ronda_ciega. Qed.

(** *** The whole run *)

Lemma main_estable (p : Proceso)
    (eleccion : nat → gmap string Tarea.t → list (string * Tarea.t))
    (stdin : string) (n1 n2 : nat) :
  String.length stdin < n1 → String.length stdin < n2 →
  is_Some (main n1 p eleccion stdin)
  ∧ main n1 p eleccion stdin = main n2 p eleccion stdin.
Proof.
  intros H1 H2. unfold main. apply bucle_estable; [|done..].
  intros n m m'. apply ronda_avanza.
Qed.


Lemma main_alcanzable (p : Proceso)
    (eleccion : nat → gmap string Tarea.t → list (string * Tarea.t))
    (stdin : string) (n : nat)
    (r : Fin * Mundo RepositorioUsuarioMem.t RepositorioTareaMem.t) :
  main n p eleccion stdin = Some r →
  alcanzable_usuarios p (repoUsuario r.2) ∧ alcanzable p (repoTarea r.2).
Proof.
  unfold main.
  apply (bucle_preserva (λ m, alcanzable_usuarios p (repoUsuario m)
                              ∧ alcanzable p (repoTarea m))).
  - intros k. apply ronda_alcanzable.
  - split; constructor.
Qed.

Lemma main_ext (p : Proceso)
    (eleccion eleccion' : nat → gmap string Tarea.t
                          → list (string * Tarea.t))
    (stdin : string) (n : nat) :
  (∀ k, admisible (eleccion k)) → (∀ k, admisible (eleccion' k)) →
  main n p eleccion stdin = main n p eleccion' stdin.
Proof.
  intros Hel Hel'. unfold main.
  apply (bucle_ext (λ m, alcanzable_usuarios p (repoUsuario m)
                         ∧ alcanzable p (repoTarea m))).
  - intros k. apply ronda_alcanzable.
  - intros k m [_ Hm]. by apply ronda_ext.
  - split; constructor.
Qed.

End EsRonda.

(** ** The menu loop of the English variant *)

Section EnRound.

Import En Consola EnInterface.

Implicit Types (m : Mundo InMemoryUserRepo.t InMemoryTaskRepo.t).

(** A property of the state that printing, reading and the calls of the
    use cases keep is kept by a whole round. *)
Section Preserves.

Variable p : Proceso.
Variable P : Mundo InMemoryUserRepo.t InMemoryTaskRepo.t → Prop.

Hypothesis P_Print : ∀ s, preserva P (Print s).
Hypothesis P_leer : preserva P leer.
Hypothesis P_CreateUser : ∀ name,
  preserva P (con_repoUsuario (λ repo, CreateUser p repo name)).
Hypothesis P_CreateTask : ∀ userID title,
  preserva P (con_repoTarea (λ repo, CreateTask p repo userID title)).
Hypothesis P_CompleteTask : ∀ taskID,
  preserva P (con_repoTarea (λ repo, CompleteTask repo taskID)).

#[local] Ltac paso :=
  first
    [ apply preserva_bind; [|intros ?]
    | apply preserva_ret
    | apply preserva_o_panic
    | apply preserva_ver_repoTarea
    | apply preserva_Println; exact P_Print
    | apply preserva_Println2; exact P_Print
    | apply P_Print | apply P_leer | apply P_CreateUser
    | apply P_CreateTask | apply P_CompleteTask
    | match goal with
      | |- preserva _ (match ?x with _ => _ end) => destruct x
      | |- preserva _ (if ?b then _ else _) => destruct b
      end ].

Lemma print_tasks_preserva (tasks : list Task.t) :
  preserva P (print_tasks tasks).
Proof.
  induction tasks as [|t l IH]; cbn [print_tasks];
    [apply preserva_ret|].
  apply preserva_bind; [apply P_Print | intros _; exact IH].
Qed.

Lemma on_option_preserva
    (choose : gmap string Task.t → list (string * Task.t)) (c : ascii) :
  preserva P (on_option p choose c).
Proof.
  unfold on_option, case_1, case_2, case_3, case_4.
  repeat first [apply print_tasks_preserva | paso].
Qed.

Lemma round_preserva
    (choose : gmap string Task.t → list (string * Task.t)) :
  preserva P (round p choose).
Proof.
  unfold round, menu.
  repeat first [apply on_option_preserva | paso].
Qed.

End Preserves.


Lemma on_option_entrada (p : Proceso)
    (choose : gmap string Task.t → list (string * Task.t)) (c : ascii)
    (Q : string → Prop) :
  (∀ e, Q e → Q (ReadString e).2) →
  preserva (λ m, Q (entrada m)) (on_option p choose c).
Proof.
  intros HQ. apply on_option_preserva; intros.
  - apply entrada_Print.
  - by apply entrada_leer.
  - apply entrada_con_repoUsuario.
  - apply entrada_con_repoTarea.
  - apply entrada_con_repoTarea.
Qed.

(** The repositories of a round stay reachable. *)
Lemma round_reachable (p : Proceso)
    (choose : gmap string Task.t → list (string * Task.t)) :
  preserva (λ m, reachable_users p (repoUsuario m)
                 ∧ reachable p (repoTarea m)) (round p choose).
Proof.
  apply round_preserva; intros.
  - apply (repos_Print (λ ru rt, reachable_users p ru ∧ reachable p rt)).
  - apply (repos_leer (λ ru rt, reachable_users p ru ∧ reachable p rt)).
  - apply (repos_con_repoUsuario
             (λ ru rt, reachable_users p ru ∧ reachable p rt)).
    intros ru rt [Hu Ht]. split; [by constructor | done].
  - apply (repos_con_repoTarea
             (λ ru rt, reachable_users p ru ∧ reachable p rt)).
    intros ru rt [Hu Ht]. split; [done | by constructor].
  - apply (repos_con_repoTarea
             (λ ru rt, reachable_users p ru ∧ reachable p rt)).
    intros ru rt [Hu Ht]. split; [done | by constructor].
Qed.

(** A round, taken apart: the menu is printed, the option line is read,
    and its first byte selects the case. *)
Lemma round_desc (p : Proceso)
    (choose : gmap string Task.t → list (string * Task.t)) m :
  round p choose m
  = let m1 := MkMundo (ReadString (entrada m)).2 (repoUsuario m)
                (repoTarea m) (salida m +:+ texto_menu_en) in
    match primer_byte (ReadString (entrada m)).1 with
    | None => (None, m1)
    | Some c => on_option p choose c m1
    end.
Proof.
  unfold round, menu, bind, Println, Print, leer. cbn [entrada repoUsuario
    repoTarea salida]. destruct (ReadString (entrada m)) as [linea queda].
  cbn [fst snd]. rewrite !string_app_assoc.
  by destruct (primer_byte linea).
Qed.



(** A round that goes round again has used up input. *)
Lemma round_advances (p : Proceso)
    (choose : gmap string Task.t → list (string * Task.t)) m m' :
  round p choose m = (Some true, m') →
  String.length (entrada m') < String.length (entrada m).
Proof.
  rewrite round_desc. cbv zeta.
  destruct (primer_byte (ReadString (entrada m)).1) as [c|] eqn:E; [|done].
  apply ReadString_primer_byte in E as [_ E]. intros Hs.
  set (n := String.length (ReadString (entrada m)).2) in *.
  assert (preserva (λ m, String.length (entrada m) ≤ n)
            (on_option p choose c)) as Hp.
  { apply (on_option_entrada p choose c (λ e, String.length e ≤ n)).
    intros e He. pose proof (ReadString_queda_le e). lia. }
  match type of Hs with ?f ?m1 = _ => specialize (Hp m1) end.
  rewrite Hs in Hp. cbn in Hp. specialize (Hp (le_n _)). lia.
Qed.

(** An option byte outside ['1'..'5']: the round prints the menu and the
    complaint, reads the option line and touches nothing else. *)
Lemma round_invalid (p : Proceso)
    (choose : gmap string Task.t → list (string * Task.t)) m (c : ascii) :
  primer_byte (entrada m) = Some c →
  c ≠ "1"%char → c ≠ "2"%char → c ≠ "3"%char → c ≠ "4"%char →
  c ≠ "5"%char →
  round p choose m
  = (Some true,
     MkMundo (ReadString (entrada m)).2 (repoUsuario m) (repoTarea m)
       (salida m +:+ texto_menu_en +:+ "Opción inválida." +:+ LF)).
Proof.
  intros Hc H1 H2 H3 H4 H5. rewrite round_desc. cbv zeta.
  rewrite (ReadString_primer_byte_inv _ _ Hc). unfold on_option.
  apply Ascii.eqb_neq in H1, H2, H3, H4, H5. rewrite H1, H2, H3, H4, H5.
  unfold bind, Println, Print, ret. cbn [entrada repoUsuario repoTarea salida].
  by rewrite string_app_assoc.
Qed.

(** With a reachable task store the order of visit does not matter. *)
Lemma case_4_ext (p : Proceso)
    (choose choose' : gmap string Task.t → list (string * Task.t)) m :
  reachable p (repoTarea m) → admisible choose → admisible choose' →
  case_4 choose m = case_4 choose' m.
Proof.
  intros Hm Hel Hel'. unfold case_4.
  apply (bind_ext (λ m, reachable p (repoTarea m)));
    [apply (repos_Print (λ _ rt, reachable p rt)) | | done].
  intros _ m1 H1.
  apply (bind_ext (λ m, reachable p (repoTarea m)));
    [apply (repos_leer (λ _ rt, reachable p rt)) | | done].
  intros u m2 H2.
  apply (bind_ext (λ m, reachable p (repoTarea m)));
    [apply preserva_o_panic | | done].
  intros u' m3 H3.
  cbv [bind ver_repoTarea].
  by rewrite (reachable_order p _ _ H3 (Hel _)),
    (reachable_order p _ _ H3 (Hel' _)).
Qed.

Lemma round_ext (p : Proceso)
    (choose choose' : gmap string Task.t → list (string * Task.t)) m :
  reachable p (repoTarea m) → admisible choose → admisible choose' →
  round p choose m = round p choose' m.
Proof.
  intros Hm Hel Hel'. rewrite !round_desc. cbv zeta.
  destruct (primer_byte (ReadString (entrada m)).1) as [c|]; [|done].
  unfold on_option.
  repeat match goal with
  | |- (if ?b then _ else _) _ = _ => destruct b; [done|]
  | |- (if ?b then _ else _) _ = _ => destruct b; [|done]
  | |- (if ?b then _ else _) _ = _ => destruct b
  end; try done.
  by apply (case_4_ext p).
Qed.

(** No statement of a round looks at the owner repository. *)
Lemma print_tasks_ciego (tasks : list Task.t) :
  ciego_a_usuarios (print_tasks tasks).
Proof.
  induction tasks as [|t l IH]; cbn [print_tasks]; [apply ciego_ret|].
  apply ciego_bind; [apply ciego_Print | intros _; exact IH].
Qed.

Lemma round_blind (p : Proceso)
    (choose : gmap string Task.t → list (string * Task.t)) :
  ciego_a_usuarios (round p choose).
Proof.
  unfold round, menu, on_option, case_1, case_2, case_3, case_4,
    Println, Println2.
  repeat first
    [ apply ciego_bind; [|intros ?]
    | apply ciego_ret | apply ciego_o_panic | apply ciego_Print
    | apply ciego_leer | apply ciego_ver_repoTarea
    | apply ciego_con_repoTarea
    | apply ciego_con_repoUsuario; intros ru ru'; by rewrite !CreateUser_mem
    | apply print_tasks_ciego
    | match goal with
      | |- ciego_a_usuarios (match ?x with _ => _ end) => destruct x
      | |- ciego_a_usuarios (if ?b then _ else _) => destruct b
      end ].
Qed.

Lemma main_blind (p : Proceso)
    (choice : nat → gmap string Task.t → list (string * Task.t))
    (n : nat) m1 m2 :
  salvo_usuarios m1 m2 →
  match bucle n (λ k, round p (choice k)) m1,
        bucle n (λ k, round p (choice k)) m2 with
  | Some r1, Some r2 => r1.1 = r2.1 ∧ salvo_usuarios r1.2 r2.2
  | None, None => True
  | _, _ => False
  end.
Proof. apply bucle_ciego. intros k. apply round_blind. Qed.

(** *** The whole run *)

Lemma main_stable (p : Proceso)
    (choice : nat → gmap string Task.t → list (string * Task.t))
    (stdin : string) (n1 n2 : nat) :
  String.length stdin < n1 → String.length stdin < n2 →
  is_Some (main n1 p choice stdin)
  ∧ main n1 p choice stdin = main n2 p choice stdin.
Proof.
  intros H1 H2. unfold main. apply bucle_estable; [|done..].
  intros n m m'. apply round_advances.
Qed.


Lemma main_reachable (p : Proceso)
    (choice : nat → gmap string Task.t → list (string * Task.t))
    (stdin : string) (n : nat)
    (r : Fin * Mundo InMemoryUserRepo.t InMemoryTaskRepo.t) :
  main n p choice stdin = Some r →
  reachable_users p (repoUsuario r.2) ∧ reachable p (repoTarea r.2).
Proof.
  unfold main.
  apply (bucle_preserva (λ m, reachable_users p (repoUsuario m)
                              ∧ reachable p (repoTarea m))).
  - intros k. apply round_reachable.
  - split; constructor.
Qed.

Lemma main_ext_en (p : Proceso)
    (choice choice' : nat → gmap string Task.t
                          → list (string * Task.t))
    (stdin : string) (n : nat) :
  (∀ k, admisible (choice k)) → (∀ k, admisible (choice' k)) →
  main n p choice stdin = main n p choice' stdin.
Proof.
  intros Hel Hel'. unfold main.
  apply (bucle_ext (λ m, reachable_users p (repoUsuario m)
                         ∧ reachable p (repoTarea m))).
  - intros k. apply round_reachable.
  - intros k m [_ Hm]. by apply round_ext.
  - split; constructor.
Qed.

End EnRound.

(** ** Trimming, counting, printing *)

Section Utilidades.

Import Es En.

Lemma string_snoc_cases (s : string) :
  s = "" ∨ ∃ s0 c, s = s0 +:+ String c "".
Proof.
  induction s as [|x s IH]; [by left|]. right.
  destruct IH as [-> | (s0 & c & ->)].
  - by exists "", x.
  - exists (String x s0), c. by rewrite string_app_cons.
Qed.

Lemma string_snoc_inj (s1 s2 : string) (c1 c2 : ascii) :
  s1 +:+ String c1 "" = s2 +:+ String c2 "" → s1 = s2.
Proof.
  revert s2. induction s1 as [|x s1 IH]; intros [|y s2];
    rewrite ?string_app_cons; cbn.
  - done.
  - intros [= _ H]. by destruct s2.
  - intros [= _ H]. by destruct s1.
  - intros [= -> H]. f_equal. by apply IH.
Qed.

Lemma limpiar_casos (s s' : string) :
  (limpiar s = None ↔ s = "")
  ∧ (limpiar s = Some s' ↔ ∃ c, s = s' +:+ String c "").
Proof.
  destruct (string_snoc_cases s) as [-> | (s0 & c & ->)].
  - split; [done|]. split; [done|]. intros [c H]. by destruct s'.
  - rewrite limpiar_snoc. split.
    + split; [done|]. intros H. by destruct s0.
    + split.
      * intros [= ->]. by exists c.
      * intros [c' H]. f_equal. by apply (string_snoc_inj _ _ _ _ H).
Qed.

Lemma trim_cases (s s' : string) :
  (trim s = None ↔ s = "")
  ∧ (trim s = Some s' ↔ ∃ c, s = s' +:+ String c "").
Proof. apply limpiar_casos. Qed.

(** *** [hello.go] *)

Lemma llamadas_S (n : nat) (c : Z) :
  Hello.llamadas (S n) c
  = (Some (int_wrap (c + Z.of_nat (S n))), int_wrap (c + Z.of_nat (S n))).
Proof.
  revert c. induction n as [|n IH]; intros c.
  - cbn [Hello.llamadas Hello.cont]. unfold int_add. by rewrite Nat2Z.inj_succ.
  - change (Hello.llamadas (S (S n)) c)
      with (Hello.llamadas (S n) (int_add c 1)).
    rewrite IH. unfold int_add. rewrite int_wrap_add_l.
    by replace (c + 1 + Z.of_nat (S n))%Z with (c + Z.of_nat (S (S n)))%Z
      by lia.
Qed.

Lemma foldl_zip_indices (nombres : list string) (a : nat) (acc : string) :
  foldl (λ out '(i, _), out +:+ Sprintf_d (Z.of_nat i) +:+ LF) acc
        (zip (seq a (length nombres)) nombres)
  = foldl (λ out i, out +:+ Sprintf_d (Z.of_nat i) +:+ LF) acc
          (seq a (length nombres)).
Proof.
  revert a acc. induction nombres as [|x l IH]; intros a acc; [reflexivity|].
  cbn [length seq zip zip_with foldl]. apply IH.
Qed.

Lemma imprimirNombres_indices (nombres : list string) :
  Hello.imprimirNombres nombres
  = foldl (λ out i, out +:+ Sprintf_d (Z.of_nat i) +:+ LF) ""
          (seq 0 (length nombres)).
Proof. apply foldl_zip_indices. Qed.

End Utilidades.

(** ** Further contracts of the two programs *)

Section Extras.

Import Es En Consola.

(** X1. Listing the owner repository always returns: every order in
    which the loop may visit the map gives a result, and there is such
    an order for every store.  Whatever the order, the result holds
    every stored owner once: it is a rearrangement of the stored values,
    it has as many members as the store has entries, and an owner is in
    it exactly when it is stored. *)
Theorem Listar_todos
    (r : RepositorioUsuarioMem.t) (r' : InMemoryUserRepo.t) :
  ((∃ res, RepositorioUsuarioMem.Listar r res)
   ∧ (∀ orden, recorrido (RepositorioUsuarioMem.usuarios r) orden →
        RepositorioUsuarioMem.Listar r
          (RepositorioUsuarioMem.Listar_en orden))
   ∧ (∀ res, RepositorioUsuarioMem.Listar r res →
        res ≡ₚ (map_to_list (RepositorioUsuarioMem.usuarios r)).*2
        ∧ length res = size (RepositorioUsuarioMem.usuarios r)
        ∧ (∀ u, u ∈ res
                ↔ ∃ k, RepositorioUsuarioMem.usuarios r !! k = Some u)))
  ∧ ((∃ res, InMemoryUserRepo.List r' res)
     ∧ (∀ order, recorrido (InMemoryUserRepo.users r') order →
          InMemoryUserRepo.List r' (InMemoryUserRepo.List_in order))
     ∧ (∀ res, InMemoryUserRepo.List r' res →
          res ≡ₚ (map_to_list (InMemoryUserRepo.users r')).*2
          ∧ length res = size (InMemoryUserRepo.users r')
          ∧ (∀ u, u ∈ res ↔ ∃ k, InMemoryUserRepo.users r' !! k = Some u))).
Proof.
  split.
  - split; [apply Listar_total|].
    split; [intros orden Ho; by exists orden|]. intros res H.
    split; [by apply Listar_perm|].
    split; [by apply Listar_length|]. intros u. by apply Listar_elem_of.
  - split; [apply List_total|].
    split; [intros order Ho; by exists order|]. intros res H.
    split; [by apply List_perm|].
    split; [by apply List_length|]. intros u. by apply List_elem_of.
Qed.

Lemma Listar_todos_witness :
  let u1 := Usuario.Mk "1" "Ana" "admin" in
  let u2 := Usuario.Mk "2" "Luis" "usuario" in
  let r := (RepositorioUsuarioMem.Guardar u2
              (RepositorioUsuarioMem.Guardar u1
                 NuevoRepositorioUsuarioMem).1).1 in
  let v1 := User.Mk "1" "Ana" "" in
  let r' := (InMemoryUserRepo.Save v1 NewInMemoryUserRepo).1 in
  recorrido (RepositorioUsuarioMem.usuarios r) [("2", u2); ("1", u1)]
  ∧ recorrido (InMemoryUserRepo.users r') [("1", v1)]
  ∧ RepositorioUsuarioMem.Listar r [u2; u1]
  ∧ InMemoryUserRepo.List r' [v1]
  ∧ length [u2; u1] = size (RepositorioUsuarioMem.usuarios r)
  ∧ length [v1] = size (InMemoryUserRepo.users r').
Proof.
  intros u1 u2 r v1 r'.
  assert (recorrido (RepositorioUsuarioMem.usuarios r)
            [("2", u2); ("1", u1)]) as Ho
    by (unfold recorrido; vm_compute; apply perm_swap).
  assert (recorrido (InMemoryUserRepo.users r') [("1", v1)]) as Ho'
    by (unfold recorrido; vm_compute; reflexivity).
  destruct (Listar_todos r r') as [(_ & Hret & Hex) (_ & Hret' & Hex')].
  pose proof (Hret _ Ho) as H. pose proof (Hret' _ Ho') as H'.
  change (RepositorioUsuarioMem.Listar_en [("2", u2); ("1", u1)])
    with [u2; u1] in H.
  change (InMemoryUserRepo.List_in [("1", v1)]) with [v1] in H'.
  split; [exact Ho|]. split; [exact Ho'|].
  split; [exact H|]. split; [exact H'|].
  split; [exact (proj1 (proj2 (Hex _ H)))
         | exact (proj1 (proj2 (Hex' _ H')))].
Defined.

(** X2. On a store whose entries sit under their own identifiers,
    completing a task fails, with the error "tarea no encontrada",
    exactly when no task is stored under the identifier given, and
    succeeds exactly when one is; on failure the store is returned as it
    was. *)
Theorem FinalizarTarea_no_encontrada
    (r : RepositorioTareaMem.t) (tareaID : string)
    (r' : InMemoryTaskRepo.t) (taskID : string) :
  claves_por_ID Tarea.ID (RepositorioTareaMem.tareas r) →
  claves_por_ID Task.ID (InMemoryTaskRepo.tasks r') →
  (((FinalizarTarea r tareaID).2 = Some (Errorf "tarea no encontrada")
    ↔ RepositorioTareaMem.tareas r !! tareaID = None)
   ∧ ((FinalizarTarea r tareaID).2 = None
      ↔ is_Some (RepositorioTareaMem.tareas r !! tareaID))
   ∧ (RepositorioTareaMem.tareas r !! tareaID = None →
      FinalizarTarea r tareaID = (r, Some (Errorf "tarea no encontrada"))))
  ∧ (((CompleteTask r' taskID).2 = Some (Errorf "tarea no encontrada")
      ↔ InMemoryTaskRepo.tasks r' !! taskID = None)
     ∧ ((CompleteTask r' taskID).2 = None
        ↔ is_Some (InMemoryTaskRepo.tasks r' !! taskID))
     ∧ (InMemoryTaskRepo.tasks r' !! taskID = None →
        CompleteTask r' taskID = (r', Some (Errorf "tarea no encontrada")))).
Proof.
  intros Hr Hr'. split.
  - split; [by apply FinalizarTarea_error_iff|].
    split; [|apply FinalizarTarea_None].
    pose proof (FinalizarTarea_casos r tareaID Hr) as Hc.
    destruct (RepositorioTareaMem.tareas r !! tareaID) as [t|].
    + destruct Hc as [_ ->]. by split.
    + rewrite Hc. split; [done|]. by intros [? ?].
  - split; [by apply CompleteTask_error_iff|].
    split; [|apply CompleteTask_None].
    pose proof (CompleteTask_cases r' taskID Hr') as Hc.
    destruct (InMemoryTaskRepo.tasks r' !! taskID) as [t|].
    + destruct Hc as [_ ->]. by split.
    + rewrite Hc. split; [done|]. by intros [? ?].
Qed.

Lemma FinalizarTarea_no_encontrada_witness :
  claves_por_ID Tarea.ID (RepositorioTareaMem.tareas NuevoRepositorioTareaMem)
  ∧ claves_por_ID Task.ID (InMemoryTaskRepo.tasks NewInMemoryTaskRepo)
  ∧ FinalizarTarea NuevoRepositorioTareaMem "7"
    = (NuevoRepositorioTareaMem, Some (Errorf "tarea no encontrada")).
Proof.
  assert (claves_por_ID Tarea.ID
            (RepositorioTareaMem.tareas NuevoRepositorioTareaMem)) as H
    by (intros k v Hk; vm_compute in Hk; discriminate Hk).
  assert (claves_por_ID Task.ID
            (InMemoryTaskRepo.tasks NewInMemoryTaskRepo)) as H'
    by (intros k v Hk; vm_compute in Hk; discriminate Hk).
  split; [exact H|]. split; [exact H'|].
  exact (proj2 (proj2 (proj1 (FinalizarTarea_no_encontrada
    NuevoRepositorioTareaMem "7" NewInMemoryTaskRepo "7" H H')))
    eq_refl).
Defined.

(** X3. Whatever the store, a completion that fails fails with the error
    "tarea no encontrada" and returns the store as it was: the use case
    has no other way to fail and never leaves a half-done change. *)
Theorem FinalizarTarea_fallo_intacto
    (r : RepositorioTareaMem.t) (tareaID : string)
    (r' : InMemoryTaskRepo.t) (taskID : string) :
  (∀ e, (FinalizarTarea r tareaID).2 = Some e →
        e = Errorf "tarea no encontrada" ∧ (FinalizarTarea r tareaID).1 = r)
  ∧ (∀ e, (CompleteTask r' taskID).2 = Some e →
          e = Errorf "tarea no encontrada" ∧ (CompleteTask r' taskID).1 = r').
Proof.
  split; intros e; [apply FinalizarTarea_falla | apply CompleteTask_fails].
Qed.

(** X4. On a store whose entries sit under their own identifiers,
    completing a task changes nothing but a status: the store keeps its
    set of identifiers and stays keyed by identifier, every stored task
    keeps its identifier, owner identifier and title, tasks other than
    the one named stay as they were, the one named ends completed, and a
    task that was completed stays exactly as it was. *)
Theorem FinalizarTarea_solo_estado
    (r : RepositorioTareaMem.t) (tareaID k : string) (t : Tarea.t)
    (r' : InMemoryTaskRepo.t) (taskID k' : string) (t' : Task.t) :
  claves_por_ID Tarea.ID (RepositorioTareaMem.tareas r) →
  RepositorioTareaMem.tareas r !! k = Some t →
  claves_por_ID Task.ID (InMemoryTaskRepo.tasks r') →
  InMemoryTaskRepo.tasks r' !! k' = Some t' →
  (dom (RepositorioTareaMem.tareas (FinalizarTarea r tareaID).1)
   = dom (RepositorioTareaMem.tareas r)
   ∧ claves_por_ID Tarea.ID
       (RepositorioTareaMem.tareas (FinalizarTarea r tareaID).1)
   ∧ ∃ t1, RepositorioTareaMem.tareas (FinalizarTarea r tareaID).1 !! k
           = Some t1
           ∧ Tarea.ID t1 = Tarea.ID t
           ∧ Tarea.UsuarioID t1 = Tarea.UsuarioID t
           ∧ Tarea.Titulo t1 = Tarea.Titulo t
           ∧ (k ≠ tareaID → t1 = t)
           ∧ (k = tareaID → Tarea.Estado t1 = Finalizada)
           ∧ (Tarea.Estado t = Finalizada → t1 = t))
  ∧ (dom (InMemoryTaskRepo.tasks (CompleteTask r' taskID).1)
     = dom (InMemoryTaskRepo.tasks r')
     ∧ claves_por_ID Task.ID
         (InMemoryTaskRepo.tasks (CompleteTask r' taskID).1)
     ∧ ∃ t1, InMemoryTaskRepo.tasks (CompleteTask r' taskID).1 !! k'
             = Some t1
             ∧ Task.ID t1 = Task.ID t'
             ∧ Task.UserID t1 = Task.UserID t'
             ∧ Task.Title t1 = Task.Title t'
             ∧ (k' ≠ taskID → t1 = t')
             ∧ (k' = taskID → Task.Status t1 = TaskCompleted)
             ∧ (Task.Status t' = TaskCompleted → t1 = t')).
Proof.
  intros Hr Hk Hr' Hk'. split.
  - split; [apply FinalizarTarea_dom|].
    split; [by apply FinalizarTarea_claves|].
    by apply FinalizarTarea_conserva.
  - split; [apply CompleteTask_dom|].
    split; [by apply CompleteTask_keys|].
    by apply CompleteTask_keeps.
Qed.

Lemma FinalizarTarea_solo_estado_witness :
  let t := Tarea.Mk "7" "ana" "Pan" Pendiente in
  let r := (RepositorioTareaMem.Guardar t NuevoRepositorioTareaMem).1 in
  let t' := Task.Mk "7" "ana" "Pan" TaskPending in
  let r' := (InMemoryTaskRepo.Save t' NewInMemoryTaskRepo).1 in
  claves_por_ID Tarea.ID (RepositorioTareaMem.tareas r)
  ∧ RepositorioTareaMem.tareas r !! "7" = Some t
  ∧ dom (RepositorioTareaMem.tareas (FinalizarTarea r "7").1)
    = dom (RepositorioTareaMem.tareas r).
Proof.
  intros t r t' r'.
  assert (claves_por_ID Tarea.ID (RepositorioTareaMem.tareas r)) as H.
  { apply Guardar_tarea_claves. intros k v Hk. vm_compute in Hk.
    discriminate Hk. }
  assert (claves_por_ID Task.ID (InMemoryTaskRepo.tasks r')) as H'.
  { apply Save_task_keys. intros k v Hk. vm_compute in Hk.
    discriminate Hk. }
  assert (RepositorioTareaMem.tareas r !! "7" = Some t) as Hk
    by (vm_compute; reflexivity).
  assert (InMemoryTaskRepo.tasks r' !! "7" = Some t') as Hk'
    by (vm_compute; reflexivity).
  split; [exact H|]. split; [exact Hk|].
  exact (proj1 (proj1
    (FinalizarTarea_solo_estado r "7" "7" t r' "7" "7" t' H Hk H' Hk'))).
Defined.

(** X5. A save puts the identifier of the entity into the set of stored
    identifiers and adds one entry exactly when that identifier was not
    stored; an update never changes the set of stored identifiers nor
    the number of entries, whether it succeeds or fails. *)
Theorem Guardar_Actualizar_claves
    (u : Usuario.t) (ru : RepositorioUsuarioMem.t)
    (t : Tarea.t) (rt : RepositorioTareaMem.t)
    (u' : User.t) (ur : InMemoryUserRepo.t)
    (t' : Task.t) (tr : InMemoryTaskRepo.t) :
  (dom (RepositorioUsuarioMem.usuarios (RepositorioUsuarioMem.Guardar u ru).1)
   = {[Usuario.ID u]} ∪ dom (RepositorioUsuarioMem.usuarios ru)
   ∧ size (RepositorioUsuarioMem.usuarios
             (RepositorioUsuarioMem.Guardar u ru).1)
     = match RepositorioUsuarioMem.usuarios ru !! Usuario.ID u with
       | Some _ => size (RepositorioUsuarioMem.usuarios ru)
       | None => S (size (RepositorioUsuarioMem.usuarios ru))
       end
   ∧ dom (RepositorioTareaMem.tareas (RepositorioTareaMem.Guardar t rt).1)
     = {[Tarea.ID t]} ∪ dom (RepositorioTareaMem.tareas rt)
   ∧ size (RepositorioTareaMem.tareas (RepositorioTareaMem.Guardar t rt).1)
     = match RepositorioTareaMem.tareas rt !! Tarea.ID t with
       | Some _ => size (RepositorioTareaMem.tareas rt)
       | None => S (size (RepositorioTareaMem.tareas rt))
       end
   ∧ dom (RepositorioTareaMem.tareas (RepositorioTareaMem.Actualizar t rt).1)
     = dom (RepositorioTareaMem.tareas rt)
   ∧ size (RepositorioTareaMem.tareas
             (RepositorioTareaMem.Actualizar t rt).1)
     = size (RepositorioTareaMem.tareas rt))
  ∧ (dom (InMemoryUserRepo.users (InMemoryUserRepo.Save u' ur).1)
     = {[User.ID u']} ∪ dom (InMemoryUserRepo.users ur)
     ∧ size (InMemoryUserRepo.users (InMemoryUserRepo.Save u' ur).1)
       = match InMemoryUserRepo.users ur !! User.ID u' with
         | Some _ => size (InMemoryUserRepo.users ur)
         | None => S (size (InMemoryUserRepo.users ur))
         end
     ∧ dom (InMemoryTaskRepo.tasks (InMemoryTaskRepo.Save t' tr).1)
       = {[Task.ID t']} ∪ dom (InMemoryTaskRepo.tasks tr)
     ∧ size (InMemoryTaskRepo.tasks (InMemoryTaskRepo.Save t' tr).1)
       = match InMemoryTaskRepo.tasks tr !! Task.ID t' with
         | Some _ => size (InMemoryTaskRepo.tasks tr)
         | None => S (size (InMemoryTaskRepo.tasks tr))
         end
     ∧ dom (InMemoryTaskRepo.tasks (InMemoryTaskRepo.Update t' tr).1)
       = dom (InMemoryTaskRepo.tasks tr)
     ∧ size (InMemoryTaskRepo.tasks (InMemoryTaskRepo.Update t' tr).1)
       = size (InMemoryTaskRepo.tasks tr)).
Proof.
  split.
  - split; [apply Guardar_usuario_dom|]. split; [apply Guardar_usuario_size|].
    split; [apply Guardar_tarea_dom|]. split; [apply Guardar_tarea_size|].
    split; [apply Actualizar_dom | apply Actualizar_size].
  - split; [apply Save_user_dom|]. split; [apply Save_user_size|].
    split; [apply Save_task_dom|]. split; [apply Save_task_size|].
    split; [apply Update_dom | apply Update_size].
Qed.

(** X6. The last write wins: for two tasks with the same identifier,
    saving the first and then saving or updating with the second gives
    the store, and the nil error, of saving the second alone; the update
    after a save always succeeds. *)
Theorem Guardar_ultima_gana
    (t1 t2 : Tarea.t) (r : RepositorioTareaMem.t)
    (k1 k2 : Task.t) (r' : InMemoryTaskRepo.t) :
  Tarea.ID t2 = Tarea.ID t1 →
  Task.ID k2 = Task.ID k1 →
  (RepositorioTareaMem.Guardar t2 (RepositorioTareaMem.Guardar t1 r).1
   = RepositorioTareaMem.Guardar t2 r
   ∧ RepositorioTareaMem.Actualizar t2 (RepositorioTareaMem.Guardar t1 r).1
     = RepositorioTareaMem.Guardar t2 r
   ∧ (RepositorioTareaMem.Actualizar t2
        (RepositorioTareaMem.Guardar t1 r).1).2 = None)
  ∧ (InMemoryTaskRepo.Save k2 (InMemoryTaskRepo.Save k1 r').1
     = InMemoryTaskRepo.Save k2 r'
     ∧ InMemoryTaskRepo.Update k2 (InMemoryTaskRepo.Save k1 r').1
       = InMemoryTaskRepo.Save k2 r'
     ∧ (InMemoryTaskRepo.Update k2 (InMemoryTaskRepo.Save k1 r').1).2
       = None).
Proof.
  intros H H'. split.
  - split; [by apply Guardar_Guardar|].
    split; [by apply Guardar_luego_Actualizar|].
    by rewrite Guardar_luego_Actualizar.
  - split; [by apply Save_Save|].
    split; [by apply Save_then_Update|].
    by rewrite Save_then_Update.
Qed.

Lemma Guardar_ultima_gana_witness :
  let t1 := Tarea.Mk "7" "ana" "Pan" Pendiente in
  let t2 := Tarea.Mk "7" "luis" "Leche" EnProgreso in
  Tarea.ID t2 = Tarea.ID t1
  ∧ RepositorioTareaMem.Actualizar t2
      (RepositorioTareaMem.Guardar t1 NuevoRepositorioTareaMem).1
    = RepositorioTareaMem.Guardar t2 NuevoRepositorioTareaMem.
Proof.
  intros t1 t2.
  assert (Tarea.ID t2 = Tarea.ID t1) as H by reflexivity.
  assert (Task.ID (Task.Mk "7" "luis" "Leche" TaskInProgress)
          = Task.ID (Task.Mk "7" "ana" "Pan" TaskPending)) as H'
    by reflexivity.
  split; [exact H|].
  exact (proj1 (proj2 (proj1 (Guardar_ultima_gana t1 t2
    NuevoRepositorioTareaMem _ _ NewInMemoryTaskRepo H H')))).
Defined.

(** X7. Saves of tasks with different identifiers commute: either order
    leaves the same store.  An update of a task whose identifier is
    stored is the save of that task. *)
Theorem Guardar_orden_indiferente
    (t1 t2 : Tarea.t) (r : RepositorioTareaMem.t)
    (k1 k2 : Task.t) (r' : InMemoryTaskRepo.t) :
  Tarea.ID t1 ≠ Tarea.ID t2 →
  Task.ID k1 ≠ Task.ID k2 →
  ((RepositorioTareaMem.Guardar t1 (RepositorioTareaMem.Guardar t2 r).1).1
   = (RepositorioTareaMem.Guardar t2 (RepositorioTareaMem.Guardar t1 r).1).1
   ∧ (is_Some (RepositorioTareaMem.tareas r !! Tarea.ID t1) →
      RepositorioTareaMem.Actualizar t1 r = RepositorioTareaMem.Guardar t1 r))
  ∧ ((InMemoryTaskRepo.Save k1 (InMemoryTaskRepo.Save k2 r').1).1
     = (InMemoryTaskRepo.Save k2 (InMemoryTaskRepo.Save k1 r').1).1
     ∧ (is_Some (InMemoryTaskRepo.tasks r' !! Task.ID k1) →
        InMemoryTaskRepo.Update k1 r' = InMemoryTaskRepo.Save k1 r')).
Proof.
  intros H H'. split.
  - split; [by apply Guardar_conmuta | apply Actualizar_es_Guardar].
  - split; [by apply Save_commute | apply Update_is_Save].
Qed.

Lemma Guardar_orden_indiferente_witness :
  let t1 := Tarea.Mk "7" "ana" "Pan" Pendiente in
  let t2 := Tarea.Mk "8" "luis" "Leche" Pendiente in
  Tarea.ID t1 ≠ Tarea.ID t2
  ∧ (RepositorioTareaMem.Guardar t1
       (RepositorioTareaMem.Guardar t2 NuevoRepositorioTareaMem).1).1
    = (RepositorioTareaMem.Guardar t2
         (RepositorioTareaMem.Guardar t1 NuevoRepositorioTareaMem).1).1.
Proof.
  intros t1 t2.
  assert (Tarea.ID t1 ≠ Tarea.ID t2) as H by (intros E; discriminate E).
  assert (Task.ID (Task.Mk "7" "ana" "Pan" TaskPending)
          ≠ Task.ID (Task.Mk "8" "luis" "Leche" TaskPending)) as H'
    by (intros E; discriminate E).
  split; [exact H|].
  exact (proj1 (proj1 (Guardar_orden_indiferente t1 t2
    NuevoRepositorioTareaMem _ _ NewInMemoryTaskRepo H H'))).
Defined.

(** X8. The stores a run can reach never hold more than one entry: every
    entry of a reachable owner or task store sits under the one
    identifier the generator yields for the process and carries that
    identifier. *)
Theorem alcanzable_a_lo_sumo_una (p : Proceso)
    (ru : RepositorioUsuarioMem.t) (rt : RepositorioTareaMem.t)
    (ur : InMemoryUserRepo.t) (tr : InMemoryTaskRepo.t) :
  alcanzable_usuarios p ru → alcanzable p rt →
  reachable_users p ur → reachable p tr →
  (size (RepositorioUsuarioMem.usuarios ru) ≤ 1
   ∧ size (RepositorioTareaMem.tareas rt) ≤ 1
   ∧ (∀ k u, RepositorioUsuarioMem.usuarios ru !! k = Some u →
             k = generarID p ∧ Usuario.ID u = k)
   ∧ (∀ k t, RepositorioTareaMem.tareas rt !! k = Some t →
             k = generarID p ∧ Tarea.ID t = k))
  ∧ (size (InMemoryUserRepo.users ur) ≤ 1
     ∧ size (InMemoryTaskRepo.tasks tr) ≤ 1
     ∧ (∀ k u, InMemoryUserRepo.users ur !! k = Some u →
               k = generateID p ∧ User.ID u = k)
     ∧ (∀ k t, InMemoryTaskRepo.tasks tr !! k = Some t →
               k = generateID p ∧ Task.ID t = k)).
Proof.
  intros Hru Hrt Hur Htr. split.
  - split; [by apply (alcanzable_usuarios_size p)|].
    split; [by apply (alcanzable_size p)|].
    split; [by apply alcanzable_usuarios_una_clave|].
    intros k t Hk. split; [by apply (alcanzable_una_clave p rt Hrt k t)|].
    by apply (alcanzable_claves p rt Hrt).
  - split; [by apply (reachable_users_size p)|].
    split; [by apply (reachable_size p)|].
    split; [by apply reachable_users_one_key|].
    intros k t Hk. split; [by apply (reachable_one_key p tr Htr k t)|].
    by apply (reachable_keys p tr Htr).
Qed.

Lemma alcanzable_a_lo_sumo_una_witness :
  let p := proceso_ejemplo in
  let ru := (CrearUsuario p (CrearUsuario p NuevoRepositorioUsuarioMem
                               "Ana" "admin").1 "Luis" "usuario").1 in
  let rt := (FinalizarTarea (CrearTarea p NuevoRepositorioTareaMem
                               "11342" "Pan").1 "11342").1 in
  let ur := (CreateUser p NewInMemoryUserRepo "Ana").1 in
  let tr := (CreateTask p NewInMemoryTaskRepo "11342" "Pan").1 in
  alcanzable_usuarios p ru ∧ alcanzable p rt
  ∧ reachable_users p ur ∧ reachable p tr
  ∧ size (RepositorioUsuarioMem.usuarios ru) ≤ 1.
Proof.
  intros p ru rt ur tr.
  assert (alcanzable_usuarios p ru) as H1 by (do 2 constructor; constructor).
  assert (alcanzable p rt) as H2 by (do 2 constructor; constructor).
  assert (reachable_users p ur) as H3 by (constructor; constructor).
  assert (reachable p tr) as H4 by (constructor; constructor).
  split; [exact H1|]. split; [exact H2|]. split; [exact H3|].
  split; [exact H4|].
  exact (proj1 (proj1 (alcanzable_a_lo_sumo_una p ru rt ur tr H1 H2 H3 H4))).
Defined.

(** X9. On a reachable task store, listing by owner returns, and what it
    returns is at most one task, whatever the owner asked for and the
    order of visit. *)
Theorem alcanzable_lista_a_lo_sumo_una (p : Proceso)
    (usuarioID : string)
    (r : RepositorioTareaMem.t) (r' : InMemoryTaskRepo.t) :
  alcanzable p r → reachable p r' →
  ((∃ res, ListarTareas r usuarioID res)
   ∧ ∀ res, ListarTareas r usuarioID res → length res ≤ 1)
  ∧ ((∃ res, ListTasks r' usuarioID res)
     ∧ ∀ res, ListTasks r' usuarioID res → length res ≤ 1).
Proof.
  intros Hr Hr'. split.
  - split; [apply ListarPorUsuario_total|]. intros res H.
    by apply (alcanzable_lista_corta p r usuarioID).
  - split; [apply ListByUser_total|]. intros res H.
    by apply (reachable_short_list p r' usuarioID).
Qed.

Lemma alcanzable_lista_a_lo_sumo_una_witness :
  let p := proceso_ejemplo in
  let r := (CrearTarea p (CrearTarea p NuevoRepositorioTareaMem
                            "ana" "Pan").1 "luis" "Leche").1 in
  let r' := (CreateTask p NewInMemoryTaskRepo "luis" "Leche").1 in
  let t := Tarea.Mk "11342" "luis" "Leche" Pendiente in
  let k := Task.Mk "11342" "luis" "Leche" TaskPending in
  alcanzable p r ∧ reachable p r'
  ∧ ListarTareas r "luis" [t] ∧ ListTasks r' "luis" [k]
  ∧ length [t] ≤ 1 ∧ length [k] ≤ 1.
Proof.
  intros p r r' t k.
  assert (alcanzable p r) as H1 by (do 2 constructor; constructor).
  assert (reachable p r') as H2 by (constructor; constructor).
  assert (ListarTareas r "luis" [t]) as H3.
  { exists [("11342", t)]. split; [|reflexivity].
    unfold recorrido. vm_compute. reflexivity. }
  assert (ListTasks r' "luis" [k]) as H4.
  { exists [("11342", k)]. split; [|reflexivity].
    unfold recorrido. vm_compute. reflexivity. }
  destruct (alcanzable_lista_a_lo_sumo_una p "luis" r r' H1 H2)
    as [[_ Hes] [_ Hen]].
  split; [exact H1|]. split; [exact H2|].
  split; [exact H3|]. split; [exact H4|].
  split; [exact (Hes _ H3) | exact (Hen _ H4)].
Defined.

(** X10. Creating a task on a reachable store leaves that task as the
    only entry: the store is the one-entry map of the new task; listing
    its owner returns, and returns exactly that task; listing any other
    owner returns, and returns nothing, whatever tasks were created
    before. *)
Theorem CrearTarea_deja_una (p : Proceso)
    (usuarioID titulo : string)
    (r : RepositorioTareaMem.t) (r' : InMemoryTaskRepo.t) :
  alcanzable p r → reachable p r' →
  (let c := CrearTarea p r usuarioID titulo in
   RepositorioTareaMem.tareas c.1 = {[Tarea.ID c.2.1 := c.2.1]}
   ∧ ListarTareas c.1 usuarioID [c.2.1]
   ∧ (∀ res, ListarTareas c.1 usuarioID res → res = [c.2.1])
   ∧ (∀ otro, otro ≠ usuarioID →
        ListarTareas c.1 otro []
        ∧ ∀ res, ListarTareas c.1 otro res → res = []))
  ∧ (let c := CreateTask p r' usuarioID titulo in
     InMemoryTaskRepo.tasks c.1 = {[Task.ID c.2.1 := c.2.1]}
     ∧ ListTasks c.1 usuarioID [c.2.1]
     ∧ (∀ res, ListTasks c.1 usuarioID res → res = [c.2.1])
     ∧ (∀ otro, otro ≠ usuarioID →
          ListTasks c.1 otro []
          ∧ ∀ res, ListTasks c.1 otro res → res = [])).
Proof.
  intros Hr Hr'. cbv zeta. split.
  - pose proof (alcanzable_CrearTarea p r usuarioID titulo Hr) as Hm.
    rewrite CrearTarea_mem in Hm |- *.
    cbn [fst snd Tarea.ID] in Hm |- *.
    revert Hm. generalize (generarID p). intros g Hm.
    set (t := Tarea.Mk g usuarioID titulo Pendiente) in *.
    set (r1 := RepositorioTareaMem.Mk _) in *.
    split; [exact Hm|]. split; [|split].
    + pose proof (ListarPorUsuario_singleton_resultado g usuarioID t r1 Hm)
        as H.
      by rewrite decide_True in H.
    + intros res H.
      rewrite (ListarPorUsuario_singleton _ _ _ _ _ Hm H).
      by rewrite decide_True.
    + intros otro Hne. split.
      * pose proof (ListarPorUsuario_singleton_resultado g otro t r1 Hm)
          as H.
        rewrite decide_False in H; [exact H|]. cbn. congruence.
      * intros res H.
        rewrite (ListarPorUsuario_singleton _ _ _ _ _ Hm H).
        rewrite decide_False; [done|]. cbn. congruence.
  - pose proof (reachable_CreateTask p r' usuarioID titulo Hr') as Hm.
    rewrite CreateTask_mem in Hm |- *.
    cbn [fst snd Task.ID] in Hm |- *.
    revert Hm. generalize (generateID p). intros g Hm.
    set (t := Task.Mk g usuarioID titulo TaskPending) in *.
    set (r1 := InMemoryTaskRepo.Mk _) in *.
    split; [exact Hm|]. split; [|split].
    + pose proof (ListByUser_singleton_result g usuarioID t r1 Hm) as H.
      by rewrite decide_True in H.
    + intros res H.
      rewrite (ListByUser_singleton _ _ _ _ _ Hm H).
      by rewrite decide_True.
    + intros otro Hne. split.
      * pose proof (ListByUser_singleton_result g otro t r1 Hm) as H.
        rewrite decide_False in H; [exact H|]. cbn. congruence.
      * intros res H.
        rewrite (ListByUser_singleton _ _ _ _ _ Hm H).
        rewrite decide_False; [done|]. cbn. congruence.
Qed.

Lemma CrearTarea_deja_una_witness :
  let p := proceso_ejemplo in
  let r := (CrearTarea p NuevoRepositorioTareaMem "ana" "Pan").1 in
  let r' := (CreateTask p NewInMemoryTaskRepo "ana" "Pan").1 in
  alcanzable p r ∧ reachable p r'
  ∧ ListarTareas (CrearTarea p r "luis" "Leche").1 "luis"
      [(CrearTarea p r "luis" "Leche").2.1]
  ∧ ListarTareas (CrearTarea p r "luis" "Leche").1 "ana" []
  ∧ ListTasks (CreateTask p r' "luis" "Leche").1 "luis"
      [(CreateTask p r' "luis" "Leche").2.1].
Proof.
  intros p r r'.
  assert (alcanzable p r) as H by (constructor; constructor).
  assert (reachable p r') as H' by (constructor; constructor).
  assert ("ana" ≠ "luis") as Hne by (intros E; discriminate E).
  destruct (CrearTarea_deja_una p "luis" "Leche" r r' H H')
    as [(_ & Hes & _ & Hotro) (_ & Hen & _)].
  split; [exact H|]. split; [exact H'|].
  split; [exact Hes|]. split; [exact (proj1 (Hotro "ana" Hne)) | exact Hen].
Defined.

(** X11. Create, complete, list, on any reachable store: a task just
    created is completed without error under the identifier it was
    given, and listing its owner then returns, and returns exactly one
    task, with the title given and status completed. *)
Theorem crear_finalizar_listar (p : Proceso)
    (usuarioID titulo : string)
    (r : RepositorioTareaMem.t) (r' : InMemoryTaskRepo.t) :
  alcanzable p r → reachable p r' →
  (let c := CrearTarea p r usuarioID titulo in
   let f := FinalizarTarea c.1 (Tarea.ID c.2.1) in
   let hecha := Tarea.Mk (generarID p) usuarioID titulo Finalizada in
   Tarea.Estado c.2.1 = Pendiente
   ∧ f.2 = None
   ∧ ListarTareas f.1 usuarioID [hecha]
   ∧ ∀ res, ListarTareas f.1 usuarioID res → res = [hecha])
  ∧ (let c := CreateTask p r' usuarioID titulo in
     let f := CompleteTask c.1 (Task.ID c.2.1) in
     let done_ := Task.Mk (generateID p) usuarioID titulo TaskCompleted in
     Task.Status c.2.1 = TaskPending
     ∧ f.2 = None
     ∧ ListTasks f.1 usuarioID [done_]
     ∧ ∀ res, ListTasks f.1 usuarioID res → res = [done_]).
Proof.
  intros Hr Hr'. cbv zeta. split.
  - pose proof (alcanzable_CrearTarea p r usuarioID titulo Hr) as Hm.
    rewrite CrearTarea_mem in Hm |- *.
    cbn [fst snd Tarea.ID Tarea.Estado] in Hm |- *.
    revert Hm. generalize (generarID p). intros g Hm.
    split; [reflexivity|].
    set (t := Tarea.Mk g usuarioID titulo Pendiente) in *.
    set (r1 := RepositorioTareaMem.Mk _) in *.
    assert (RepositorioTareaMem.tareas r1 !! Tarea.ID t = Some t) as Ht
      by apply lookup_insert_eq.
    change (FinalizarTarea r1 g) with (FinalizarTarea r1 (Tarea.ID t)).
    rewrite (FinalizarTarea_Some r1 t Ht). cbn [fst snd].
    split; [reflexivity|].
    set (r2 := RepositorioTareaMem.Mk _).
    assert (RepositorioTareaMem.tareas r2
            = {[g := Tarea.con_Estado t Finalizada]}) as Hm'.
    { unfold r2. cbn [RepositorioTareaMem.tareas Tarea.ID t]. rewrite Hm.
      apply insert_singleton_eq. }
    change (Tarea.Mk g usuarioID titulo Finalizada)
      with (Tarea.con_Estado t Finalizada).
    split.
    + pose proof (ListarPorUsuario_singleton_resultado g usuarioID _ r2 Hm')
        as H.
      by rewrite decide_True in H.
    + intros res H.
      rewrite (ListarPorUsuario_singleton _ _ _ _ _ Hm' H).
      by rewrite decide_True.
  - pose proof (reachable_CreateTask p r' usuarioID titulo Hr') as Hm.
    rewrite CreateTask_mem in Hm |- *.
    cbn [fst snd Task.ID Task.Status] in Hm |- *.
    revert Hm. generalize (generateID p). intros g Hm.
    split; [reflexivity|].
    set (t := Task.Mk g usuarioID titulo TaskPending) in *.
    set (r1 := InMemoryTaskRepo.Mk _) in *.
    assert (InMemoryTaskRepo.tasks r1 !! Task.ID t = Some t) as Ht
      by apply lookup_insert_eq.
    change (CompleteTask r1 g) with (CompleteTask r1 (Task.ID t)).
    rewrite (CompleteTask_Some r1 t Ht). cbn [fst snd].
    split; [reflexivity|].
    set (r2 := InMemoryTaskRepo.Mk _).
    assert (InMemoryTaskRepo.tasks r2
            = {[g := Task.with_Status t TaskCompleted]}) as Hm'.
    { unfold r2. cbn [InMemoryTaskRepo.tasks Task.ID t]. rewrite Hm.
      apply insert_singleton_eq. }
    change (Task.Mk g usuarioID titulo TaskCompleted)
      with (Task.with_Status t TaskCompleted).
    split.
    + pose proof (ListByUser_singleton_result g usuarioID _ r2 Hm') as H.
      by rewrite decide_True in H.
    + intros res H.
      rewrite (ListByUser_singleton _ _ _ _ _ Hm' H).
      by rewrite decide_True.
Qed.

Lemma crear_finalizar_listar_witness :
  let p := proceso_ejemplo in
  let r := (CrearTarea p NuevoRepositorioTareaMem "luis" "Pan").1 in
  let c := CrearTarea p r "ana" "Buy milk" in
  let r' := (CreateTask p NewInMemoryTaskRepo "luis" "Pan").1 in
  let c' := CreateTask p r' "ana" "Buy milk" in
  alcanzable p r ∧ reachable p r'
  ∧ (FinalizarTarea c.1 (Tarea.ID c.2.1)).2 = None
  ∧ ListarTareas (FinalizarTarea c.1 (Tarea.ID c.2.1)).1 "ana"
      [Tarea.Mk (generarID p) "ana" "Buy milk" Finalizada]
  ∧ ListTasks (CompleteTask c'.1 (Task.ID c'.2.1)).1 "ana"
      [Task.Mk (generateID p) "ana" "Buy milk" TaskCompleted].
Proof.
  intros p r c r' c'.
  assert (alcanzable p r) as H by (constructor; constructor).
  assert (reachable p r') as H' by (constructor; constructor).
  destruct (crear_finalizar_listar p "ana" "Buy milk" r r' H H')
    as [(_ & Hok & Hes & _) (_ & _ & Hen & _)].
  split; [exact H|]. split; [exact H'|].
  split; [exact Hok|]. split; [exact Hes | exact Hen].
Defined.

(** X12. The trimming helper panics on the empty string and on nothing
    else; on any other string it returns the string without its last
    byte, whatever that byte is. *)
Theorem limpiar_quita_ultimo (s s' : string) :
  ((limpiar s = None ↔ s = "")
   ∧ (limpiar s = Some s' ↔ ∃ c, s = s' +:+ String c ""))
  ∧ ((trim s = None ↔ s = "")
     ∧ (trim s = Some s' ↔ ∃ c, s = s' +:+ String c "")).
Proof. split; [apply limpiar_casos | apply trim_cases]. Qed.

(** X13. A complete line is read and trimmed to its text: when the
    input starts with a text free of newlines followed by a newline,
    the read returns the text with that newline and leaves the rest of
    the input, and the trimming helper gives back exactly the text. *)
Theorem linea_completa (texto resto : string) :
  "010"%char ∉ bytes_of texto →
  ReadString (texto +:+ LF +:+ resto) = (texto +:+ LF, resto)
  ∧ limpiar (ReadString (texto +:+ LF +:+ resto)).1 = Some texto
  ∧ trim (ReadString (texto +:+ LF +:+ resto)).1 = Some texto.
Proof.
  intros Hno. rewrite (ReadString_linea texto resto Hno). cbn [fst].
  split; [reflexivity|]. unfold LF. by rewrite limpiar_snoc, trim_snoc.
Qed.

Lemma linea_completa_witness :
  ("010"%char ∉ bytes_of "Buy milk")
  ∧ limpiar (ReadString ("Buy milk" +:+ LF +:+ "5" +:+ LF)).1
    = Some "Buy milk".
Proof.
  assert ("010"%char ∉ bytes_of "Buy milk") as H.
  { apply (bool_decide_unpack _). vm_compute. exact I. }
  split; [exact H|].
  exact (proj1 (proj2 (linea_completa "Buy milk" ("5" +:+ LF) H))).
Defined.

(** X14. [main] always ends: on any input, within one round more than
    the input has bytes, the run has returned or panicked, whatever the
    orders of visit; allowing more rounds changes nothing. *)
Theorem main_termina (p : Proceso) (stdin : string) (mas : nat)
    (eleccion : nat → gmap string Tarea.t → list (string * Tarea.t))
    (choice : nat → gmap string Task.t → list (string * Task.t)) :
  (is_Some (EsInterfaz.main (S (String.length stdin)) p eleccion stdin)
   ∧ EsInterfaz.main (S (String.length stdin) + mas) p eleccion stdin
     = EsInterfaz.main (S (String.length stdin)) p eleccion stdin)
  ∧ (is_Some (EnInterface.main (S (String.length stdin)) p choice stdin)
     ∧ EnInterface.main (S (String.length stdin) + mas) p choice stdin
       = EnInterface.main (S (String.length stdin)) p choice stdin).
Proof.
  assert (String.length stdin < S (String.length stdin)) as H1 by lia.
  assert (String.length stdin < S (String.length stdin) + mas) as H2 by lia.
  split.
  - split; [exact (proj1 (main_estable p eleccion stdin _ _ H1 H1))|].
    exact (proj2 (main_estable p eleccion stdin _ _ H2 H1)).
  - split; [exact (proj1 (main_stable p choice stdin _ _ H1 H1))|].
    exact (proj2 (main_stable p choice stdin _ _ H2 H1)).
Qed.



(** X16. However a run of [main] ends, by return or by panic, its two
    repositories are reachable stores: each holds at most one entry. *)
Theorem main_a_lo_sumo_una (p : Proceso) (stdin : string) (n n' : nat)
    (eleccion : nat → gmap string Tarea.t → list (string * Tarea.t))
    (choice : nat → gmap string Task.t → list (string * Task.t))
    (r : Fin * Mundo RepositorioUsuarioMem.t RepositorioTareaMem.t)
    (r' : Fin * Mundo InMemoryUserRepo.t InMemoryTaskRepo.t) :
  EsInterfaz.main n p eleccion stdin = Some r →
  EnInterface.main n' p choice stdin = Some r' →
  (alcanzable_usuarios p (repoUsuario r.2) ∧ alcanzable p (repoTarea r.2)
   ∧ size (RepositorioUsuarioMem.usuarios (repoUsuario r.2)) ≤ 1
   ∧ size (RepositorioTareaMem.tareas (repoTarea r.2)) ≤ 1)
  ∧ (reachable_users p (repoUsuario r'.2) ∧ reachable p (repoTarea r'.2)
     ∧ size (InMemoryUserRepo.users (repoUsuario r'.2)) ≤ 1
     ∧ size (InMemoryTaskRepo.tasks (repoTarea r'.2)) ≤ 1).
Proof.
  intros H H'. split.
  - destruct (main_alcanzable p eleccion stdin n r H) as [Hu Ht].
    split; [done|]. split; [done|].
    split; [by apply (alcanzable_usuarios_size p)
           | by apply (alcanzable_size p)].
  - destruct (main_reachable p choice stdin n' r' H') as [Hu Ht].
    split; [done|]. split; [done|].
    split; [by apply (reachable_users_size p) | by apply (reachable_size p)].
Qed.

Lemma main_a_lo_sumo_una_witness :
  let stdin :=
    "2" +:+ LF +:+ "ana" +:+ LF +:+ "Pan" +:+ LF
    +:+ "2" +:+ LF +:+ "luis" +:+ LF +:+ "Leche" +:+ LF +:+ "5" +:+ LF in
  ∃ r r',
    EsInterfaz.main 9 proceso_ejemplo (λ _, map_to_list) stdin = Some r
    ∧ EnInterface.main 9 proceso_ejemplo (λ _, map_to_list) stdin = Some r'
    ∧ r.1 = Retorna
    ∧ size (RepositorioTareaMem.tareas (repoTarea r.2)) ≤ 1.
Proof.
  intros stdin.
  destruct (EsInterfaz.main 9 proceso_ejemplo (λ _, map_to_list) stdin)
    as [r|] eqn:E; [|vm_compute in E; discriminate E].
  destruct (EnInterface.main 9 proceso_ejemplo (λ _, map_to_list) stdin)
    as [r'|] eqn:E'; [|vm_compute in E'; discriminate E'].
  exists r, r'. split; [reflexivity|]. split; [reflexivity|].
  split.
  - vm_compute in E. injection E as <-. reflexivity.
  - exact (proj2 (proj2 (proj2 (proj1
      (main_a_lo_sumo_una proceso_ejemplo stdin 9 9 _ _ r r' E E'))))).
Defined.

(** X17. The order in which a run visits the task map does not show:
    two runs of [main] on the same input that differ only in the orders
    of visit taken in each round end alike, with the same output, the
    same stores and the same input left. *)
Theorem main_orden_indiferente (p : Proceso) (stdin : string) (n : nat)
    (eleccion eleccion' : nat → gmap string Tarea.t
                          → list (string * Tarea.t))
    (choice choice' : nat → gmap string Task.t → list (string * Task.t)) :
  (∀ k, admisible (eleccion k)) → (∀ k, admisible (eleccion' k)) →
  (∀ k, admisible (choice k)) → (∀ k, admisible (choice' k)) →
  EsInterfaz.main n p eleccion stdin = EsInterfaz.main n p eleccion' stdin
  ∧ EnInterface.main n p choice stdin = EnInterface.main n p choice' stdin.
Proof.
  intros H1 H2 H3 H4. split; [by apply main_ext | by apply main_ext_en].
Qed.

Lemma main_orden_indiferente_witness :
  let stdin := "2" +:+ LF +:+ "ana" +:+ LF +:+ "Pan" +:+ LF
               +:+ "4" +:+ LF +:+ "ana" +:+ LF +:+ "5" +:+ LF in
  (∀ k : nat, admisible (V := Tarea.t) ((λ _, map_to_list) k))
  ∧ (∀ k : nat, admisible (V := Tarea.t) ((λ _ m, reverse (map_to_list m)) k))
  ∧ EsInterfaz.main 7 proceso_ejemplo (λ _, map_to_list) stdin
    = EsInterfaz.main 7 proceso_ejemplo (λ _ m, reverse (map_to_list m)) stdin.
Proof.
  intros stdin.
  assert (∀ k : nat, admisible (V := Tarea.t) ((λ _, map_to_list) k)) as H1
    by (intros k m; unfold recorrido; reflexivity).
  assert (∀ k : nat,
            admisible (V := Tarea.t) ((λ _ m, reverse (map_to_list m)) k))
    as H2 by (intros k m; unfold recorrido; apply reverse_Permutation).
  assert (∀ k : nat, admisible (V := Task.t) ((λ _, map_to_list) k)) as H3
    by (intros k m; unfold recorrido; reflexivity).
  split; [exact H1|]. split; [exact H2|].
  exact (proj1 (main_orden_indiferente proceso_ejemplo stdin 7
    _ _ _ _ H1 H2 H3 H3)).
Defined.

(** X18. An option line whose first byte is none of ['1'] to ['5'] costs
    nothing but the line: the round prints the menu and "Opción
    inválida.", reads that one line, leaves both repositories as they
    were and goes round again. *)
Theorem ronda_opcion_invalida (p : Proceso) (c : ascii)
    (elige : gmap string Tarea.t → list (string * Tarea.t))
    (m : Mundo RepositorioUsuarioMem.t RepositorioTareaMem.t)
    (choose : gmap string Task.t → list (string * Task.t))
    (m' : Mundo InMemoryUserRepo.t InMemoryTaskRepo.t) :
  c ∉ bytes_of "12345" →
  primer_byte (entrada m) = Some c →
  primer_byte (entrada m') = Some c →
  EsInterfaz.ronda p elige m
  = (Some true,
     MkMundo (ReadString (entrada m)).2 (repoUsuario m) (repoTarea m)
       (salida m +:+ texto_menu_es +:+ "Opción inválida." +:+ LF))
  ∧ EnInterface.round p choose m'
    = (Some true,
       MkMundo (ReadString (entrada m')).2 (repoUsuario m') (repoTarea m')
         (salida m' +:+ texto_menu_en +:+ "Opción inválida." +:+ LF)).
Proof.
  intros Hc Hm Hm'.
  assert (c ≠ "1" ∧ c ≠ "2" ∧ c ≠ "3" ∧ c ≠ "4" ∧ c ≠ "5")%char
    as (H1 & H2 & H3 & H4 & H5).
  { repeat split; intros ->; apply Hc; unfold bytes_of;
      cbn [String.list_ascii_of_string];
      repeat first [apply list_elem_of_here | apply list_elem_of_further]. }
  split; [by apply (ronda_invalida p elige m c)
         | by apply (round_invalid p choose m' c)].
Qed.

Lemma ronda_opcion_invalida_witness :
  let m := MkMundo ("x" +:+ LF +:+ "5" +:+ LF) NuevoRepositorioUsuarioMem
             NuevoRepositorioTareaMem "" in
  let m' := MkMundo ("x" +:+ LF) NewInMemoryUserRepo NewInMemoryTaskRepo "" in
  ("x"%char ∉ bytes_of "12345")
  ∧ primer_byte (entrada m) = Some "x"%char
  ∧ (EsInterfaz.ronda proceso_ejemplo map_to_list m).1 = Some true.
Proof.
  intros m m'.
  assert ("x"%char ∉ bytes_of "12345") as H
    by (apply (bool_decide_unpack _); vm_compute; exact I).
  assert (primer_byte (entrada m) = Some "x"%char) as H1 by reflexivity.
  assert (primer_byte (entrada m') = Some "x"%char) as H2 by reflexivity.
  split; [exact H|]. split; [exact H1|].
  exact (f_equal fst (proj1 (ronda_opcion_invalida proceso_ejemplo "x"
    map_to_list m map_to_list m' H H1 H2))).
Defined.

(** X19. The closure [contador] returns counts its calls: from a fresh
    counter the n-th call returns n, wrapped to the range of [int], so n
    itself as long as n is an [int]. *)
Theorem contador_cuenta (n : nat) :
  (0 < n)%nat →
  (Hello.llamadas n Hello.contador).1 = Some (int_wrap (Z.of_nat n))
  ∧ ((Z.of_nat n ≤ int_max)%Z →
     (Hello.llamadas n Hello.contador).1 = Some (Z.of_nat n)).
Proof.
  intros Hn. destruct n as [|n]; [lia|]. rewrite llamadas_S.
  unfold Hello.contador. rewrite Z.add_0_l. cbn [fst]. split; [done|].
  intros Hmax. rewrite int_wrap_id; [done|]. unfold int_min. lia.
Qed.

Lemma contador_cuenta_witness :
  (0 < 5)%nat ∧ (Hello.llamadas 5 Hello.contador).1 = Some 5%Z.
Proof.
  assert (0 < 5)%nat as H by lia.
  split; [exact H|].
  apply (proj2 (contador_cuenta 5 H)). vm_compute. discriminate.
Defined.

(** X20. [imprimirNombres] prints the positions, not the names: its
    output is one line per element holding the index of the element,
    from 0 up, so two lists of the same length print the same text. *)
Theorem imprimirNombres_indices_solo (nombres otros : list string)
    (x : string) :
  Hello.imprimirNombres (nombres ++ [x])
  = Hello.imprimirNombres nombres
    +:+ Sprintf_d (Z.of_nat (length nombres)) +:+ LF
  ∧ (length nombres = length otros →
     Hello.imprimirNombres nombres = Hello.imprimirNombres otros).
Proof.
  split.
  - rewrite !imprimirNombres_indices, length_app. cbn [length].
    rewrite seq_app, foldl_app. cbn [seq foldl]. by rewrite Nat.add_0_l.
  - intros Hlen. rewrite !imprimirNombres_indices. by rewrite Hlen.
Qed.

(** X21. No round of the menu looks at the owner repository: started
    with any other owner store in place of the current one, a round ends
    the same way (goes on, returns or panics), prints the same text,
    leaves the same input and the same task store. *)
Theorem ronda_no_mira_usuarios (p : Proceso)
    (elige : gmap string Tarea.t → list (string * Tarea.t))
    (m : Mundo RepositorioUsuarioMem.t RepositorioTareaMem.t)
    (ru : RepositorioUsuarioMem.t)
    (choose : gmap string Task.t → list (string * Task.t))
    (m' : Mundo InMemoryUserRepo.t InMemoryTaskRepo.t)
    (ur : InMemoryUserRepo.t) :
  (let m2 := MkMundo (entrada m) ru (repoTarea m) (salida m) in
   (EsInterfaz.ronda p elige m).1 = (EsInterfaz.ronda p elige m2).1
   ∧ salida (EsInterfaz.ronda p elige m).2
     = salida (EsInterfaz.ronda p elige m2).2
   ∧ entrada (EsInterfaz.ronda p elige m).2
     = entrada (EsInterfaz.ronda p elige m2).2
   ∧ repoTarea (EsInterfaz.ronda p elige m).2
     = repoTarea (EsInterfaz.ronda p elige m2).2)
  ∧ (let m2 := MkMundo (entrada m') ur (repoTarea m') (salida m') in
     (EnInterface.round p choose m').1 = (EnInterface.round p choose m2).1
     ∧ salida (EnInterface.round p choose m').2
       = salida (EnInterface.round p choose m2).2
     ∧ entrada (EnInterface.round p choose m').2
       = entrada (EnInterface.round p choose m2).2
     ∧ repoTarea (EnInterface.round p choose m').2
       = repoTarea (EnInterface.round p choose m2).2).
Proof.
  cbv zeta. split.
  - destruct (ronda_ciega p elige m
      (MkMundo (entrada m) ru (repoTarea m) (salida m)))
      as (Hv & He & Ht & Hs); [by repeat split|].
    by repeat split.
  - destruct (round_blind p choose m'
      (MkMundo (entrada m') ur (repoTarea m') (salida m')))
      as (Hv & He & Ht & Hs); [by repeat split|].
    by repeat split.
Qed.

End Extras.
